(** * WinDirStat: the blocking work queue, the progress display and the CSV codec

    A shallow embedding of
      - windirstat/BlockingQueue.h   (class BlockingQueue<T>),
      - windirstat/MainFrame.cpp     (CMainFrame::CreateProgress and helpers),
      - windirstat/CsvLoader.cpp     (LoadResults, SaveResults and helpers),
    together with the properties the specification states about them. *)

From Stdlib Require Import ZArith Lia Bool.
From stdpp Require Import base option list gmap strings.

Local Open Scope Z_scope.

Set Warnings "-register-all".

(** ** Machine integers *)

Definition wrap (bits : Z) (x : Z) : Z := x mod 2 ^ bits.
Arguments wrap : simpl never.
Definition UINT_MAX : Z := 2 ^ 32 - 1.

(** ** BlockingQueue.h *)

Module BlockingQueue.

(** Where a thread started by [StartThreads] currently is.  The callback is
    arbitrary code of the caller; of it only the calls into the queue and the
    ways it can end are visible here. *)
Inductive thread_pc : Type :=
  | Running        (* in the callback, outside of the queue's blocking calls *)
  | PopBlocked     (* in Pop, inside m_Pushed.wait *)
  | SuspendSeen    (* in WaitIfSuspended, after the unlocked read of m_Suspended gave true *)
  | SuspendBlocked (* in WaitIfSuspended, inside m_Waiting.wait *)
  | Unwinding      (* a std::exception is travelling up to ThreadWrapper *)
  | Caught         (* ThreadWrapper's handler has run; the thread is over *)
  | Returned.      (* the callback returned normally; the thread is over *)

Definition thread_pc_eqb (a b : thread_pc) : bool :=
  match a, b with
  | Running, Running | PopBlocked, PopBlocked | SuspendSeen, SuspendSeen
  | SuspendBlocked, SuspendBlocked | Unwinding, Unwinding
  | Caught, Caught | Returned, Returned => true
  | _, _ => false
  end.

(** The threads that have incremented [m_WorkersWaiting] and not yet
    decremented it again. *)
Definition counted (p : thread_pc) : bool :=
  match p with
  | PopBlocked | SuspendBlocked | Caught => true
  | _ => false
  end.

Fixpoint counted_threads (l : list thread_pc) : Z :=
  match l with
  | [] => 0
  | p :: l' => (if counted p then 1 else 0) + counted_threads l'
  end.

Section Queue.

Context {T : Type}.

(** The data members.  [m_Queue] is the std::deque with its front at the head
    of the list; the two unsigned counters are 32-bit; [m_Threads] holds one
    program point per std::thread of the vector. *)
Record state : Type := mkState {
  m_Threads : list thread_pc;
  m_Queue : list T;
  m_TotalWorkerThreads : Z;
  m_WorkersWaiting : Z;
  m_Started : bool;
  m_Suspended : bool;
  m_Cancelled : bool
}.

Definition set_Threads (s : state) (v : list thread_pc) : state :=
  mkState v (m_Queue s) (m_TotalWorkerThreads s) (m_WorkersWaiting s)
          (m_Started s) (m_Suspended s) (m_Cancelled s).
Definition set_Queue (s : state) (v : list T) : state :=
  mkState (m_Threads s) v (m_TotalWorkerThreads s) (m_WorkersWaiting s)
          (m_Started s) (m_Suspended s) (m_Cancelled s).
Definition set_WorkersWaiting (s : state) (v : Z) : state :=
  mkState (m_Threads s) (m_Queue s) (m_TotalWorkerThreads s) v
          (m_Started s) (m_Suspended s) (m_Cancelled s).
Definition set_Started (s : state) (v : bool) : state :=
  mkState (m_Threads s) (m_Queue s) (m_TotalWorkerThreads s) (m_WorkersWaiting s)
          v (m_Suspended s) (m_Cancelled s).
Definition set_Suspended (s : state) (v : bool) : state :=
  mkState (m_Threads s) (m_Queue s) (m_TotalWorkerThreads s) (m_WorkersWaiting s)
          (m_Started s) v (m_Cancelled s).
Definition set_Cancelled (s : state) (v : bool) : state :=
  mkState (m_Threads s) (m_Queue s) (m_TotalWorkerThreads s) (m_WorkersWaiting s)
          (m_Started s) (m_Suspended s) v.

(** m_WorkersWaiting++ and m_WorkersWaiting-- on an unsigned int. *)
Definition incr_WorkersWaiting (s : state) : state :=
  set_WorkersWaiting s (wrap 32 (m_WorkersWaiting s + 1)).
Definition decr_WorkersWaiting (s : state) : state :=
  set_WorkersWaiting s (wrap 32 (m_WorkersWaiting s - 1)).

Definition queue_empty (s : state) : bool :=
  match m_Queue s with [] => true | _ :: _ => false end.

(** bool AllThreadsIdling() const *)
Definition AllThreadsIdling (s : state) : bool :=
  m_TotalWorkerThreads s =? m_WorkersWaiting s.

(** void ResetQueue(const int totalWorkerThreads, bool clearQueue = true).
    The unsigned count passes through an int parameter and back, which keeps
    it modulo 2^32. *)
Definition ResetQueue (totalWorkerThreads : Z) (clearQueue : bool) (s : state) : state :=
  mkState [] (if clearQueue then [] else m_Queue s)
          (wrap 32 totalWorkerThreads) 0 false false false.

(** The default-constructed queue. *)
Definition fresh : state := mkState [] [] 1 0 false false false.

(** void Push(T const& value): push_front under the lock. *)
Definition Push (value : T) (s : state) : state :=
  set_Queue s (value :: m_Queue s).

(** T Pop(), first half: lock, count the caller as waiting, notify. *)
Definition Pop_enter (s : state) : state := incr_WorkersWaiting s.

(** The predicate handed to m_Pushed.wait in Pop, with the operators as the
    C++ grammar groups them ([&&] binds tighter than [||]). *)
Definition Pop_pred (s : state) : bool :=
  negb (m_Suspended s) && negb (queue_empty s) || m_Cancelled s.

Inductive pop_outcome : Type :=
  | PopWaits                       (* the wait does not return in this state *)
  | PopThrows (s' : state)         (* throw std::exception(__FUNCTION__) *)
  | PopReturns (i : T) (s' : state)
  | PopUndefined.                  (* front() of an empty deque *)

(** T Pop(), second half: what happens once the wait is over.  The value
    returned is the element that was at the front (the source binds it by
    reference and pops the deque before returning it; it is read here as the
    value it held). *)
Definition Pop_leave (s : state) : pop_outcome :=
  if Pop_pred s then
    let s1 := decr_WorkersWaiting s in
    if m_Cancelled s1 then PopThrows s1
    else
      let s2 := set_Started s1 true in
      match m_Queue s2 with
      | i :: rest => PopReturns i (set_Queue s2 rest)
      | [] => PopUndefined
      end
  else PopWaits.

(** A whole call of Pop in a state in which its wait need not block. *)
Definition Pop (s : state) : pop_outcome := Pop_leave (Pop_enter s).

(** WaitIfSuspended: the unlocked test, the entry and the exit of the wait. *)
Definition WaitIfSuspended_enter (s : state) : state := incr_WorkersWaiting s.

Definition WaitIfSuspended_pred (s : state) : bool :=
  negb (m_Suspended s) || m_Cancelled s.

Inductive wait_outcome : Type :=
  | StillWaits
  | WaitThrows (s' : state)
  | WaitReturns (s' : state).

Definition WaitIfSuspended_leave (s : state) : wait_outcome :=
  if WaitIfSuspended_pred s then
    let s1 := decr_WorkersWaiting s in
    if m_Cancelled s1 then WaitThrows s1 else WaitReturns s1
  else StillWaits.

(** The predicate of WaitForCompletionOrCancellation, grouped as C++ does. *)
Definition Completion_pred (s : state) : bool :=
  m_Started s && negb (m_Suspended s) && AllThreadsIdling s && queue_empty s
  || m_Cancelled s.

(** bool WaitForCompletionOrCancellation(): [None] while the wait blocks. *)
Definition WaitForCompletionOrCancellation (s : state) : option bool :=
  if Completion_pred s then Some (negb (m_Cancelled s)) else None.

(** SuspendExecution: the assignment, then the wait for AllThreadsIdling. *)
Definition SuspendExecution_enter (s : state) : state := set_Suspended s true.

Definition SuspendExecution_leave (s : state) : option state :=
  if AllThreadsIdling s then Some s else None.

(** SuspendExecution as a whole, where its wait need not block. *)
Definition SuspendExecution (s : state) : option state :=
  SuspendExecution_leave (SuspendExecution_enter s).

(** void ResumeExecution() *)
Definition ResumeExecution (s : state) : state := set_Suspended s false.

(** The handler of ThreadWrapper. *)
Definition ThreadWrapper_catch (s : state) : state := incr_WorkersWaiting s.

(** The assignment that opens CancelExecution (made without the lock). *)
Definition CancelExecution_flag (s : state) : state := set_Cancelled s true.

(** What the threads of one pool and their controller can do between
    StartThreads and the ResetQueue that ends CancelExecution.  Each rule is
    one critical section of the source (or one unlocked access). *)
Inductive label : Type :=
  | LSpawn | LPush (v : T) | LPopEnter (i : nat) | LPopValue (i : nat) (v : T)
  | LPopThrow (i : nat) | LSuspendSeen (i : nat) | LSuspendEnter (i : nat)
  | LSuspendResume (i : nat) | LSuspendThrow (i : nat) | LThrow (i : nat)
  | LCatch (i : nat) | LReturn (i : nat)
  | LCancel | LSuspendSet | LSuspendReturn | LResume | LCompletion (b : bool).

Definition at_pc (s : state) (i : nat) (p : thread_pc) : Prop :=
  m_Threads s !! i = Some p.

Definition goto (s : state) (i : nat) (p : thread_pc) : state :=
  set_Threads s (<[i := p]> (m_Threads s)).

Inductive step : state -> label -> state -> Prop :=
  | step_spawn s :
      (* the loop of StartThreads has not reached m_TotalWorkerThreads yet *)
      Z.of_nat (length (m_Threads s)) < m_TotalWorkerThreads s ->
      step s LSpawn (set_Threads s (m_Threads s ++ [Running]))
  | step_push s v :
      step s (LPush v) (Push v s)
  | step_pop_enter s i :
      at_pc s i Running ->
      step s (LPopEnter i) (goto (Pop_enter s) i PopBlocked)
  | step_pop_value s i v s' :
      at_pc s i PopBlocked ->
      Pop_leave s = PopReturns v s' ->
      step s (LPopValue i v) (goto s' i Running)
  | step_pop_throw s i s' :
      at_pc s i PopBlocked ->
      Pop_leave s = PopThrows s' ->
      step s (LPopThrow i) (goto s' i Unwinding)
  | step_suspend_seen s i :
      at_pc s i Running ->
      m_Suspended s = true ->
      step s (LSuspendSeen i) (goto s i SuspendSeen)
  | step_suspend_enter s i :
      at_pc s i SuspendSeen ->
      step s (LSuspendEnter i) (goto (WaitIfSuspended_enter s) i SuspendBlocked)
  | step_suspend_resume s i s' :
      at_pc s i SuspendBlocked ->
      WaitIfSuspended_leave s = WaitReturns s' ->
      step s (LSuspendResume i) (goto s' i Running)
  | step_suspend_throw s i s' :
      at_pc s i SuspendBlocked ->
      WaitIfSuspended_leave s = WaitThrows s' ->
      step s (LSuspendThrow i) (goto s' i Unwinding)
  | step_throw s i :
      (* the callback itself throws a std::exception *)
      at_pc s i Running ->
      step s (LThrow i) (goto s i Unwinding)
  | step_catch s i :
      at_pc s i Unwinding ->
      step s (LCatch i) (goto (ThreadWrapper_catch s) i Caught)
  | step_return s i :
      at_pc s i Running ->
      step s (LReturn i) (goto s i Returned)
  | step_cancel s :
      step s LCancel (CancelExecution_flag s)
  | step_suspend_set s :
      step s LSuspendSet (SuspendExecution_enter s)
  | step_suspend_return s s' :
      SuspendExecution_leave s = Some s' ->
      step s LSuspendReturn s'
  | step_resume s :
      step s LResume (ResumeExecution s)
  | step_completion s b :
      WaitForCompletionOrCancellation s = Some b ->
      step s (LCompletion b) s.

(** The states of one lifecycle: StartThreads(workerThreads, callback) resets
    the queue (keeping what was pushed before) and then everything runs. *)
Inductive reachable (workerThreads : Z) (s0 : state) : state -> Prop :=
  | reach_start : reachable workerThreads s0 (ResetQueue workerThreads false s0)
  | reach_step s l s' :
      reachable workerThreads s0 s -> step s l s' -> reachable workerThreads s0 s'.

(** Running Push over a list of values, first to last. *)
Definition push_all (l : list T) (s : state) : state :=
  fold_left (fun s v => Push v s) l s.

(** Calling Pop n times in a row; the values returned, first to last, or
    [None] if one of the calls blocks, throws or is undefined. *)
Fixpoint pop_n (n : nat) (s : state) : option (list T * state) :=
  match n with
  | O => Some ([], s)
  | S n' =>
      match Pop s with
      | PopReturns v s' =>
          match pop_n n' s' with
          | Some (vs, s'') => Some (v :: vs, s'')
          | None => None
          end
      | _ => None
      end
  end.

End Queue.

Arguments state : clear implicits.

End BlockingQueue.

(** ** Properties of the queue *)

Module BlockingQueueFacts.
Import BlockingQueue.

Lemma wrap_small bits x : 0 <= x < 2 ^ bits -> wrap bits x = x.
Proof. intros H. unfold wrap. apply Z.mod_small. exact H. Qed.

Lemma wrap_range bits x : 0 <= bits -> 0 <= wrap bits x < 2 ^ bits.
Proof. intros H. unfold wrap. apply Z.mod_pos_bound. apply Z.pow_pos_nonneg; lia. Qed.

Definition weight (p : thread_pc) : Z := if counted p then 1 else 0.

Lemma counted_threads_bounds l :
  0 <= counted_threads l <= Z.of_nat (length l).
Proof.
  induction l as [|p l IH]; simpl; [lia|].
  destruct (counted p); lia.
Qed.

Lemma counted_threads_app l1 l2 :
  counted_threads (l1 ++ l2) = counted_threads l1 + counted_threads l2.
Proof. induction l1 as [|p l1 IH]; simpl; [reflexivity|]. rewrite IH. lia. Qed.

Lemma counted_threads_insert l i p q :
  l !! i = Some p ->
  counted_threads (<[i := q]> l) = counted_threads l - weight p + weight q.
Proof.
  revert i. induction l as [|x l IH]; intros i H; [discriminate|].
  destruct i as [|i]; simpl in *.
  - injection H as ->. unfold weight. lia.
  - rewrite (IH i H). lia.
Qed.

Lemma counted_threads_full l :
  counted_threads l = Z.of_nat (length l) -> Forall (fun p => counted p = true) l.
Proof.
  induction l as [|p l IH]; simpl; intros H; [constructor|].
  pose proof (counted_threads_bounds l) as B.
  destruct (counted p) eqn:E; [|lia].
  constructor; [exact E|]. apply IH. lia.
Qed.

Section Facts.

Context {T : Type}.
Implicit Types s : state T.

(** What every state of a lifecycle started with [workerThreads] satisfies. *)
Definition pool_inv (workerThreads : Z) s : Prop :=
  m_TotalWorkerThreads s = wrap 32 workerThreads /\
  m_WorkersWaiting s = counted_threads (m_Threads s) /\
  Z.of_nat (length (m_Threads s)) <= m_TotalWorkerThreads s.

Lemma pool_inv_start n s0 : pool_inv n (ResetQueue n false s0).
Proof. unfold pool_inv; simpl. pose proof (wrap_range 32 n). lia. Qed.

Lemma pool_inv_bound n s :
  pool_inv n s ->
  0 <= m_WorkersWaiting s /\ m_WorkersWaiting s <= m_TotalWorkerThreads s /\
  m_TotalWorkerThreads s < 2 ^ 32.
Proof.
  intros (Ht & Hw & Hl).
  pose proof (counted_threads_bounds (m_Threads s)).
  pose proof (wrap_range 32 n). lia.
Qed.

(** A thread passes from program point [p] to [q] while the counter moves
    by the difference of their weights. *)
Lemma pool_inv_goto n s s1 i p q :
  pool_inv n s -> at_pc s i p ->
  m_Threads s1 = m_Threads s ->
  m_TotalWorkerThreads s1 = m_TotalWorkerThreads s ->
  m_WorkersWaiting s1 = wrap 32 (m_WorkersWaiting s - weight p + weight q) ->
  pool_inv n (goto s1 i q).
Proof.
  intros Hinv Hat Hth Htot Hw.
  pose proof (pool_inv_bound _ _ Hinv) as B.
  destruct Hinv as (Ht & Hc & Hl).
  unfold pool_inv, goto; simpl. rewrite Hth, Htot, Hw.
  rewrite length_insert, (counted_threads_insert _ _ _ _ Hat).
  split; [exact Ht|]. split; [|exact Hl].
  pose proof (counted_threads_bounds (<[i:=q]> (m_Threads s))) as B'.
  rewrite length_insert, (counted_threads_insert _ _ _ _ Hat) in B'.
  rewrite wrap_small; rewrite Hc; lia.
Qed.

Lemma Pop_leave_fields s :
  match Pop_leave s with
  | PopThrows s' | PopReturns _ s' =>
      m_Threads s' = m_Threads s /\
      m_TotalWorkerThreads s' = m_TotalWorkerThreads s /\
      m_WorkersWaiting s' = wrap 32 (m_WorkersWaiting s - 1)
  | _ => True
  end.
Proof.
  unfold Pop_leave. destruct (Pop_pred s); [|exact I]. simpl.
  destruct (m_Cancelled s); simpl; [auto|].
  destruct (m_Queue s); simpl; auto.
Qed.

Lemma WaitIfSuspended_leave_fields s :
  match WaitIfSuspended_leave s with
  | WaitThrows s' | WaitReturns s' =>
      m_Threads s' = m_Threads s /\
      m_TotalWorkerThreads s' = m_TotalWorkerThreads s /\
      m_WorkersWaiting s' = wrap 32 (m_WorkersWaiting s - 1)
  | StillWaits => True
  end.
Proof.
  unfold WaitIfSuspended_leave. destruct (WaitIfSuspended_pred s); [|exact I].
  simpl. destruct (m_Cancelled s); simpl; auto.
Qed.

Lemma pool_inv_same n s s1 :
  pool_inv n s ->
  m_Threads s1 = m_Threads s ->
  m_TotalWorkerThreads s1 = m_TotalWorkerThreads s ->
  m_WorkersWaiting s1 = m_WorkersWaiting s ->
  pool_inv n s1.
Proof. unfold pool_inv. intros H -> -> ->. exact H. Qed.

Lemma pool_inv_step n s l s' : pool_inv n s -> step s l s' -> pool_inv n s'.
Proof.
  intros Hinv Hstep.
  destruct Hstep as
    [s Hlt | s v | s i Hat | s i v s' Hat Hp | s i s' Hat Hp | s i Hat Hs
    | s i Hat | s i s' Hat Hw | s i s' Hat Hw | s i Hat | s i Hat | s i Hat
    | s | s | s s' Hl | s | s b Hb].
  - destruct Hinv as (Ht & Hc & Hl). unfold pool_inv; simpl.
    rewrite counted_threads_app, length_app; simpl. split; [exact Ht|]. lia.
  - eapply pool_inv_same; [exact Hinv|reflexivity..].
  - eapply pool_inv_goto with (p := Running); eauto. unfold weight. simpl. f_equal. lia.
  - pose proof (Pop_leave_fields s) as F. rewrite Hp in F. destruct F as (F1 & F2 & F3).
    eapply pool_inv_goto with (p := PopBlocked); eauto. rewrite F3. unfold weight. simpl. f_equal. lia.
  - pose proof (Pop_leave_fields s) as F. rewrite Hp in F. destruct F as (F1 & F2 & F3).
    eapply pool_inv_goto with (p := PopBlocked); eauto. rewrite F3. unfold weight. simpl. f_equal. lia.
  - eapply pool_inv_goto with (p := Running); eauto. unfold weight. simpl.
    symmetry. rewrite Z.sub_0_r, Z.add_0_r. apply wrap_small.
    pose proof (pool_inv_bound _ _ Hinv). lia.
  - eapply pool_inv_goto with (p := SuspendSeen); eauto. unfold weight. simpl. f_equal. lia.
  - pose proof (WaitIfSuspended_leave_fields s) as F. rewrite Hw in F.
    destruct F as (F1 & F2 & F3).
    eapply pool_inv_goto with (p := SuspendBlocked); eauto. rewrite F3. unfold weight. simpl. f_equal. lia.
  - pose proof (WaitIfSuspended_leave_fields s) as F. rewrite Hw in F.
    destruct F as (F1 & F2 & F3).
    eapply pool_inv_goto with (p := SuspendBlocked); eauto. rewrite F3. unfold weight. simpl. f_equal. lia.
  - eapply pool_inv_goto with (p := Running); eauto. unfold weight. simpl.
    symmetry. rewrite Z.sub_0_r, Z.add_0_r. apply wrap_small.
    pose proof (pool_inv_bound _ _ Hinv). lia.
  - eapply pool_inv_goto with (p := Unwinding); eauto. unfold weight. simpl. f_equal. lia.
  - eapply pool_inv_goto with (p := Running); eauto. unfold weight. simpl.
    symmetry. rewrite Z.sub_0_r, Z.add_0_r. apply wrap_small.
    pose proof (pool_inv_bound _ _ Hinv). lia.
  - eapply pool_inv_same; [exact Hinv|reflexivity..].
  - eapply pool_inv_same; [exact Hinv|reflexivity..].
  - unfold SuspendExecution_leave in Hl. destruct (AllThreadsIdling s); [|discriminate].
    injection Hl as <-. exact Hinv.
  - eapply pool_inv_same; [exact Hinv|reflexivity..].
  - exact Hinv.
Qed.

Lemma pool_inv_reachable n s0 s : reachable n s0 s -> pool_inv n s.
Proof.
  induction 1 as [|s l s' _ IH Hstep].
  - apply pool_inv_start.
  - eapply pool_inv_step; eauto.
Qed.

Lemma push_all_queue (l : list T) s :
  m_Queue (push_all l s) = rev l ++ m_Queue s /\
  m_Suspended (push_all l s) = m_Suspended s /\
  m_Cancelled (push_all l s) = m_Cancelled s.
Proof.
  revert s. induction l as [|v l IH]; intros s; simpl; [auto|].
  destruct (IH (Push v s)) as (Hq & Hs & Hc).
  unfold push_all in *. rewrite Hq, Hs, Hc. simpl.
  rewrite <- app_assoc. auto.
Qed.

Lemma pop_n_prefix (vs q : list T) s :
  m_Queue s = vs ++ q -> m_Suspended s = false -> m_Cancelled s = false ->
  exists s', pop_n (length vs) s = Some (vs, s') /\ m_Queue s' = q /\
             m_Suspended s' = false /\ m_Cancelled s' = false.
Proof.
  revert s. induction vs as [|v vs IH]; intros s Hq Hs Hc; simpl.
  - exists s. auto.
  - unfold Pop, Pop_leave, Pop_pred, Pop_enter, queue_empty. simpl.
    rewrite Hq, Hs, Hc. simpl.
    match goal with |- context [pop_n _ ?st] => destruct (IH st) as (s' & Hp & R) end;
      [simpl; congruence..|].
    rewrite Hp. exists s'. auto.
Qed.

End Facts.

(** C2, as the specification words it (first pushed, first popped), fails:
    after Push(1), Push(2) the two following calls of Pop return 2 and then 1. *)
Lemma C2_fifo_counterexample :
  (fst <$> pop_n 2 (push_all [1; 2] (@fresh Z))) = Some [2; 1] /\
  (fst <$> pop_n 2 (push_all [1; 2] (@fresh Z))) <> Some [1; 2].
Proof. split; [reflexivity | discriminate]. Qed.

(** C2 (amended): the queue hands tasks out last in, first out.  After any
    sequence of Push calls with no Pop in between, on a queue that is neither
    suspended nor cancelled, the following calls of Pop return without
    blocking and yield the pushed tasks in the reverse of the order in which
    they were pushed, leaving what the queue held before. *)
Theorem C2_pop_returns_pushes_reversed {T : Type} (l : list T) (s : state T) :
  m_Suspended s = false -> m_Cancelled s = false ->
  exists s', pop_n (length l) (push_all l s) = Some (rev l, s') /\
             m_Queue s' = m_Queue s.
Proof.
  intros Hs Hc.
  destruct (push_all_queue l s) as (Hq & Hs' & Hc').
  destruct (pop_n_prefix (rev l) (m_Queue s) (push_all l s)) as (s' & Hp & Hq' & _);
    [exact Hq | congruence | congruence |].
  rewrite length_rev in Hp. exists s'. auto.
Qed.

Lemma C2_pop_returns_pushes_reversed_witness :
  exists s', pop_n 3 (push_all [10; 20; 30] (@fresh Z)) = Some ([30; 20; 10], s') /\
             m_Queue s' = [].
Proof.
  exact (C2_pop_returns_pushes_reversed [10; 20; 30] fresh eq_refl eq_refl).
Defined.

(** C3: the predicate Pop waits for is ((not suspended) and (queue not
    empty)) or cancelled; when Pop returns a task the queue was not suspended,
    not cancelled and the task was at its front; and once cancellation is
    requested Pop never returns a task but throws, whatever else holds. *)
Theorem C3_pop_task_or_cancelled {T : Type} (s : state T) :
  (Pop_pred s = true <->
     (m_Suspended s = false /\ m_Queue s <> []) \/ m_Cancelled s = true) /\
  (Pop_leave s = PopWaits <-> Pop_pred s = false) /\
  (forall i s', Pop_leave s = PopReturns i s' ->
     m_Suspended s = false /\ m_Cancelled s = false /\
     exists rest, m_Queue s = i :: rest /\ m_Queue s' = rest) /\
  (m_Cancelled s = true ->
     Pop_leave s = PopThrows (decr_WorkersWaiting s) /\
     Pop s = PopThrows (decr_WorkersWaiting (Pop_enter s))).
Proof.
  unfold Pop, Pop_leave, Pop_pred, Pop_enter, queue_empty. simpl.
  destruct (m_Suspended s), (m_Cancelled s) eqn:Ec, (m_Queue s) as [|i0 rest] eqn:Eq;
    simpl; rewrite ?Ec, ?Eq; simpl;
    (split; [split; [intros H; try discriminate; auto
                    | intros [[H1 H2]|H]; try discriminate; try congruence; auto]|]);
    (split; [split; intros H; try discriminate; auto|]);
    (split; [intros i s' H; try discriminate|intros H; try discriminate; auto]).
  all: try (injection H as <- <-; repeat split; eauto).
Qed.

(** C4: WaitForCompletionOrCancellation returns exactly in the states where
    (started and not suspended and all workers idle and queue empty) or
    cancelled holds, and the value it returns is true exactly when the queue
    is not cancelled. *)
Theorem C4_completion_or_cancel {T : Type} (s : state T) :
  let done_or_cancelled :=
    (m_Started s = true /\ m_Suspended s = false /\
     m_WorkersWaiting s = m_TotalWorkerThreads s /\ m_Queue s = []) \/
    m_Cancelled s = true in
  match WaitForCompletionOrCancellation s with
  | Some b => done_or_cancelled /\ (b = true <-> m_Cancelled s = false)
  | None => ~ done_or_cancelled
  end.
Proof.
  unfold WaitForCompletionOrCancellation, Completion_pred, AllThreadsIdling, queue_empty.
  simpl.
  destruct (m_Started s), (m_Suspended s), (m_Cancelled s),
    (Z.eqb_spec (m_TotalWorkerThreads s) (m_WorkersWaiting s)), (m_Queue s); simpl;
    try (split; [tauto || (left; repeat split; congruence) | split; congruence]);
    try (intros [(H1 & H2 & H3 & H4)|H]; congruence).
Qed.

(** C5: in every state of a lifecycle in which SuspendExecution returns, the
    waiting count equals the number of workers, all threads of the pool have
    been started and each of them is blocked in Pop, blocked in
    WaitIfSuspended or has ended in ThreadWrapper's handler, so none is
    running its callback.  SuspendExecution called again where it has just
    returned returns at once with the same state, and ResumeExecution twice is
    ResumeExecution once. *)
Theorem C5_suspend_quiescent {T : Type} (workerThreads : Z) (s0 s s' : state T) :
  reachable workerThreads s0 s ->
  step s LSuspendReturn s' ->
  (s' = s /\
   m_WorkersWaiting s = m_TotalWorkerThreads s /\
   Z.of_nat (length (m_Threads s)) = m_TotalWorkerThreads s /\
   Forall (fun p => p = PopBlocked \/ p = SuspendBlocked \/ p = Caught) (m_Threads s)) /\
  (forall t t1 : state T, SuspendExecution t = Some t1 -> SuspendExecution t1 = Some t1) /\
  (forall t : state T, ResumeExecution (ResumeExecution t) = ResumeExecution t).
Proof.
  intros Hreach Hstep.
  pose proof (pool_inv_reachable _ _ _ Hreach) as Hinv.
  pose proof (pool_inv_bound _ _ Hinv) as B.
  destruct Hinv as (Ht & Hc & Hl).
  split; [|split].
  - inversion Hstep as [| | | | | | | | | | | | | |? ? Hleave| |]; subst.
    unfold SuspendExecution_leave in Hleave.
    destruct (AllThreadsIdling s) eqn:Hidle; [|discriminate].
    injection Hleave as <-.
    unfold AllThreadsIdling in Hidle. apply Z.eqb_eq in Hidle.
    pose proof (counted_threads_bounds (m_Threads s)) as Bc.
    assert (Hlen : Z.of_nat (length (m_Threads s)) = m_TotalWorkerThreads s) by lia.
    split; [reflexivity|]. split; [lia|]. split; [exact Hlen|].
    assert (Hfull : counted_threads (m_Threads s) = Z.of_nat (length (m_Threads s))) by lia.
    apply counted_threads_full in Hfull.
    eapply Forall_impl; [exact Hfull|].
    intros p Hp. destruct p; simpl in Hp; try discriminate; auto.
  - intros t t1. unfold SuspendExecution, SuspendExecution_leave.
    destruct (AllThreadsIdling (SuspendExecution_enter t)) eqn:E; [|discriminate].
    intros [= <-]. unfold AllThreadsIdling, SuspendExecution_enter in *; simpl in *.
    rewrite E. reflexivity.
  - intros t. reflexivity.
Qed.

(** One worker, which calls Pop and blocks; the controller then suspends. *)
Definition C5_trace_state : state Z :=
  mkState [PopBlocked] [] 1 1 false true false.

Lemma C5_trace_reachable : reachable 1 fresh C5_trace_state.
Proof.
  eapply reach_step with (l := LSuspendSet);
    [eapply reach_step with (l := LPopEnter 0%nat);
      [eapply reach_step with (l := LSpawn); [apply reach_start|]|]|].
  - apply step_spawn. simpl. reflexivity.
  - apply (step_pop_enter (mkState [Running] [] 1 0 false false false) 0%nat).
    reflexivity.
  - apply (step_suspend_set (mkState [PopBlocked] [] 1 1 false false false)).
Qed.

Lemma C5_suspend_quiescent_witness :
  m_WorkersWaiting C5_trace_state = m_TotalWorkerThreads C5_trace_state /\
  Forall (fun p => p = PopBlocked \/ p = SuspendBlocked \/ p = Caught)
         (m_Threads C5_trace_state).
Proof.
  pose proof (C5_suspend_quiescent 1 fresh C5_trace_state C5_trace_state
                C5_trace_reachable
                (step_suspend_return C5_trace_state C5_trace_state eq_refl)) as H.
  destruct H as ((_ & Hw & _ & Hall) & _). split; assumption.
Defined.

(** C7: in every state of a lifecycle the waiting count lies between 0 and
    the number of workers; it is exactly the number of threads that are
    blocked in Pop, blocked in WaitIfSuspended or have ended in
    ThreadWrapper's handler, each counted once, and the pool never holds more
    threads than the number of workers. *)
Theorem C7_waiting_at_most_total {T : Type} (workerThreads : Z) (s0 s : state T) :
  reachable workerThreads s0 s ->
  0 <= m_WorkersWaiting s /\
  m_WorkersWaiting s <= m_TotalWorkerThreads s /\
  m_TotalWorkerThreads s = wrap 32 workerThreads /\
  m_WorkersWaiting s = counted_threads (m_Threads s) /\
  Z.of_nat (length (m_Threads s)) <= m_TotalWorkerThreads s.
Proof.
  intros Hreach.
  pose proof (pool_inv_reachable _ _ _ Hreach) as Hinv.
  pose proof (pool_inv_bound _ _ Hinv) as B.
  destruct Hinv as (Ht & Hc & Hl). repeat split; lia.
Qed.

Lemma C7_waiting_at_most_total_witness :
  m_WorkersWaiting C5_trace_state <= m_TotalWorkerThreads C5_trace_state.
Proof.
  pose proof (C7_waiting_at_most_total 1 fresh C5_trace_state C5_trace_reachable) as H.
  destruct H as (_ & H & _). exact H.
Defined.

End BlockingQueueFacts.

(** ** MainFrame.cpp: the progress display *)

Module MainFrame.

(** The three COptions settings CreateProgress reads. *)
Record COptions : Type := mkOptions {
  ExcludeVolumeMountPoints : bool;
  ExcludeJunctions : bool;
  ExcludeSymbolicLinks : bool
}.

(** TBPFLAG values of the taskbar button. *)
Definition TBPF_NOPROGRESS : Z := 0.
Definition TBPF_INDETERMINATE : Z := 1.
Definition TBPF_NORMAL : Z := 2.

(** The members of CMainFrame the progress functions touch.  A window is
    represented by whether its m_hWnd is non-null, the pacman control also by
    whether its animation has been started, m_TaskbarList by whether the
    pointer is non-null. *)
Record CMainFrame : Type := mkFrame {
  m_ProgressRange : Z;
  m_ProgressPos : Z;
  m_ProgressVisible : bool;
  m_Progress_hWnd : bool;
  m_Pacman_hWnd : bool;
  m_Pacman_started : bool;
  m_TaskbarList : bool;
  m_TaskbarButtonState : Z
}.

(** void CMainFrame::CreateStatusProgress(); [created] tells whether the
    window system delivers the window that Create asks for. *)
Definition CreateStatusProgress (created : bool) (f : CMainFrame) : CMainFrame :=
  let f1 :=
    if negb (m_Progress_hWnd f) then
      mkFrame (m_ProgressRange f) (m_ProgressPos f) (m_ProgressVisible f)
              created (m_Pacman_hWnd f) (m_Pacman_started f)
              (m_TaskbarList f) (m_TaskbarButtonState f)
    else f in
  if m_TaskbarList f1 then
    mkFrame (m_ProgressRange f1) (m_ProgressPos f1) (m_ProgressVisible f1)
            (m_Progress_hWnd f1) (m_Pacman_hWnd f1) (m_Pacman_started f1)
            (m_TaskbarList f1) TBPF_INDETERMINATE
  else f1.

(** void CMainFrame::CreatePacmanProgress() *)
Definition CreatePacmanProgress (created : bool) (f : CMainFrame) : CMainFrame :=
  if negb (m_Pacman_hWnd f) then
    mkFrame (m_ProgressRange f) (m_ProgressPos f) (m_ProgressVisible f)
            (m_Progress_hWnd f) created true
            (m_TaskbarList f) (m_TaskbarButtonState f)
  else f.

(** void CMainFrame::CreateProgress(ULONGLONG range) *)
Definition CreateProgress (o : COptions) (created : bool) (range : Z) (f : CMainFrame)
  : CMainFrame :=
  let range :=
    if negb (ExcludeVolumeMountPoints o) || negb (ExcludeJunctions o)
       || negb (ExcludeSymbolicLinks o)
    then 0 else range in
  let f1 := mkFrame range 0 true
                    (m_Progress_hWnd f) (m_Pacman_hWnd f) (m_Pacman_started f)
                    (m_TaskbarList f) (m_TaskbarButtonState f) in
  if 0 <? range then CreateStatusProgress created f1
  else CreatePacmanProgress created f1.

End MainFrame.

Module MainFrameFacts.
Import MainFrame.

(** C9: when one of the three exclusion options is off, CreateProgress stores
    range 0 and takes the pacman branch: the animation window exists
    afterwards if the window system creates it, and no percentage bar is
    created.  Whenever the call does create the percentage bar, the stored
    range is positive (and all three options are on); and with a stored range
    that is not positive the call is the pacman branch. *)
Theorem C9_progress_range_and_widget
    (o : COptions) (created : bool) (range : Z) (f : CMainFrame) :
  let f' := CreateProgress o created range f in
  let f0 := mkFrame 0 0 true (m_Progress_hWnd f) (m_Pacman_hWnd f)
                    (m_Pacman_started f) (m_TaskbarList f) (m_TaskbarButtonState f) in
  (ExcludeVolumeMountPoints o = false \/ ExcludeJunctions o = false \/
   ExcludeSymbolicLinks o = false ->
     m_ProgressRange f' = 0 /\
     f' = CreatePacmanProgress created f0 /\
     m_Pacman_hWnd f' = m_Pacman_hWnd f || created /\
     m_Progress_hWnd f' = m_Progress_hWnd f) /\
  (m_Progress_hWnd f = false -> m_Progress_hWnd f' = true ->
     0 < m_ProgressRange f' /\ m_ProgressRange f' = range /\
     ExcludeVolumeMountPoints o = true /\ ExcludeJunctions o = true /\
     ExcludeSymbolicLinks o = true) /\
  (m_ProgressRange f' <= 0 ->
     m_Progress_hWnd f' = m_Progress_hWnd f /\
     m_Pacman_hWnd f' = m_Pacman_hWnd f || created) /\
  (0 < m_ProgressRange f' ->
     f' = CreateStatusProgress created
            (mkFrame range 0 true (m_Progress_hWnd f) (m_Pacman_hWnd f)
                     (m_Pacman_started f) (m_TaskbarList f) (m_TaskbarButtonState f)) /\
     m_Pacman_hWnd f' = m_Pacman_hWnd f).
Proof.
  unfold CreateProgress, CreateStatusProgress, CreatePacmanProgress.
  destruct o as [a b c]; destruct f as [r p v hw pw ps tl ts]; simpl.
  destruct a, b, c, hw, pw, tl, created; simpl;
    destruct (Z.ltb_spec 0 range); simpl;
    repeat split; intros; simpl in *;
    try discriminate; try lia; try reflexivity;
    try (repeat match goal with H : _ \/ _ |- _ => destruct H end; discriminate).
Qed.

(** With junctions followed, a range of 100 is dropped and the pacman is
    created; with all three exclusions on, the same call creates the bar. *)
Lemma C9_progress_range_and_widget_witness :
  let f := mkFrame 7 3 false false false false true TBPF_NOPROGRESS in
  let f1 := CreateProgress (mkOptions true false true) true 100 f in
  let f2 := CreateProgress (mkOptions true true true) true 100 f in
  (m_ProgressRange f1 = 0 /\ m_Pacman_hWnd f1 = true /\ m_Progress_hWnd f1 = false)
  /\ (0 < m_ProgressRange f2 /\ m_ProgressRange f2 = 100).
Proof.
  intros f f1 f2.
  pose proof (C9_progress_range_and_widget (mkOptions true false true) true 100 f)
    as Hoff.
  pose proof (C9_progress_range_and_widget (mkOptions true true true) true 100 f)
    as Hon.
  cbv zeta in Hoff, Hon.
  destruct Hoff as (Hoff & _). destruct Hon as (_ & Hon & _).
  split.
  - destruct Hoff as (Hrange & _ & Hpac & Hbar); [right; left; reflexivity|].
    exact (conj Hrange (conj Hpac Hbar)).
  - destruct Hon as (Hpos & Hrange & _); [reflexivity | reflexivity |].
    exact (conj Hpos Hrange).
Defined.

End MainFrameFacts.

(** ** CsvLoader.cpp *)


Module Csv.

(** Text.  A std::wstring is the list of its UTF-16 code units, a std::string
    the list of its bytes; both are lists of integers. *)
Definition wstring : Type := list Z.
Definition bstring : Type := list Z.

Definition lit (s : string) : list Z :=
  map (fun a => Z.of_nat (Ascii.nat_of_ascii a)) (String.list_ascii_of_string s).

Definition chrNull : Z := 0.
Definition chrLF : Z := 10.
Definition chrCR : Z := 13.
Definition chrQuote : Z := 34.
Definition chrComma : Z := 44.
Definition chrBackslash : Z := 92.

(** The line end the writer emits. *)
Definition crlf : list Z := [chrCR; chrLF].

(** The enum of field indices at the top of the file. *)
Definition FIELD_NAME : nat := 0.
Definition FIELD_FILES : nat := 1.
Definition FIELDS_FOLDERS : nat := 2.
Definition FIELD_SIZE_LOGICAL : nat := 3.
Definition FIELD_SIZE_PHYSICAL : nat := 4.
Definition FIELD_ATTRIBUTES : nat := 5.
Definition FIELD_LASTCHANGE : nat := 6.
Definition FIELD_ATTRIBUTES_WDS : nat := 7.
Definition FIELD_OWNER : nat := 8.
Definition FIELD_COUNT : nat := 9.

(** The string resources the codec looks up. *)
Inductive res_id : Type :=
  | IDS_COL_NAME | IDS_COL_FILES | IDS_COL_FOLDERS | IDS_COL_SIZE_LOGICAL
  | IDS_COL_SIZE_PHYSICAL | IDS_COL_ATTRIBUTES | IDS_COL_LASTCHANGE
  | IDS_APP_TITLE | IDS_COL_OWNER.

(** struct FILETIME *)
Record FILETIME : Type := mkFileTime {
  dwLowDateTime : Z;
  dwHighDateTime : Z
}.

(** The attributes of an item that the codec reads and writes. *)
Record ItemData : Type := mkData {
  m_Type : Z;
  m_Name : wstring;
  m_LastChange : FILETIME;
  m_SizePhysical : Z;
  m_SizeLogical : Z;
  m_Attributes : Z;
  m_Files : Z;
  m_Folders : Z
}.

(** An item with the items it owns, in the order of its children vector. *)
Inductive CItem : Type :=
  | Item (d : ItemData) (children : list CItem).

Definition data (x : CItem) : ItemData := match x with Item d _ => d end.
Definition GetChildren (x : CItem) : list CItem := match x with Item _ c => c end.

(** What the file is compiled against and runs on: the headers that are not
    part of it (Item.h, Localization.h, the options), the two Win32 text
    conversions and the two std::chrono text functions. *)
Record Env : Type := mkEnv {
  (* Localization::Lookup *)
  Lookup : res_id -> wstring;
  (* enum ITEMTYPE of Item.h *)
  IT_MYCOMPUTER : Z;
  IT_DRIVE : Z;
  IT_DIRECTORY : Z;
  IT_FILE : Z;
  IT_FREESPACE : Z;
  IT_UNKNOWN : Z;
  ITF_ROOTITEM : Z;
  (* COptions::ShowColumnOwner *)
  ShowColumnOwner : bool;
  (* WideCharToMultiByte(CP_UTF8, ..., inc, -1, out, sz, ...): the bytes it
     produces, the terminating zero included; none when it fails *)
  WideCharToMultiByte : wstring -> bstring;
  (* MultiByteToWideChar(CP_UTF8, 0, linebuf, -1, ...): the code units it
     produces, the terminating zero included; none when it fails *)
  MultiByteToWideChar : bstring -> wstring;
  (* std::format("{:%FT%TZ}", tp) for the file_clock time point of the
     given tick count *)
  format_time_point : Z -> bstring;
  (* in >> std::chrono::parse(L"%Y-%m-%dT%H:%M:%S%Z", tp) on a fresh
     time point, then the count of tp.time_since_epoch() in 100 ns ticks *)
  parse_time_point : wstring -> Z;
  (* CItem::GetOwner(true) of the item with the given ancestors *)
  GetOwner : list CItem -> CItem -> wstring
}.

(** *** Numbers as text *)

Definition digit_char (upper : bool) (d : Z) : Z :=
  if d <? 10 then 48 + d else (if upper then 65 else 97) + (d - 10).

(** The digits of [n] in [base], most significant first, at least one. *)
Fixpoint to_chars_fuel (fuel : nat) (base : Z) (upper : bool) (n : Z) (acc : list Z)
  : list Z :=
  match fuel with
  | O => acc
  | S fuel' =>
      let acc' := digit_char upper (n mod base) :: acc in
      if n / base =? 0 then acc'
      else to_chars_fuel fuel' base upper (n / base) acc'
  end.

Definition to_chars (base : Z) (upper : bool) (n : Z) : list Z :=
  to_chars_fuel (S (Z.to_nat (Z.log2 n))) base upper n [].

(** std::format "{}" of an unsigned integer. *)
Definition format_dec (n : Z) : bstring := to_chars 10 false n.

(** std::format "{:0wX}" of an unsigned integer. *)
Definition format_HEX (width : nat) (n : Z) : bstring :=
  let ds := to_chars 16 true n in
  repeat 48 (width - length ds) ++ ds.

(** The value of a character as a digit of the base, if it is one. *)
Definition digit_value (base : Z) (c : Z) : option Z :=
  let v :=
    if (48 <=? c) && (c <=? 57) then c - 48
    else if (97 <=? c) && (c <=? 122) then c - 97 + 10
    else if (65 <=? c) && (c <=? 90) then c - 65 + 10
    else base in
  if v <? base then Some v else None.

Fixpoint parse_digits (base : Z) (acc : Z) (s : wstring) : Z :=
  match s with
  | [] => acc
  | c :: s' =>
      match digit_value base c with
      | Some v => parse_digits base (acc * base + v) s'
      | None => acc
      end
  end.

Definition iswspace (c : Z) : bool :=
  (c =? 32) || ((9 <=? c) && (c <=? 13)).

Fixpoint skip_spaces (s : wstring) : wstring :=
  match s with
  | c :: s' => if iswspace c then skip_spaces s' else s
  | [] => []
  end.

(** wcstoul / _wcstoui64 with a null end pointer, on a string that ends
    where the C string ends: blanks, a sign, for base 16 an optional 0x, the
    digits; the largest value on overflow. *)
Definition strtou (bits : Z) (s : wstring) (base : Z) : Z :=
  let s1 := skip_spaces s in
  let '(neg, s2) :=
    match s1 with
    | c :: s' => if c =? 45 then (true, s')
                 else if c =? 43 then (false, s') else (false, s1)
    | [] => (false, s1)
    end in
  let s3 :=
    match s2 with
    | z :: x :: h :: s' =>
        if (base =? 16) && (z =? 48) && ((x =? 120) || (x =? 88))
           && (match digit_value 16 h with Some _ => true | None => false end)
        then h :: s' else s2
    | _ => s2
    end in
  let v := parse_digits base 0 s3 in
  if 2 ^ bits - 1 <? v then 2 ^ bits - 1
  else if neg then wrap bits (- v) else v.

Definition wcstoul (s : wstring) (base : Z) : Z := strtou 32 s base.
Definition _wcstoui64 (s : wstring) (base : Z) : Z := strtou 64 s base.

(** *** The helpers of the file *)

(** static time_point ToTimePoint(const FILETIME& ft): the count of the
    duration, a signed 64-bit number. *)
Definition to_int64 (x : Z) : Z :=
  let y := wrap 64 x in if y <? 2 ^ 63 then y else y - 2 ^ 64.

Definition ToTimePoint (ft : FILETIME) : Z :=
  to_int64 (Z.lor (Z.shiftl (to_int64 (dwHighDateTime ft)) 32) (dwLowDateTime ft)).

Section WithEnv.

Context (env : Env).

(** static FILETIME FromTimeString(const std::wstring& s) *)
Definition FromTimeString (s : wstring) : FILETIME :=
  let tmp := parse_time_point env s in
  mkFileTime (wrap 32 tmp) (wrap 32 (Z.shiftr tmp 32)).

(** static std::string QuoteAndConvert(const std::wstring& inc): the buffer
    starts as one quote, is resized to sz + 1, receives the sz converted
    bytes from index 1 on, and gets a quote at index sz. *)
Definition QuoteAndConvert (inc : wstring) : bstring :=
  let conv := WideCharToMultiByte env inc in
  let sz := length conv in
  let out := [chrQuote] in
  let out := out ++ repeat 0 sz in
  let out := take 1 out ++ conv in
  <[sz := chrQuote]> out.

(** *** What the file uses of CItem *)

(** Modelled from the spec: Item.h is not among the sources.  The kind and
    the flag bits of an item share m_Type, and IsType tests a mask against
    it, as the loader itself does with [type & IT_DRIVE]. *)
Definition IsType (d : ItemData) (mask : Z) : bool :=
  negb (Z.land (m_Type d) mask =? 0).

Definition GetName (d : ItemData) : wstring := m_Name d.
Definition GetFilesCount (d : ItemData) : Z := m_Files d.
Definition GetFoldersCount (d : ItemData) : Z := m_Folders d.
Definition GetSizeLogical (d : ItemData) : Z := m_SizeLogical d.
Definition GetSizePhysical (d : ItemData) : Z := m_SizePhysical d.
Definition GetAttributes (d : ItemData) : Z := m_Attributes d.
Definition GetLastChange (d : ItemData) : FILETIME := m_LastChange d.
Definition GetRawType (d : ItemData) : Z := m_Type d.

(** Modelled from the spec: the number of items below an item is the number
    of its files plus the number of its folders. *)
Definition GetItemsCount (d : ItemData) : Z := m_Files d + m_Folders d.

(** Modelled from the spec: the leaves of the tree are the files and the two
    pseudo-files of a drive (free space, unknown). *)
Definition TmiIsLeaf (d : ItemData) : bool :=
  IsType d (Z.lor (IT_FILE env) (Z.lor (IT_FREESPACE env) (IT_UNKNOWN env))).

Definition strip_backslash (s : wstring) : wstring :=
  match last s with
  | Some c => if c =? chrBackslash then removelast s else s
  | None => s
  end.

(** Modelled from the spec: the full path of an item is recovered by walking
    to the root.  [anc] is the chain of parents, nearest first.  An item
    without parent is named by its path; so is an item directly below the
    My Computer item; below any other parent the name is appended to the
    parent's path, with one backslash between them. *)
Fixpoint GetPath (anc : list CItem) (d : ItemData) : wstring :=
  match anc with
  | [] => m_Name d
  | p :: anc' =>
      if IsType (data p) (IT_MYCOMPUTER env) then m_Name d
      else strip_backslash (GetPath anc' (data p)) ++ [chrBackslash] ++ m_Name d
  end.

(** *** SaveResults *)

Definition columns : list wstring :=
  [ Lookup env IDS_COL_NAME;
    Lookup env IDS_COL_FILES;
    Lookup env IDS_COL_FOLDERS;
    Lookup env IDS_COL_SIZE_LOGICAL;
    Lookup env IDS_COL_SIZE_PHYSICAL;
    Lookup env IDS_COL_ATTRIBUTES;
    Lookup env IDS_COL_LASTCHANGE;
    Lookup env IDS_APP_TITLE ++ lit " " ++ Lookup env IDS_COL_ATTRIBUTES ]
  ++ (if ShowColumnOwner env then [Lookup env IDS_COL_OWNER] else []).

(** The loop that writes the columns, a comma after each but the last. *)
Fixpoint header_cols (cols : list wstring) : bstring :=
  match cols with
  | [] => []
  | c :: rest =>
      QuoteAndConvert c ++
      (match rest with [] => [] | _ :: _ => lit "," end) ++ header_cols rest
  end.

Definition header_line : bstring := header_cols columns ++ crlf.

(** What one turn of the while loop writes for the item [d] with parents
    [anc]: the primary columns, the owner if shown, and the line end. *)
Definition format_row (anc : list CItem) (x : CItem) : bstring :=
  let d := data x in
  let nonPathItem :=
    IsType d (Z.lor (IT_MYCOMPUTER env) (Z.lor (IT_UNKNOWN env) (IT_FREESPACE env))) in
  QuoteAndConvert (if nonPathItem then GetName d else GetPath anc d)
  ++ lit "," ++ format_dec (GetFilesCount d)
  ++ lit "," ++ format_dec (GetFoldersCount d)
  ++ lit "," ++ format_dec (GetSizeLogical d)
  ++ lit "," ++ format_dec (GetSizePhysical d)
  ++ lit ",0x" ++ format_HEX 8 (GetAttributes d)
  ++ lit "," ++ format_time_point env (ToTimePoint (GetLastChange d))
  ++ lit ",0x" ++ format_HEX 4 (wrap 16 (GetRawType d))
  ++ (if ShowColumnOwner env
      then lit "," ++ QuoteAndConvert (GetOwner env anc x) else [])
  ++ crlf.

(** The while loop over the std::stack, its top at the head of the list.  An
    entry is an item together with its chain of parents (which the source
    reaches through the item's parent pointer).  [None]: the fuel ran out
    before the stack was empty. *)
Fixpoint SaveResults_loop (fuel : nat) (queue : list (list CItem * CItem)) (outf : bstring)
  : option bstring :=
  match fuel with
  | O => None
  | S fuel' =>
      match queue with
      | [] => Some outf
      | (anc, qitem) :: queue' =>
          let outf' := outf ++ format_row anc qitem in
          if IsType (data qitem) (IT_FILE env) then
            SaveResults_loop fuel' queue' outf'
          else
            SaveResults_loop fuel'
              (fold_left (fun q child => (qitem :: anc, child) :: q)
                         (GetChildren qitem) queue')
              outf'
      end
  end.

(** *** LoadResults *)

(** How the processing of the file goes on after a step. *)
Inductive outcome (A : Type) : Type :=
  | Continue (a : A)
  | ReturnNull         (* return nullptr *)
  | Undefined.         (* an access the language leaves undefined *)
Arguments Continue {A} a.
Arguments ReturnNull {A}.
Arguments Undefined {A}.

(** The stream opened in text mode hands a carriage return that is followed
    by a line feed over as the line feed alone. *)
Fixpoint text_mode (s : bstring) : bstring :=
  match s with
  | [] => []
  | c :: s' =>
      match s' with
      | d :: _ =>
          if (c =? chrCR) && (d =? chrLF) then text_mode s' else c :: text_mode s'
      | [] => [c]
      end
  end.

(** The lines successive calls of std::getline deliver. *)
Fixpoint getlines (s : bstring) : list bstring :=
  match s with
  | [] => []
  | c :: s' =>
      if c =? chrLF then [] :: getlines s'
      else match getlines s' with
           | [] => [[c]]
           | l :: ls => (c :: l) :: ls
           end
  end.

(** std::wstring::find(c, 0) on the rest of the line. *)
Fixpoint find_char (c : Z) (s : wstring) : option nat :=
  match s with
  | [] => None
  | x :: s' => if x =? c then Some O else option_map S (find_char c s')
  end.

(** The for loop that parses all fields.  [rest] is the line from [pos] on;
    each turn consumes the field, and one character more (the pos++ of the
    loop), two after a quoted field.  [None] is the return nullptr of a
    quoted field without closing quote. *)
Fixpoint parse_fields (fuel : nat) (rest : wstring) : option (list wstring) :=
  match fuel with
  | O => Some []
  | S fuel' =>
      match rest with
      | [] => Some []
      | c :: after =>
          if c =? chrQuote then
            match find_char chrQuote after with
            | None => None
            | Some e =>
                option_map (cons (take e after))
                           (parse_fields fuel' (drop (e + 2) after))
            end
          else
            let e := match find_char chrComma rest with
                     | Some k => k
                     | None => length rest
                     end in
            option_map (cons (take e rest)) (parse_fields fuel' (drop (e + 1) rest))
      end
  end.

(** The initializer list of resMap; of two entries with one key the first is
    the one the map keeps. *)
Definition resMap : list (wstring * nat) :=
  [ (Lookup env IDS_COL_NAME, FIELD_NAME);
    (Lookup env IDS_COL_FILES, FIELD_FILES);
    (Lookup env IDS_COL_FOLDERS, FIELDS_FOLDERS);
    (Lookup env IDS_COL_SIZE_LOGICAL, FIELD_SIZE_LOGICAL);
    (Lookup env IDS_COL_SIZE_PHYSICAL, FIELD_SIZE_PHYSICAL);
    (Lookup env IDS_COL_ATTRIBUTES, FIELD_ATTRIBUTES);
    (Lookup env IDS_COL_LASTCHANGE, FIELD_LASTCHANGE);
    (Lookup env IDS_APP_TITLE ++ lit " " ++ Lookup env IDS_COL_ATTRIBUTES,
     FIELD_ATTRIBUTES_WDS);
    (Lookup env IDS_COL_OWNER, FIELD_OWNER) ].

Fixpoint assoc_find (k : wstring) (m : list (wstring * nat)) : option nat :=
  match m with
  | [] => None
  | (k', v) :: m' => if decide (k' = k) then Some v else assoc_find k m'
  end.

(** static_cast<BYTE>(c) stored into a CHAR of the std::array. *)
Definition to_CHAR (c : nat) : Z :=
  let b := wrap 8 (Z.of_nat c) in if b <? 128 then b else b - 256.

Fixpoint ParseHeaderLine_loop (c : nat) (header : list wstring) (om : list Z) : list Z :=
  match header with
  | [] => om
  | h :: rest =>
      ParseHeaderLine_loop (S c) rest
        (match assoc_find h resMap with
         | Some f => <[f := to_CHAR c]> om
         | None => om
         end)
  end.

(** static void ParseHeaderLine(const std::vector<std::wstring>& header):
    the value of orderMap afterwards. *)
Definition ParseHeaderLine (header : list wstring) : list Z :=
  ParseHeaderLine_loop O header (repeat (-1) FIELD_COUNT).

(** The loop that validates that all necessary fields are present: does it
    return nullptr? *)
Fixpoint header_incomplete_from (i : nat) (om : list Z) : bool :=
  match om with
  | [] => false
  | v :: om' =>
      (negb (Nat.eqb i FIELD_OWNER) && (v =? -1)) || header_incomplete_from (S i) om'
  end.

Definition header_incomplete (om : list Z) : bool := header_incomplete_from O om.

(** fields[orderMap[f]]: the CHAR converts to a size_t index; outside of the
    vector the access is undefined. *)
Definition field_index (om : list Z) (f : nat) : option nat :=
  match om !! f with
  | Some idx => if idx <? 0 then None else Some (Z.to_nat idx)
  | None => None
  end.

Definition field_at (fields : list wstring) (om : list Z) (f : nat) : option wstring :=
  match field_index om f with
  | Some i => fields !! i
  | None => None
  end.

(** c_str() read as a C string: up to the first zero. *)
Fixpoint c_str (s : wstring) : wstring :=
  match s with
  | [] => []
  | c :: s' => if c =? chrNull then [] else c :: c_str s'
  end.

(** wcsrchr(s, c) for a c other than zero: the index of the last c before
    the first zero. *)
Fixpoint wcsrchr_from (i : nat) (s : wstring) (c : Z) (found : option nat) : option nat :=
  match s with
  | [] => found
  | x :: s' =>
      if x =? chrNull then found
      else wcsrchr_from (S i) s' c (if x =? c then Some i else found)
  end.

Definition wcsrchr (s : wstring) (c : Z) : option nat := wcsrchr_from O s c None.

(** The items under construction: the loader works with pointers to items
    it has allocated.  A pointer is the index of the item in the list of
    allocations; an item holds its attributes and the pointers to its
    children. *)
Definition Cell : Type := ItemData * list nat.

Record LoadState : Type := mkLoad {
  heap : list Cell;
  newroot : option nat;
  parentMap : gmap wstring nat;
  headerProcessed : bool;
  orderMap : list Z
}.

Definition LoadState_init : LoadState := mkLoad [] None ∅ false [].

(** Modelled from the spec: AddChild(child, true) appends the child to the
    children of the parent and touches no aggregate. *)
Definition AddChild (parent child : nat) (h : list Cell) : list Cell :=
  match h !! parent with
  | Some (d, cs) => <[parent := (d, cs ++ [child])]> h
  | None => h
  end.

Definition cell_SizePhysical (h : list Cell) (p : nat) : Z :=
  match h !! p with
  | Some (d, _) => m_SizePhysical d
  | None => 0
  end.

Fixpoint insert_by_size (h : list Cell) (p : nat) (l : list nat) : list nat :=
  match l with
  | [] => [p]
  | q :: l' =>
      if cell_SizePhysical h q <? cell_SizePhysical h p then p :: l
      else q :: insert_by_size h p l'
  end.

(** Modelled from the spec: SortItemsBySizePhysical reorders the children of
    an item by physical size, largest first. *)
Definition SortItemsBySizePhysical (h : list Cell) (p : nat) : list Cell :=
  match h !! p with
  | Some (d, cs) => <[p := (d, fold_right (insert_by_size h) [] cs)]> h
  | None => h
  end.

(** Modelled from the spec: the constructor of CItem keeps the attributes it
    is given. *)
Definition new_CItem (type : Z) (name : wstring) (lastChange : FILETIME)
    (sizePhysical sizeLogical attributes files folders : Z) : ItemData :=
  mkData type name lastChange sizePhysical sizeLogical attributes files folders.

(** The body of the while loop for a line that is not the header. *)
Definition LoadResults_row (st : LoadState) (fields : list wstring) : outcome LoadState :=
  let om := orderMap st in
  match field_at fields om FIELD_ATTRIBUTES_WDS, field_index om FIELD_NAME with
  | Some f_wds, Some i_name =>
    match fields !! i_name with
    | None => Undefined
    | Some f_name =>
      (* decode item type *)
      let type := wrap 16 (wcstoul (c_str f_wds) 16) in
      let isRoot := negb (Z.land type (ITF_ROOTITEM env) =? 0) in
      let isInRoot :=
        negb (Z.land type (IT_DRIVE env) =? 0)
        || negb (Z.land type (IT_UNKNOWN env) =? 0)
        || negb (Z.land type (IT_FREESPACE env) =? 0) in
      let useFullPath := isRoot || isInRoot in
      let mapPath := f_name in
      (* lookupPath and displayName point into the field; the backslash that
         separates them is overwritten with a zero *)
      let split := if useFullPath then None else wcsrchr f_name chrBackslash in
      let lookupPath :=
        match split with Some i => take i f_name | None => c_str f_name end in
      let displayName :=
        if useFullPath then Some (c_str f_name)
        else match split with
             | Some i => Some (c_str (drop (S i) f_name))
             | None => None
             end in
      let fields :=
        match split with
        | Some i => <[i_name := <[i := chrNull]> f_name]> fields
        | None => fields
        end in
      match displayName,
            field_at fields om FIELD_LASTCHANGE,
            field_at fields om FIELD_SIZE_PHYSICAL,
            field_at fields om FIELD_SIZE_LOGICAL,
            field_at fields om FIELD_ATTRIBUTES,
            field_at fields om FIELD_FILES,
            field_at fields om FIELDS_FOLDERS with
      | Some name, Some f_time, Some f_phys, Some f_log, Some f_attr,
        Some f_files, Some f_folders =>
          (* create the tree item *)
          let d := new_CItem type name (FromTimeString f_time)
                     (_wcstoui64 (c_str f_phys) 10)
                     (_wcstoui64 (c_str f_log) 10)
                     (wcstoul (c_str f_attr) 16)
                     (wcstoul (c_str f_files) 10)
                     (wcstoul (c_str f_folders) 10) in
          let newitem := length (heap st) in
          let h := heap st ++ [(d, [])] in
          let attached : outcome (list Cell * option nat) :=
            if isRoot then Continue (h, Some newitem)
            else if isInRoot then
              match newroot st with
              | Some r => Continue (AddChild r newitem h, newroot st)
              | None => Undefined
              end
            else
              match parentMap st !! lookupPath with
              | Some parent => Continue (AddChild parent newitem h, newroot st)
              | None => Continue (h, newroot st)      (* ASSERT(FALSE) *)
              end in
          match attached with
          | Continue (h', root') =>
              let pm :=
                if negb (TmiIsLeaf d) && (0 <? GetItemsCount d) then
                  let pm1 := <[mapPath := newitem]> (parentMap st) in
                  if IsType d (IT_DRIVE env)
                  then <[take 2 mapPath := newitem]> pm1 else pm1
                else parentMap st in
              Continue (mkLoad h' root' pm (headerProcessed st) om)
          | ReturnNull => ReturnNull
          | Undefined => Undefined
          end
      | _, _, _, _, _, _, _ => Undefined
      end
    end
  | _, _ => Undefined
  end.

(** The body of the while loop for one line std::getline delivered. *)
Definition LoadResults_line (st : LoadState) (linebuf : bstring) : outcome LoadState :=
  match linebuf with
  | [] => Continue st
  | _ :: _ =>
      (* convert to wide string *)
      let line := MultiByteToWideChar env linebuf in
      (* parse all fields *)
      match parse_fields (S (length line)) line with
      | None => ReturnNull
      | Some fields =>
          if negb (headerProcessed st) then
            let om := ParseHeaderLine fields in
            if header_incomplete om then ReturnNull
            else Continue (mkLoad (heap st) (newroot st) (parentMap st) true om)
          else LoadResults_row st fields
      end
  end.

Fixpoint LoadResults_lines (st : LoadState) (lines : list bstring) : outcome LoadState :=
  match lines with
  | [] => Continue st
  | l :: ls =>
      match LoadResults_line st l with
      | Continue st' => LoadResults_lines st' ls
      | ReturnNull => ReturnNull
      | Undefined => Undefined
      end
  end.

(** The loop that sorts all parent items. *)
Definition sort_parents (pm : gmap wstring nat) (h : list Cell) : list Cell :=
  fold_right (fun kv h => SortItemsBySizePhysical h kv.2) h (map_to_list pm).

(** The tree a pointer stands for. *)
Fixpoint item_at (fuel : nat) (h : list Cell) (p : nat) : CItem :=
  match fuel with
  | O => Item (mkData 0 [] (mkFileTime 0 0) 0 0 0 0 0) []
  | S fuel' =>
      match h !! p with
      | Some (d, cs) => Item d (map (item_at fuel' h) cs)
      | None => Item (mkData 0 [] (mkFileTime 0 0) 0 0 0 0 0) []
      end
  end.

Inductive load_result : Type :=
  | LoadReturns (root : option CItem)
  | LoadUndefined.

(** CItem* LoadResults(const std::wstring& path): [file] is the content of
    the file at [path], if it can be opened. *)
Definition LoadResults (file : option bstring) : load_result :=
  match file with
  | None => LoadReturns None
  | Some content =>
      match LoadResults_lines LoadState_init (getlines (text_mode content)) with
      | Continue st =>
          let h := sort_parents (parentMap st) (heap st) in
          LoadReturns (option_map (item_at (length h) h) (newroot st))
      | ReturnNull => LoadReturns None
      | Undefined => LoadUndefined
      end
  end.

(** The items in the order of a depth-first walk that visits an item before
    the items below it, takes the children of an item last to first, and
    does not enter an item of type file. *)
Fixpoint preorder (anc : list CItem) (x : CItem) {struct x} : list (list CItem * CItem) :=
  match x with
  | Item d cs =>
      (anc, x) ::
      (if IsType d (IT_FILE env) then []
       else fold_right (fun c acc => acc ++ preorder (x :: anc) c) [] cs)
  end.

End WithEnv.

Arguments Continue {A} a.
Arguments ReturnNull {A}.
Arguments Undefined {A}.

Fixpoint item_count (x : CItem) : nat :=
  match x with
  | Item _ cs => S (fold_right (fun c n => (item_count c + n)%nat) O cs)
  end.

(** What a call of SaveResults leaves behind: its return value and the file
    at [path], if the stream could be opened (a stream that failed to open
    ignores everything written to it). *)
Record save_result : Type := mkSaved {
  save_returns : bool;
  save_file : option bstring
}.

(** bool SaveResults(const std::wstring& path, CItem* item).  [can_open]
    tells whether outf.open(path) succeeds; [anc] are the parents of [item].
    The result is [None] if the loop does not come to an end. *)
Definition SaveResults (env : Env) (can_open : bool) (anc : list CItem) (item : CItem)
  : option save_result :=
  match SaveResults_loop env (S (item_count item)) [(anc, item)] (header_line env) with
  | Some outf => Some (mkSaved true (if can_open then Some outf else None))
  | None => None
  end.

(** A field as it stands in a line, with the character the parser skips
    after it: a plain field runs up to its comma, a quoted field from its
    opening to its closing quote and is followed by one more character. *)
Inductive csv_field : Type :=
  | Plain (s : wstring)
  | Quoted (s : wstring) (next : Z).

Definition field_text (f : csv_field) : wstring :=
  match f with
  | Plain s => s ++ [chrComma]
  | Quoted s next => chrQuote :: s ++ [chrQuote; next]
  end.

Definition field_value (f : csv_field) : wstring :=
  match f with Plain s => s | Quoted s _ => s end.

Definition field_wellformed (f : csv_field) : Prop :=
  match f with
  | Plain s => (chrComma ∉ s) /\ head s <> Some chrQuote
  | Quoted s _ => chrQuote ∉ s
  end.

(** The label of the column that resMap sends to field [f]. *)
Definition field_label (env : Env) (f : nat) : wstring :=
  nth f (map fst (resMap env)) [].

End Csv.

(** ** Properties of the CSV codec *)

Module CsvFacts.
Import Csv.

Lemma wrap_small_64 x : 0 <= x < 2 ^ 64 -> wrap 64 x = x.
Proof. intros H. unfold wrap. apply Z.mod_small. exact H. Qed.

Lemma wrap_bounds bits x : 0 <= bits -> 0 <= wrap bits x < 2 ^ bits.
Proof. intros H. unfold wrap. apply Z.mod_pos_bound. apply Z.pow_pos_nonneg; lia. Qed.

Lemma wrap_id bits x : 0 <= x < 2 ^ bits -> wrap bits x = x.
Proof. intros H. unfold wrap. apply Z.mod_small. exact H. Qed.

(** Induction on items with the hypothesis for all children. *)
Lemma CItem_forall_ind (P : CItem -> Prop) :
  (forall d cs, Forall P cs -> P (Item d cs)) -> forall x, P x.
Proof.
  intros H. fix IH 1. intros [d cs]. apply H.
  induction cs as [|c cs IHcs]; constructor; [apply IH | exact IHcs].
Qed.

Definition queue_count (q : list (list CItem * CItem)) : nat :=
  fold_right (fun e n => (item_count e.2 + n)%nat) O q.

Lemma queue_count_app q1 q2 :
  queue_count (q1 ++ q2) = (queue_count q1 + queue_count q2)%nat.
Proof. induction q1 as [|e q1 IH]; simpl; [reflexivity|]. rewrite IH. lia. Qed.

Section Writer.

Context (env : Env).

Definition row_of (e : list CItem * CItem) : bstring := format_row env e.1 e.2.

Lemma preorder_children anc x cs :
  fold_right (fun c acc => acc ++ preorder env (x :: anc) c) [] cs
  = flat_map (preorder env (x :: anc)) (rev cs).
Proof.
  induction cs as [|c cs IH]; simpl; [reflexivity|].
  rewrite IH, flat_map_app. simpl. rewrite app_nil_r. reflexivity.
Qed.

Lemma preorder_unfold anc x :
  preorder env anc x =
  (anc, x) :: (if IsType (data x) (IT_FILE env) then []
               else flat_map (preorder env (x :: anc)) (rev (GetChildren x))).
Proof. destruct x as [d cs]. simpl. rewrite preorder_children. reflexivity. Qed.

(** The children pushed one by one end up on the stack last child first. *)
Lemma push_children (anc : list CItem) cs (q : list (list CItem * CItem)) :
  fold_left (fun q child => (anc, child) :: q) cs q
  = rev (map (pair anc) cs) ++ q.
Proof.
  revert q. induction cs as [|c cs IH]; intros q; simpl; [reflexivity|].
  rewrite IH, <- app_assoc. reflexivity.
Qed.

Lemma queue_count_children (anc : list CItem) cs :
  queue_count (rev (map (pair anc) cs))
  = fold_right (fun c n => (item_count c + n)%nat) O cs.
Proof.
  induction cs as [|c cs IH]; simpl; [reflexivity|].
  rewrite queue_count_app, IH. simpl. lia.
Qed.

Lemma flat_map_preorder_children (anc : list CItem) cs :
  flat_map (fun e => preorder env e.1 e.2) (rev (map (pair anc) cs))
  = flat_map (preorder env anc) (rev cs).
Proof.
  rewrite <- map_rev. induction (rev cs) as [|c l IH]; simpl; [reflexivity|].
  rewrite IH. reflexivity.
Qed.

(** With more fuel than there are items on and below the stack the loop
    ends, having written the rows of the walk of each stack entry, top
    first. *)
Lemma SaveResults_loop_spec fuel q outf :
  (queue_count q < fuel)%nat ->
  SaveResults_loop env fuel q outf
  = Some (outf ++ concat (map row_of (flat_map (fun e => preorder env e.1 e.2) q))).
Proof.
  revert q outf. induction fuel as [|fuel IH]; intros q outf Hlt; [lia|].
  destruct q as [|[anc x] q]; simpl.
  - rewrite app_nil_r. reflexivity.
  - destruct x as [d cs]. simpl in Hlt. simpl preorder.
    destruct (IsType d (IT_FILE env)) eqn:Hfile; simpl.
    + rewrite Hfile. rewrite IH by lia. rewrite <- app_assoc. reflexivity.
    + rewrite Hfile. rewrite push_children. rewrite IH.
      * rewrite flat_map_app, flat_map_preorder_children, preorder_children.
        rewrite !map_app, !concat_app, <- !app_assoc. reflexivity.
      * rewrite queue_count_app, queue_count_children. lia.
Qed.

Lemma SaveResults_spec can_open anc item :
  SaveResults env can_open anc item
  = Some (mkSaved true
            (if can_open
             then Some (header_line env ++ concat (map row_of (preorder env anc item)))
             else None)).
Proof.
  unfold SaveResults. rewrite SaveResults_loop_spec by (simpl; lia).
  simpl. rewrite app_nil_r. reflexivity.
Qed.

End Writer.

(** *** Parsing a line *)

Lemma find_char_None c s : c ∉ s -> find_char c s = None.
Proof.
  induction s as [|x s IH]; intros H; simpl; [reflexivity|].
  apply not_elem_of_cons in H as [Hne Hs].
  destruct (Z.eqb_spec x c); [congruence|]. rewrite IH by assumption. reflexivity.
Qed.

Lemma find_char_here c a b : c ∉ a -> find_char c (a ++ c :: b) = Some (length a).
Proof.
  induction a as [|x a IH]; intros H; simpl.
  - rewrite Z.eqb_refl. reflexivity.
  - apply not_elem_of_cons in H as [Hne Ha].
    destruct (Z.eqb_spec x c); [congruence|]. rewrite IH by assumption. reflexivity.
Qed.

Lemma find_char_Some c s k : find_char c s = Some k -> (k < length s)%nat.
Proof.
  revert k. induction s as [|x s IH]; intros k; simpl; [discriminate|].
  destruct (x =? c); [intros [= <-]; lia|].
  destruct (find_char c s) as [j|]; simpl; [|discriminate].
  intros [= <-]. specialize (IH j eq_refl). lia.
Qed.

(** The fuel does not matter once it exceeds the length of the line. *)
Lemma parse_fields_fuel n : forall rest f1 f2,
  (length rest <= n)%nat -> (length rest < f1)%nat -> (length rest < f2)%nat ->
  parse_fields f1 rest = parse_fields f2 rest.
Proof.
  induction n as [|n IH]; intros rest f1 f2 Hn H1 H2.
  - destruct rest; [|simpl in Hn; lia]. destruct f1, f2; reflexivity.
  - destruct f1 as [|f1]; [lia|]. destruct f2 as [|f2]; [lia|].
    destruct rest as [|c after]; [reflexivity|]. simpl in *.
    destruct (c =? chrQuote).
    + destruct (find_char chrQuote after) as [e|]; [|reflexivity].
      f_equal. apply IH; rewrite length_drop; lia.
    + set (e := match (if c =? chrComma then Some 0%nat
                         else option_map S (find_char chrComma after)) with
                | Some k => k | None => S (length after) end).
      f_equal. apply IH; destruct (e + 1)%nat eqn:E; try lia;
        simpl; rewrite length_drop; lia.
Qed.

Definition parse_line (line : wstring) : option (list wstring) :=
  parse_fields (S (length line)) line.

Lemma parse_line_fuel fuel line :
  (length line < fuel)%nat -> parse_fields fuel line = parse_line line.
Proof.
  intros H. unfold parse_line. apply parse_fields_fuel with (n := length line); lia.
Qed.

Lemma parse_fields_quote_step f after :
  parse_fields (S f) (chrQuote :: after)
  = match find_char chrQuote after with
    | None => None
    | Some e => option_map (cons (take e after)) (parse_fields f (drop (e + 2) after))
    end.
Proof. reflexivity. Qed.

Lemma parse_fields_plain_step f c after :
  c <> chrQuote ->
  parse_fields (S f) (c :: after)
  = let e := match find_char chrComma (c :: after) with
             | Some k => k
             | None => length (c :: after)
             end in
    option_map (cons (take e (c :: after))) (parse_fields f (drop (e + 1) (c :: after))).
Proof.
  intros Hc. cbn [parse_fields]. apply Z.eqb_neq in Hc. rewrite Hc. reflexivity.
Qed.

Lemma parse_line_quoted s next rest :
  chrQuote ∉ s ->
  parse_line (field_text (Quoted s next) ++ rest)
  = option_map (cons s) (parse_line rest).
Proof.
  intros Hs. unfold parse_line at 1.
  change (field_text (Quoted s next) ++ rest)
    with (chrQuote :: (s ++ [chrQuote; next]) ++ rest).
  rewrite parse_fields_quote_step.
  rewrite <- app_assoc. cbn [app]. rewrite find_char_here by assumption.
  rewrite take_app_length.
  replace (s ++ chrQuote :: next :: rest) with ((s ++ [chrQuote; next]) ++ rest) by
    (rewrite <- app_assoc; reflexivity).
  replace (length s + 2)%nat with (length (s ++ [chrQuote; next])) by
    (rewrite length_app; simpl; lia).
  rewrite drop_app_length. f_equal.
  apply parse_line_fuel. cbn [length field_text app]. rewrite ?length_app. cbn [length]. lia.
Qed.

Lemma parse_line_plain s rest :
  chrComma ∉ s -> head s <> Some chrQuote ->
  parse_line (field_text (Plain s) ++ rest)
  = option_map (cons s) (parse_line rest).
Proof.
  intros Hs Hq. unfold parse_line at 1.
  assert (Hfind : find_char chrComma ((s ++ [chrComma]) ++ rest) = Some (length s)).
  { rewrite <- app_assoc. cbn [app]. apply find_char_here. assumption. }
  cbn [field_text].
  assert (Hlen : length ((s ++ [chrComma]) ++ rest) = (length s + 1 + length rest)%nat).
  { rewrite !length_app. simpl. lia. }
  destruct ((s ++ [chrComma]) ++ rest) as [|c after] eqn:E.
  { destruct s; discriminate. }
  assert (Hc : c <> chrQuote).
  { destruct s as [|x s]; simpl in E; injection E as <- _.
    - discriminate.
    - intros ->. apply Hq. reflexivity. }
  rewrite (parse_fields_plain_step _ _ _ Hc). rewrite Hfind. cbv zeta.
  rewrite <- E, <- app_assoc. rewrite take_app_length.
  replace (length s + 1)%nat with (length (s ++ [chrComma])) by
    (rewrite length_app; simpl; lia).
  rewrite app_assoc, drop_app_length. f_equal.
  apply parse_line_fuel. rewrite !length_app. cbn [length]. lia.
Qed.

Lemma parse_line_fields fs rest :
  Forall field_wellformed fs ->
  parse_line (concat (map field_text fs) ++ rest)
  = option_map (app (map field_value fs)) (parse_line rest).
Proof.
  induction 1 as [|f fs Hf _ IH]; simpl.
  - destruct (parse_line rest); reflexivity.
  - rewrite <- app_assoc. destruct f as [s|s next]; simpl in Hf.
    + destruct Hf as [Hc Hq]. rewrite (parse_line_plain s) by assumption.
      rewrite IH. destruct (parse_line rest); reflexivity.
    + change (chrQuote :: s ++ [chrQuote; next]) with (field_text (Quoted s next)).
      rewrite parse_line_quoted by assumption.
      rewrite IH. destruct (parse_line rest); reflexivity.
Qed.

Lemma parse_line_unclosed rest : chrQuote ∉ rest -> parse_line (chrQuote :: rest) = None.
Proof.
  intros H. unfold parse_line. simpl. rewrite find_char_None by assumption. reflexivity.
Qed.


(** *** Numbers as text *)

(** The characters of numbers: decimal digits and upper-case hexadecimal
    digits. *)
Definition digit_like (c : Z) : Prop := 48 <= c <= 57 \/ 65 <= c <= 70.

Lemma digit_char_like (upper := true) d base :
  0 <= d < base -> base = 10 \/ base = 16 ->
  forall up, (base = 16 -> up = true) -> digit_like (digit_char up d).
Proof.
  intros Hd Hb up Hup. unfold digit_like, digit_char.
  destruct (Z.ltb_spec d 10); [lia|].
  destruct Hb as [->| ->]; [lia|]. rewrite Hup by reflexivity. lia.
Qed.

Lemma digit_value_char base up d :
  0 <= d < base -> base <= 36 ->
  digit_value base (digit_char up d) = Some d.
Proof.
  intros Hd Hb. unfold digit_value, digit_char.
  destruct (Z.ltb_spec d 10) as [H10|H10].
  - replace ((48 <=? 48 + d) && (48 + d <=? 57)) with true by
      (symmetry; apply andb_true_iff; split; apply Z.leb_le; lia).
    replace (48 + d - 48) with d by lia.
    destruct (Z.ltb_spec d base); [reflexivity|lia].
  - destruct up.
    + replace ((48 <=? 65 + (d - 10)) && (65 + (d - 10) <=? 57)) with false by
        (symmetry; apply andb_false_iff; right; apply Z.leb_gt; lia).
      replace ((97 <=? 65 + (d - 10)) && (65 + (d - 10) <=? 122)) with false by
        (symmetry; apply andb_false_iff; left; apply Z.leb_gt; lia).
      replace ((65 <=? 65 + (d - 10)) && (65 + (d - 10) <=? 90)) with true by
        (symmetry; apply andb_true_iff; split; apply Z.leb_le; lia).
      replace (65 + (d - 10) - 65 + 10) with d by lia.
      destruct (Z.ltb_spec d base); [reflexivity|lia].
    + replace ((48 <=? 97 + (d - 10)) && (97 + (d - 10) <=? 57)) with false by
        (symmetry; apply andb_false_iff; right; apply Z.leb_gt; lia).
      replace ((97 <=? 97 + (d - 10)) && (97 + (d - 10) <=? 122)) with true by
        (symmetry; apply andb_true_iff; split; apply Z.leb_le; lia).
      replace (97 + (d - 10) - 97 + 10) with d by lia.
      destruct (Z.ltb_spec d base); [reflexivity|lia].
Qed.

(** Reading back what [to_chars_fuel] wrote in front of [acc]. *)
Lemma parse_to_chars_fuel base up : 2 <= base <= 36 ->
  forall fuel n acc,
  0 <= n < base ^ Z.of_nat fuel ->
  parse_digits base 0 (to_chars_fuel fuel base up n acc) = parse_digits base n acc.
Proof.
  intros Hb. induction fuel as [|fuel IH]; intros n acc Hn.
  - simpl in Hn. assert (n = 0) by lia. subst. reflexivity.
  - cbn [to_chars_fuel].
    assert (Hmod : 0 <= n mod base < base) by (apply Z.mod_pos_bound; lia).
    assert (Hdiv : n = base * (n / base) + n mod base) by (apply Z.div_mod; lia).
    destruct (Z.eqb_spec (n / base) 0) as [E|E].
    + cbn [parse_digits]. rewrite digit_value_char by lia.
      f_equal. lia.
    + rewrite IH.
      * cbn [parse_digits]. rewrite digit_value_char by lia. f_equal. lia.
      * split; [apply Z.div_pos; lia|].
        apply Z.div_lt_upper_bound; [lia|].
        rewrite Nat2Z.inj_succ, Z.pow_succ_r in Hn by lia. lia.
Qed.

Lemma to_chars_fuel_like base up : base = 10 \/ base = 16 -> (base = 16 -> up = true) ->
  forall fuel n acc, 0 <= n -> Forall digit_like acc ->
  Forall digit_like (to_chars_fuel fuel base up n acc).
Proof.
  intros Hb Hup. induction fuel as [|fuel IH]; intros n acc Hn Hacc; [exact Hacc|].
  cbn [to_chars_fuel].
  assert (Hmod : 0 <= n mod base < base) by (apply Z.mod_pos_bound; lia).
  assert (Hd : digit_like (digit_char up (n mod base))).
  { apply (digit_char_like _ base); auto. }
  destruct (n / base =? 0); [constructor; assumption|].
  apply IH; [apply Z.div_pos; lia | constructor; assumption].
Qed.

Lemma to_chars_fuel_nonempty fuel base up n acc :
  to_chars_fuel (S fuel) base up n acc <> [].
Proof.
  revert n acc. induction fuel as [|fuel IH]; intros n acc.
  - cbn. destruct (n / base =? 0); discriminate.
  - cbn [to_chars_fuel]. destruct (n / base =? 0); [discriminate|]. apply IH.
Qed.

Lemma to_chars_fuel_enough base n :
  2 <= base -> 0 <= n -> n < base ^ Z.of_nat (S (Z.to_nat (Z.log2 n))).
Proof.
  intros Hb Hn.
  destruct (Z.eq_dec n 0) as [->|Hne].
  { apply Z.pow_pos_nonneg; lia. }
  assert (Hlog : 0 <= Z.log2 n) by apply Z.log2_nonneg.
  rewrite Nat2Z.inj_succ, Z2Nat.id by lia.
  pose proof (Z.log2_spec n ltac:(lia)) as [_ Hlt].
  eapply Z.lt_le_trans; [exact Hlt|].
  apply Z.pow_le_mono_l. lia.
Qed.

Lemma to_chars_like base up n :
  base = 10 \/ base = 16 -> (base = 16 -> up = true) -> 0 <= n ->
  Forall digit_like (to_chars base up n) /\ to_chars base up n <> [].
Proof.
  intros Hb Hup Hn. unfold to_chars. split.
  - apply to_chars_fuel_like; auto.
  - apply to_chars_fuel_nonempty.
Qed.

Lemma parse_to_chars base up n :
  2 <= base <= 36 -> 0 <= n ->
  parse_digits base 0 (to_chars base up n) = n.
Proof.
  intros Hb Hn. unfold to_chars.
  rewrite parse_to_chars_fuel; [reflexivity | exact Hb |].
  split; [exact Hn | apply to_chars_fuel_enough; lia].
Qed.

Lemma parse_digits_zeros base k s :
  2 <= base <= 36 -> parse_digits base 0 (repeat 48 k ++ s) = parse_digits base 0 s.
Proof.
  intros Hb. induction k as [|k IH]; [reflexivity|].
  cbn [repeat app parse_digits].
  change 48 with (digit_char true 0) at 1.
  rewrite digit_value_char by lia. exact IH.
Qed.

Lemma digit_like_not_space c : digit_like c -> iswspace c = false.
Proof.
  unfold digit_like, iswspace. intros H.
  destruct (Z.eqb_spec c 32); [lia|].
  destruct (Z.leb_spec 9 c), (Z.leb_spec c 13); simpl; try reflexivity; lia.
Qed.

(** A number written in decimal is read back by strtou in base 10. *)
Lemma strtou_format_dec bits n :
  0 <= n < 2 ^ bits -> strtou bits (format_dec n) 10 = n.
Proof.
  intros Hn. unfold strtou, format_dec.
  destruct (to_chars_like 10 false n) as [Hlike Hne]; [auto | discriminate | lia |].
  pose proof (parse_to_chars 10 false n ltac:(lia) ltac:(lia)) as Hparse.
  destruct (to_chars 10 false n) as [|c s] eqn:E; [congruence|].
  pose proof (Forall_inv Hlike) as Hc.
  cbn [skip_spaces]. rewrite (digit_like_not_space c Hc).
  assert (H45 : (c =? 45) = false) by (apply Z.eqb_neq; unfold digit_like in Hc; lia).
  assert (H43 : (c =? 43) = false) by (apply Z.eqb_neq; unfold digit_like in Hc; lia).
  rewrite H45, H43.
  match goal with
  | |- context [parse_digits 10 0 ?m] =>
      replace m with (c :: s) by (destruct s as [|? [|? ?]]; reflexivity)
  end.
  rewrite Hparse.
  destruct (Z.ltb_spec (2 ^ bits - 1) n); [lia | reflexivity].
Qed.

(** A number written as 0x and zero-padded upper-case hexadecimal digits is
    read back by strtou in base 16. *)
Lemma strtou_format_HEX bits width n :
  0 <= n < 2 ^ bits ->
  strtou bits (lit "0x" ++ format_HEX width n) 16 = n.
Proof.
  intros Hn. unfold strtou, format_HEX.
  destruct (to_chars_like 16 true n) as [Hlike Hne]; [auto | reflexivity | lia |].
  pose proof (parse_to_chars 16 true n ltac:(lia) ltac:(lia)) as Hparse.
  set (ds := to_chars 16 true n) in *.
  set (k := (width - length ds)%nat).
  change (lit "0x") with [48; 120]. cbn [app skip_spaces].
  change (iswspace 48) with false. cbv iota.
  change (48 =? 45) with false. change (48 =? 43) with false. cbv iota.
  assert (Hhead : exists h tl, repeat 48 k ++ ds = h :: tl /\ digit_like h).
  { destruct k as [|k'].
    - destruct ds as [|h tl]; [congruence|]. exists h, tl. split; [reflexivity|].
      exact (Forall_inv Hlike).
    - exists 48, (repeat 48 k' ++ ds). split; [reflexivity|]. unfold digit_like. lia. }
  destruct Hhead as (h & tl & Ehd & Hh). rewrite Ehd.
  assert (Hdv : exists v, digit_value 16 h = Some v).
  { unfold digit_like in Hh. unfold digit_value.
    destruct ((48 <=? h) && (h <=? 57)) eqn:E1.
    - apply andb_true_iff in E1 as [A B]. apply Z.leb_le in A, B.
      destruct (Z.ltb_spec (h - 48) 16); [eauto|lia].
    - assert (Hr : 65 <= h <= 70).
      { destruct Hh as [Hh|Hh]; [|exact Hh].
        apply andb_false_iff in E1 as [A|A]; apply Z.leb_gt in A; lia. }
      replace ((97 <=? h) && (h <=? 122)) with false by
        (symmetry; apply andb_false_iff; left; apply Z.leb_gt; lia).
      replace ((65 <=? h) && (h <=? 90)) with true by
        (symmetry; apply andb_true_iff; split; apply Z.leb_le; lia).
      destruct (Z.ltb_spec (h - 65 + 10) 16); [eauto|lia]. }
  destruct Hdv as [v Hv]. rewrite Hv.
  change ((16 =? 16) && (48 =? 48) && ((120 =? 120) || (120 =? 88)) && true) with true.
  cbv iota. rewrite <- Ehd, parse_digits_zeros by lia. rewrite Hparse.
  destruct (Z.ltb_spec (2 ^ bits - 1) n); [lia | reflexivity].
Qed.

(** *** Strings, lines and time stamps *)

Lemma c_str_id s : chrNull ∉ s -> c_str s = s.
Proof.
  induction s as [|c s IH]; intros H; [reflexivity|].
  apply not_elem_of_cons in H as [Hc Hs]. cbn [c_str].
  destruct (Z.eqb_spec c chrNull); [congruence|]. rewrite IH by assumption. reflexivity.
Qed.

Lemma c_str_terminated s t : chrNull ∉ s -> c_str (s ++ chrNull :: t) = s.
Proof.
  induction s as [|c s IH]; intros H; [reflexivity|].
  apply not_elem_of_cons in H as [Hc Hs]. cbn [c_str app].
  destruct (Z.eqb_spec c chrNull); [congruence|]. rewrite IH by assumption. reflexivity.
Qed.

Lemma wcsrchr_from_none i s c found :
  chrNull ∉ s -> c ∉ s -> wcsrchr_from i s c found = found.
Proof.
  revert i found. induction s as [|x s IH]; intros i found Hn Hc; [reflexivity|].
  apply not_elem_of_cons in Hn as [Hx Hn]. apply not_elem_of_cons in Hc as [Hxc Hc].
  cbn [wcsrchr_from]. destruct (Z.eqb_spec x chrNull); [congruence|].
  destruct (Z.eqb_spec x c); [congruence|]. apply IH; assumption.
Qed.

Lemma wcsrchr_from_last i a b c found :
  c <> chrNull -> chrNull ∉ a -> chrNull ∉ b -> c ∉ b ->
  wcsrchr_from i (a ++ c :: b) c found = Some (i + length a)%nat.
Proof.
  intros Hc0. revert i found.
  induction a as [|x a IH]; intros i found Ha Hb Hcb.
  - cbn [app wcsrchr_from length]. destruct (Z.eqb_spec c chrNull); [congruence|].
    rewrite Z.eqb_refl. rewrite wcsrchr_from_none by assumption. f_equal. lia.
  - apply not_elem_of_cons in Ha as [Hx Ha].
    cbn [app wcsrchr_from length]. destruct (Z.eqb_spec x chrNull); [congruence|].
    rewrite IH by assumption. f_equal. lia.
Qed.

Lemma wcsrchr_last a b :
  chrNull ∉ a -> chrNull ∉ b -> chrBackslash ∉ b ->
  wcsrchr (a ++ chrBackslash :: b) chrBackslash = Some (length a).
Proof.
  intros. unfold wcsrchr. rewrite wcsrchr_from_last by (assumption || discriminate).
  reflexivity.
Qed.

Lemma text_mode_line row rest :
  chrLF ∉ row ->
  text_mode (row ++ chrCR :: chrLF :: rest) = row ++ chrLF :: text_mode rest.
Proof.
  induction row as [|c row IH]; intros H.
  - cbn [app]. change (text_mode (chrCR :: chrLF :: rest)) with (text_mode (chrLF :: rest)).
    destruct rest; reflexivity.
  - apply not_elem_of_cons in H as [Hc Hrow].
    cbn [app]. rewrite <- IH by assumption.
    destruct row as [|d row]; cbn [app text_mode].
    + change (chrCR =? chrLF) with false. rewrite andb_false_r. reflexivity.
    + apply not_elem_of_cons in Hrow as [Hd _].
      replace (d =? chrLF) with false by (symmetry; apply Z.eqb_neq; congruence).
      rewrite andb_false_r. reflexivity.
Qed.

Lemma getlines_line row rest :
  chrLF ∉ row -> getlines (row ++ chrLF :: rest) = row :: getlines rest.
Proof.
  induction row as [|c row IH]; intros H.
  - reflexivity.
  - apply not_elem_of_cons in H as [Hc Hrow]. cbn [app getlines].
    destruct (Z.eqb_spec c chrLF); [congruence|]. rewrite IH by assumption. reflexivity.
Qed.

(** The lines of a text made of lines that each end in CR LF. *)
Lemma getlines_crlf rows :
  Forall (fun row => chrLF ∉ row) rows ->
  getlines (text_mode (concat (map (fun row => row ++ crlf) rows))) = rows.
Proof.
  induction 1 as [|row rows Hrow _ IH]; [reflexivity|].
  cbn [map concat]. unfold crlf at 1. rewrite <- app_assoc. cbn [app].
  rewrite text_mode_line, getlines_line by assumption. rewrite IH. reflexivity.
Qed.

Lemma to_int64_small x : 0 <= x < 2 ^ 63 -> to_int64 x = x.
Proof.
  intros H. unfold to_int64. rewrite wrap_small_64; [|lia].
  destruct (Z.ltb_spec x (2 ^ 63)); lia.
Qed.

(** FromTimeString takes apart what ToTimePoint put together. *)
Lemma FILETIME_roundtrip lo hi :
  0 <= lo < 2 ^ 32 -> 0 <= hi < 2 ^ 32 ->
  let t := ToTimePoint (mkFileTime lo hi) in
  wrap 32 t = lo /\ wrap 32 (Z.shiftr t 32) = hi.
Proof.
  intros Hlo Hhi. unfold ToTimePoint. cbn [dwLowDateTime dwHighDateTime].
  assert (E32 : 2 ^ 32 = 4294967296) by reflexivity.
  assert (E63 : 2 ^ 63 = 9223372036854775808) by reflexivity.
  assert (E64 : 2 ^ 64 = 18446744073709551616) by reflexivity.
  rewrite (to_int64_small hi) by lia.
  assert (Hor : Z.lor (Z.shiftl hi 32) lo = hi * 2 ^ 32 + lo).
  { rewrite Z.shiftl_mul_pow2 by lia.
    assert (Hland : Z.land (hi * 2 ^ 32) lo = 0).
    { apply Z.bits_inj'. intros n Hn. rewrite Z.land_spec, Z.bits_0.
      destruct (Z.lt_ge_cases n 32).
      + rewrite Z.mul_pow2_bits_low by lia. reflexivity.
      + rewrite (Z.bits_above_log2 lo n); [apply andb_false_r | lia |].
        destruct (Z.eq_dec lo 0) as [->|]; [simpl; lia|].
        apply Z.log2_lt_pow2; [lia|].
        eapply Z.lt_le_trans; [apply Hlo | apply Z.pow_le_mono_r; lia]. }
    rewrite <- (Z.lxor_lor _ _ Hland), <- (Z.add_nocarry_lxor _ _ Hland).
    reflexivity. }
  rewrite Hor. set (X := hi * 2 ^ 32 + lo).
  assert (HX : 0 <= X < 2 ^ 64) by (unfold X; rewrite E64; rewrite E32 in Hhi, Hlo |- *; lia).
  unfold to_int64. rewrite (wrap_small_64 X) by lia.
  unfold wrap. rewrite Z.shiftr_div_pow2 by lia.
  destruct (Z.ltb_spec X (2 ^ 63)).
  - split.
    + unfold X. rewrite Z.add_comm, Z.mod_add by lia. apply Z.mod_small; lia.
    + unfold X. rewrite Z.div_add_l by lia. rewrite (Z.div_small lo) by lia.
      rewrite Z.add_0_r. apply Z.mod_small; lia.
  - split.
    + replace (X - 2 ^ 64) with (lo + (hi - 2 ^ 32) * 2 ^ 32) by
        (unfold X; rewrite E64, E32; lia).
      rewrite Z.mod_add by lia. apply Z.mod_small; lia.
    + replace (X - 2 ^ 64) with ((hi - 2 ^ 32) * 2 ^ 32 + lo) by
        (unfold X; rewrite E64, E32; lia).
      rewrite Z.div_add_l by lia. rewrite (Z.div_small lo) by lia.
      rewrite Z.add_0_r.
      replace (hi - 2 ^ 32) with (hi + (-1) * 2 ^ 32) by lia.
      rewrite Z.mod_add by lia. apply Z.mod_small; lia.
Qed.

Lemma IsType_lor d a b :
  IsType d (Z.lor a b) = IsType d a || IsType d b.
Proof.
  unfold IsType. rewrite Z.land_lor_distr_r.
  destruct (Z.eqb_spec (Z.land (m_Type d) a) 0) as [Ea|Ea],
           (Z.eqb_spec (Z.land (m_Type d) b) 0) as [Eb|Eb]; cbn [negb orb].
  - rewrite Ea, Eb. reflexivity.
  - rewrite Ea, Z.lor_0_l. apply Z.eqb_neq in Eb. rewrite Eb. reflexivity.
  - rewrite Eb, Z.lor_0_r. apply Z.eqb_neq in Ea. rewrite Ea. reflexivity.
  - destruct (Z.eqb_spec (Z.lor (Z.land (m_Type d) a) (Z.land (m_Type d) b)) 0) as [E|E];
      [|reflexivity].
    apply Z.lor_eq_0_iff in E as [E _]. congruence.
Qed.

(** *** The header and the lines of a file *)

Section Reader.

Context (env : Env).

Lemma assoc_find_resMap h f :
  assoc_find h (resMap env) = Some f ->
  field_label env f = h /\ (f < FIELD_COUNT)%nat.
Proof.
  unfold resMap, field_label. cbn [assoc_find map fst].
  repeat (match goal with
          | |- context [decide ?P] => destruct (decide P) as [<-|?]
          end; [intros [= <-]; split; [reflexivity | cbv; lia]|]).
  discriminate.
Qed.

Lemma ParseHeaderLine_loop_keeps header : forall c om f,
  field_label env f ∉ header ->
  ParseHeaderLine_loop env c header om !! f = om !! f.
Proof.
  induction header as [|h header IH]; intros c om f Hnot;
    cbn [ParseHeaderLine_loop]; [reflexivity|].
  apply not_elem_of_cons in Hnot as [Hne Hnot].
  rewrite IH by assumption.
  destruct (assoc_find h (resMap env)) as [f'|] eqn:E; [|reflexivity].
  apply assoc_find_resMap in E as [E _].
  apply list_lookup_insert_ne. intros ->. congruence.
Qed.

Lemma header_incomplete_from_missing om : forall i k,
  om !! k = Some (-1) -> (i + k)%nat <> FIELD_OWNER ->
  header_incomplete_from i om = true.
Proof.
  induction om as [|v om IH]; intros i k Hk Hne; [discriminate|].
  destruct k as [|k]; simpl in *.
  - injection Hk as ->. rewrite Nat.add_0_r in Hne.
    apply Nat.eqb_neq in Hne. rewrite Hne. reflexivity.
  - rewrite (IH (S i) k Hk) by lia. apply orb_true_r.
Qed.

Lemma header_missing_column fields f :
  (f < FIELD_COUNT)%nat -> f <> FIELD_OWNER ->
  field_label env f ∉ fields ->
  header_incomplete (ParseHeaderLine env fields) = true.
Proof.
  intros Hlt Hne Hnot. unfold header_incomplete, ParseHeaderLine.
  apply header_incomplete_from_missing with (k := f); [|simpl; exact Hne].
  rewrite ParseHeaderLine_loop_keeps by assumption.
  unfold FIELD_COUNT in *.
  do 9 (destruct f as [|f]; [reflexivity|]). lia.
Qed.

Lemma LoadResults_lines_app st l1 l2 :
  LoadResults_lines env st (l1 ++ l2)
  = match LoadResults_lines env st l1 with
    | Continue st' => LoadResults_lines env st' l2
    | ReturnNull => ReturnNull
    | Undefined => Undefined
    end.
Proof.
  revert st. induction l1 as [|l l1 IH]; intros st; simpl; [reflexivity|].
  destruct (LoadResults_line env st l); auto.
Qed.

Lemma LoadResults_lines_empty st pre :
  Forall (fun l => l = []) pre -> LoadResults_lines env st pre = Continue st.
Proof. induction 1 as [|l pre -> _ IH]; simpl; [reflexivity | exact IH]. Qed.

Lemma LoadResults_line_unparsed st l :
  l <> [] -> parse_line (MultiByteToWideChar env l) = None ->
  LoadResults_line env st l = ReturnNull.
Proof.
  intros Hl Hp. destruct l; [congruence|]. unfold LoadResults_line.
  unfold parse_line in Hp. rewrite Hp. reflexivity.
Qed.

Lemma LoadResults_line_header st l fields :
  l <> [] -> headerProcessed st = false ->
  parse_line (MultiByteToWideChar env l) = Some fields ->
  LoadResults_line env st l =
  if header_incomplete (ParseHeaderLine env fields) then ReturnNull
  else Continue (mkLoad (heap st) (newroot st) (parentMap st) true
                        (ParseHeaderLine env fields)).
Proof.
  intros Hl Hh Hp. destruct l; [congruence|]. unfold LoadResults_line.
  unfold parse_line in Hp. rewrite Hp, Hh. reflexivity.
Qed.

End Reader.

(** C6: LoadResults returns nullptr, and so hands no tree (and no change of
    any tree) to its caller,
      - when the first non-empty line of the file, split into fields, lacks
        the label of one of the columns other than the owner column, and
      - when a line is reached that, after any number of complete fields,
        has a field opened by a quote with no further quote in the line. *)
Theorem C6_malformed_file_returns_null
    (env : Env) (content : bstring) (pre : list bstring) (l : bstring)
    (post : list bstring) :
  getlines (text_mode content) = pre ++ l :: post ->
  l <> [] ->
  (Forall (fun l' => l' = []) pre /\
   exists fields f,
     parse_line (MultiByteToWideChar env l) = Some fields /\
     (f < FIELD_COUNT)%nat /\ f <> FIELD_OWNER /\
     field_label env f ∉ fields)
  \/
  (LoadResults_lines env LoadState_init pre <> Undefined /\
   exists done rest,
     Forall field_wellformed done /\
     MultiByteToWideChar env l = concat (map field_text done) ++ chrQuote :: rest /\
     chrQuote ∉ rest) ->
  LoadResults env (Some content) = LoadReturns None.
Proof.
  intros Hlines Hl Hcase. unfold LoadResults. rewrite Hlines.
  rewrite LoadResults_lines_app. cbn [LoadResults_lines].
  destruct Hcase as [[Hpre (fields & f & Hp & Hlt & Hne & Hnot)]
                    | [Hpre (done & rest & Hdone & Hline & Hrest)]].
  - rewrite LoadResults_lines_empty by assumption.
    rewrite (LoadResults_line_header env (LoadState_init) l fields Hl eq_refl Hp).
    rewrite (header_missing_column env fields f Hlt Hne Hnot). reflexivity.
  - destruct (LoadResults_lines env LoadState_init pre) as [st| |];
      [|reflexivity|congruence].
    rewrite LoadResults_line_unparsed; [reflexivity|exact Hl|].
    rewrite Hline, parse_line_fields by assumption.
    rewrite parse_line_unclosed by assumption. reflexivity.
Qed.

Lemma QuoteAndConvert_head (env : Env) (w : wstring) :
  exists t, QuoteAndConvert env w = chrQuote :: t.
Proof.
  unfold QuoteAndConvert.
  destruct (WideCharToMultiByte env w) as [|c conv]; [exists []; reflexivity|].
  cbn [length app take repeat]. eexists. reflexivity.
Qed.

Lemma lookup_flat_map_Some {A B : Type} (f : A -> list B) (l : list A) n e :
  flat_map f l !! n = Some e ->
  exists l1 c l2 k,
    l = l1 ++ c :: l2 /\ f c !! k = Some e /\ n = (length (flat_map f l1) + k)%nat.
Proof.
  revert n. induction l as [|c l IH]; intros n H; [discriminate|].
  cbn [flat_map] in H. apply lookup_app_Some in H as [H|[Hlen H]].
  - exists [], c, l, n. auto.
  - destruct (IH _ H) as (l1 & c' & l2 & k & -> & Hk & Hn).
    exists (c :: l1), c', l2, k. split; [reflexivity|]. split; [exact Hk|].
    cbn [flat_map]. rewrite length_app. lia.
Qed.

Lemma lookup_flat_map_block {A B : Type} (f : A -> list B) l1 c l2 k e :
  f c !! k = Some e ->
  flat_map f (l1 ++ c :: l2) !! (length (flat_map f l1) + k)%nat = Some e.
Proof.
  intros H. rewrite flat_map_app. cbn [flat_map].
  rewrite lookup_app_r by lia.
  replace (length (flat_map f l1) + k - length (flat_map f l1))%nat with k by lia.
  apply lookup_app_l_Some. exact H.
Qed.

Lemma elem_of_flat_map {A B : Type} (f : A -> list B) (l : list A) (e : B) :
  e ∈ flat_map f l <-> exists c, c ∈ l /\ e ∈ f c.
Proof.
  rewrite list_elem_of_In, in_flat_map. split; intros (c & H1 & H2); exists c.
  - rewrite !list_elem_of_In. auto.
  - rewrite <- !list_elem_of_In. auto.
Qed.

Lemma elem_of_rev_children (c : CItem) (cs : list CItem) : c ∈ rev cs <-> c ∈ cs.
Proof. rewrite !list_elem_of_In. symmetry. apply in_rev. Qed.

(** In the walk every entry but the first comes after the entry of its
    parent, which is not of type file. *)
Lemma preorder_parent_first (env : Env) (x : CItem) : forall anc j e,
  preorder env anc x !! j = Some e -> (0 < j)%nat ->
  exists i a p, (i < j)%nat /\ preorder env anc x !! i = Some (a, p) /\
                e.1 = p :: a /\ e.2 ∈ GetChildren p /\
                IsType (data p) (IT_FILE env) = false.
Proof.
  induction x as [d cs IH] using CItem_forall_ind. intros anc j e Hj Hpos.
  rewrite preorder_unfold in Hj |- *. cbn [data GetChildren] in *.
  destruct j as [|j]; [lia|]. cbn [lookup list_lookup] in Hj.
  change ((?h :: ?t) !! S j) with (t !! j) in Hj.
  destruct (IsType d (IT_FILE env)) eqn:Hfile; [discriminate|].
  apply lookup_flat_map_Some in Hj as (l1 & c & l2 & k & Hrev & Hk & ->).
  assert (Hc : c ∈ cs).
  { apply elem_of_rev_children. rewrite Hrev. apply elem_of_app. right. left. }
  destruct k as [|k].
  - rewrite preorder_unfold in Hk. injection Hk as <-.
    exists 0%nat, anc, (Item d cs). cbn [fst snd data GetChildren].
    repeat split; auto; lia.
  - destruct (proj1 (Forall_forall _ _) IH c Hc (Item d cs :: anc) (S k) e Hk)
      as (i & a & p & Hi & Hlook & He1 & He2 & Hp); [lia|].
    exists (S (length (flat_map (preorder env (Item d cs :: anc)) l1) + i)), a, p.
    split; [lia|]. split; [|auto].
    change ((?h :: ?t) !! S ?n) with (t !! n).
    rewrite Hrev. apply lookup_flat_map_block. exact Hlook.
Qed.

(** The walk holds every child of an entry that is not of type file. *)
Lemma preorder_children_walked (env : Env) (x : CItem) : forall anc a y c,
  (a, y) ∈ preorder env anc x -> IsType (data y) (IT_FILE env) = false ->
  c ∈ GetChildren y -> (y :: a, c) ∈ preorder env anc x.
Proof.
  induction x as [d cs IH] using CItem_forall_ind. intros anc a y c Hin Hfile Hc.
  rewrite preorder_unfold in Hin |- *. cbn [data GetChildren] in *.
  apply elem_of_cons in Hin as [Hin|Hin].
  - injection Hin as -> ->. cbn [data GetChildren] in *. rewrite Hfile.
    apply elem_of_cons. right. apply elem_of_flat_map. exists c.
    split; [apply elem_of_rev_children; exact Hc|].
    rewrite preorder_unfold. left.
  - destruct (IsType d (IT_FILE env)); [inversion Hin|].
    apply elem_of_cons. right.
    apply elem_of_flat_map in Hin as (c' & Hc' & Hin).
    apply elem_of_flat_map. exists c'. split; [exact Hc'|].
    assert (Hcs : c' ∈ cs) by (apply elem_of_rev_children; exact Hc').
    exact (proj1 (Forall_forall _ _) IH c' Hcs _ _ _ _ Hin Hfile Hc).
Qed.

(** C8: SaveResults comes to an end and writes, after the header line, one
    row for each item of the walk from the given item, in the order of the
    walk.  The row of an item is a line of its own: the quoted name (the
    name of My Computer, free space and unknown, the path of any other
    item), the counts of files and folders, the logical and the physical
    size, the attributes as eight hexadecimal digits, the time of the last
    change, the type as four hexadecimal digits, the quoted owner if
    shown, and CR LF; it starts with a quote and is never empty.  The walk
    is depth-first and pre-order: it starts with the given item; every other
    entry is a child of an entry that stands before it and is not of type
    file, so the row of a parent precedes the rows of everything below it
    and nothing below an item of type file is written; every child of a
    written item that is not of type file is written; and the walk of an
    item is the item followed by the walks of its children, one after the
    other (the stack hands them out last child first). *)
Theorem C8_rows_in_preorder (env : Env) (can_open : bool) (anc : list CItem) (item : CItem) :
  let rows := preorder env anc item in
  let row := fun e : list CItem * CItem =>
    let d := data e.2 in
    QuoteAndConvert env
      (if IsType d (Z.lor (IT_MYCOMPUTER env) (Z.lor (IT_UNKNOWN env) (IT_FREESPACE env)))
       then GetName d else GetPath env e.1 d)
    ++ lit "," ++ format_dec (GetFilesCount d)
    ++ lit "," ++ format_dec (GetFoldersCount d)
    ++ lit "," ++ format_dec (GetSizeLogical d)
    ++ lit "," ++ format_dec (GetSizePhysical d)
    ++ lit ",0x" ++ format_HEX 8 (GetAttributes d)
    ++ lit "," ++ format_time_point env (ToTimePoint (GetLastChange d))
    ++ lit ",0x" ++ format_HEX 4 (wrap 16 (GetRawType d))
    ++ (if ShowColumnOwner env
        then lit "," ++ QuoteAndConvert env (GetOwner env e.1 e.2) else [])
    ++ crlf in
  SaveResults env can_open anc item
  = Some (mkSaved true
            (if can_open
             then Some (header_line env ++ concat (map row rows))
             else None)) /\
  (forall e, exists body, row e = chrQuote :: body ++ crlf) /\
  rows !! 0%nat = Some (anc, item) /\
  (forall j e, rows !! j = Some e -> (0 < j)%nat ->
     exists i a p, (i < j)%nat /\ rows !! i = Some (a, p) /\
                   e.1 = p :: a /\ e.2 ∈ GetChildren p /\
                   IsType (data p) (IT_FILE env) = false) /\
  (forall a x c, (a, x) ∈ rows -> IsType (data x) (IT_FILE env) = false ->
                 c ∈ GetChildren x -> (x :: a, c) ∈ rows) /\
  (forall anc x,
     preorder env anc x =
     (anc, x) :: (if IsType (data x) (IT_FILE env) then []
                  else flat_map (preorder env (x :: anc)) (rev (GetChildren x)))).
Proof.
  intros rows row. subst rows.
  split; [apply SaveResults_spec|].
  split.
  { intros e. unfold row. cbv zeta.
    destruct (QuoteAndConvert_head env
                (if IsType (data e.2)
                      (Z.lor (IT_MYCOMPUTER env) (Z.lor (IT_UNKNOWN env) (IT_FREESPACE env)))
                 then GetName (data e.2) else GetPath env e.1 (data e.2))) as (t & ->).
    eexists. cbn [app]. f_equal. rewrite !app_assoc. reflexivity. }
  split; [rewrite preorder_unfold; reflexivity|].
  split; [apply preorder_parent_first|].
  split; [apply preorder_children_walked | apply preorder_unfold].
Qed.

(** C10: for every item, whether or not the file can be opened, SaveResults
    comes to an end and returns true; when the file cannot be opened nothing
    is written and true is returned all the same. *)
Theorem C10_save_returns_true (env : Env) (can_open : bool) (anc : list CItem) (item : CItem) :
  exists r, SaveResults env can_open anc item = Some r /\
            save_returns r = true /\
            (can_open = false -> save_file r = None).
Proof.
  rewrite SaveResults_spec. eexists. split; [reflexivity|]. simpl.
  split; [reflexivity|]. intros ->. reflexivity.
Qed.

End CsvFacts.

(** ** Saving and loading again *)

Module CsvRoundTrip.
Import Csv CsvFacts.

(** Characters that may stand in an unquoted field: ASCII other than the
    line feed, the comma and the quote. *)
Definition field_char (c : Z) : Prop :=
  0 < c < 128 /\ c <> chrLF /\ c <> chrComma /\ c <> chrQuote.

(** Items of one content whose children may be ordered differently. *)
Inductive tree_equiv : CItem -> CItem -> Prop :=
  | tree_equiv_item d cs1 cs2 cs2' :
      Permutation cs2' cs2 ->
      Forall2 tree_equiv cs1 cs2' ->
      tree_equiv (Item d cs1) (Item d cs2).

Section RoundTrip.

Context (env : Env).

(** Which strings survive the two text conversions, and which time points
    the two std::chrono functions. *)
Context (text_ok : wstring -> Prop) (time_ok : Z -> Prop).

(** What representable means for the environment: text that is [text_ok]
    holds neither a quote nor a zero; WideCharToMultiByte writes it as bytes
    without a line feed, followed by the terminating zero, and
    MultiByteToWideChar reads these bytes back wherever they stand;
    MultiByteToWideChar hands ASCII through and ends its output with
    the terminating zero; a time point that is [time_ok] is written in
    field characters and parsed back to itself; the nine column labels are
    [text_ok] and differ from each other; the owner, where shown, is
    [text_ok]. *)
Record env_ok : Prop := {
  ok_text : forall w, text_ok w -> (chrQuote ∉ w) /\ (chrNull ∉ w);
  ok_encode : forall w, text_ok w ->
    exists body, WideCharToMultiByte env w = body ++ [chrNull] /\
                 (chrLF ∉ body) /\
                 forall rest, MultiByteToWideChar env (body ++ rest)
                              = w ++ MultiByteToWideChar env rest;
  ok_ascii : forall c rest, 0 < c < 128 ->
    MultiByteToWideChar env (c :: rest) = c :: MultiByteToWideChar env rest;
  ok_end : MultiByteToWideChar env [] = [chrNull];
  ok_time : forall t, time_ok t ->
    Forall field_char (format_time_point env t) /\
    format_time_point env t <> [] /\
    parse_time_point env (format_time_point env t) = t;
  ok_labels : NoDup (map fst (resMap env)) /\ Forall text_ok (map fst (resMap env));
  ok_owner : ShowColumnOwner env = true -> forall anc x, text_ok (GetOwner env anc x)
}.

Definition isRoot (d : ItemData) : bool := IsType d (ITF_ROOTITEM env).

Definition isInRoot (d : ItemData) : bool :=
  IsType d (IT_DRIVE env) || IsType d (IT_UNKNOWN env) || IsType d (IT_FREESPACE env).

Definition nonPathItem (d : ItemData) : bool :=
  IsType d (Z.lor (IT_MYCOMPUTER env) (Z.lor (IT_UNKNOWN env) (IT_FREESPACE env))).

(** What SaveResults writes into the name column. *)
Definition written_name (anc : list CItem) (d : ItemData) : wstring :=
  if nonPathItem d then GetName d else GetPath env anc d.

(** The attributes of an item are representable: the type fits the sixteen
    bits the writer keeps of it, the other numbers fit the types the loader
    reads them into, the name column and the time are representable. *)
Record data_ok (anc : list CItem) (d : ItemData) : Prop := {
  ok_type : 0 <= m_Type d < 2 ^ 16;
  ok_name : text_ok (written_name anc d);
  ok_files : 0 <= m_Files d < 2 ^ 32;
  ok_folders : 0 <= m_Folders d < 2 ^ 32;
  ok_logical : 0 <= m_SizeLogical d < 2 ^ 64;
  ok_physical : 0 <= m_SizePhysical d < 2 ^ 64;
  ok_attributes : 0 <= m_Attributes d < 2 ^ 32;
  ok_low : 0 <= dwLowDateTime (m_LastChange d) < 2 ^ 32;
  ok_high : 0 <= dwHighDateTime (m_LastChange d) < 2 ^ 32;
  ok_change : time_ok (ToTimePoint (m_LastChange d))
}.

(** The key under which the children of an item look their parent up. *)
Definition child_key (anc : list CItem) (d : ItemData) : wstring :=
  strip_backslash (GetPath env anc d).

(** An item registers itself under a key its children will use. *)
Definition key_ok (anc : list CItem) (d : ItemData) : Prop :=
  child_key anc d = GetPath env anc d \/
  (IsType d (IT_DRIVE env) = true /\ child_key anc d = take 2 (GetPath env anc d)).

(** Where an item may stand.  The saved item carries the root flag; no item
    below it does.  An item with the drive, unknown or free space bit stands
    directly below the saved item, is written under its own name (for a
    drive this means that the saved item is My Computer), and is of a leaf
    type unless the saved item is My Computer.  Any other item is written by
    its path (it is no My Computer item), its name holds no backslash, and
    its parent is not My Computer, is not of a leaf type, counts at least
    one item below it and is registered under the key of its children. *)
Definition placed (anc : list CItem) (d : ItemData) : Prop :=
  match anc with
  | [] => isRoot d = true
  | p :: anc' =>
      isRoot d = false /\
      ((isInRoot d = true /\ anc' = [] /\ written_name anc d = m_Name d /\
        (TmiIsLeaf env d = true \/ IsType (data p) (IT_MYCOMPUTER env) = true))
       \/
       (isInRoot d = false /\ nonPathItem d = false /\
        IsType (data p) (IT_MYCOMPUTER env) = false /\
        (chrBackslash ∉ m_Name d) /\
        TmiIsLeaf env (data p) = false /\ 0 < GetItemsCount (data p) /\
        key_ok anc' (data p)))
  end.

(** The trees the round trip holds for. *)
Inductive saved_ok : list CItem -> CItem -> Prop :=
  | saved_ok_item anc d cs :
      data_ok anc d ->
      placed anc d ->
      (IsType d (IT_FILE env) = true -> cs = []) ->
      Forall (saved_ok (Item d cs :: anc)) cs ->
      saved_ok anc (Item d cs).

(** *** Lines as written and as read *)

Definition encode (w : wstring) : bstring := removelast (WideCharToMultiByte env w).

Hypothesis Henv : env_ok.

Lemma encode_spec w :
  text_ok w ->
  QuoteAndConvert env w = chrQuote :: encode w ++ [chrQuote] /\
  (chrLF ∉ encode w) /\
  forall rest, MultiByteToWideChar env (encode w ++ rest)
               = w ++ MultiByteToWideChar env rest.
Proof.
  intros Hw. destruct (ok_encode Henv w Hw) as (body & Hconv & Hlf & Hdec).
  unfold encode, QuoteAndConvert. rewrite Hconv, removelast_last.
  repeat split; [|assumption..].
  rewrite length_app. cbn [length app take].
  replace (length body + 1)%nat with (S (length body)) by lia.
  cbn [repeat take app]. 
  change (<[S (length body) := chrQuote]> (chrQuote :: body ++ [chrNull]))
    with (chrQuote :: <[length body := chrQuote]> (body ++ [chrNull])).
  f_equal. rewrite insert_app_r_alt by lia. rewrite Nat.sub_diag. reflexivity.
Qed.

Lemma decode_ascii s rest :
  Forall (fun c => 0 < c < 128) s ->
  MultiByteToWideChar env (s ++ rest) = s ++ MultiByteToWideChar env rest.
Proof.
  induction 1 as [|c s Hc _ IH]; [reflexivity|].
  cbn [app]. rewrite (ok_ascii Henv) by assumption. rewrite IH. reflexivity.
Qed.

Lemma decode_quoted w rest :
  text_ok w ->
  MultiByteToWideChar env (QuoteAndConvert env w ++ rest)
  = chrQuote :: w ++ chrQuote :: MultiByteToWideChar env rest.
Proof.
  intros Hw. destruct (encode_spec w Hw) as (-> & _ & Hdec).
  cbn [app]. rewrite (ok_ascii Henv) by (unfold chrQuote; lia).
  rewrite <- app_assoc, Hdec. cbn [app].
  rewrite (ok_ascii Henv) by (unfold chrQuote; lia). reflexivity.
Qed.

(** The columns of a row after the name: six fields that end in a comma,
    and the item type. *)
Definition plain_fields (d : ItemData) : list wstring :=
  [ format_dec (GetFilesCount d);
    format_dec (GetFoldersCount d);
    format_dec (GetSizeLogical d);
    format_dec (GetSizePhysical d);
    lit "0x" ++ format_HEX 8 (GetAttributes d);
    format_time_point env (ToTimePoint (GetLastChange d)) ].

Definition wds_field (d : ItemData) : wstring :=
  lit "0x" ++ format_HEX 4 (wrap 16 (GetRawType d)).

Definition plain_text (f : wstring) : wstring := f ++ [chrComma].

(** The row of an item without its line end. *)
Definition row_body (anc : list CItem) (x : CItem) : bstring :=
  QuoteAndConvert env (written_name anc (data x))
  ++ lit "," ++ concat (map plain_text (plain_fields (data x)))
  ++ wds_field (data x)
  ++ (if ShowColumnOwner env
      then lit "," ++ QuoteAndConvert env (GetOwner env anc x) else []).

Lemma format_row_body anc x : format_row env anc x = row_body anc x ++ crlf.
Proof.
  unfold format_row, row_body, written_name, nonPathItem, plain_fields, wds_field,
    plain_text.
  cbn [map concat]. rewrite <- !app_assoc.
  destruct (ShowColumnOwner env); rewrite <- ?app_assoc; reflexivity.
Qed.

(** The fields the loader finds in the row of an item. *)
Definition row_fields (anc : list CItem) (x : CItem) : list wstring :=
  written_name anc (data x) :: plain_fields (data x)
  ++ (if ShowColumnOwner env
      then [wds_field (data x); GetOwner env anc x]
      else [wds_field (data x) ++ [chrNull]]).

Lemma digit_like_field_char c : digit_like c -> field_char c.
Proof.
  unfold digit_like, field_char, chrLF, chrComma, chrQuote. intros H. lia.
Qed.

Lemma format_dec_chars n : 0 <= n -> Forall field_char (format_dec n) /\ format_dec n <> [].
Proof.
  intros Hn. destruct (to_chars_like 10 false n) as [H1 H2]; [auto|discriminate|lia|].
  split; [|exact H2]. eapply Forall_impl; [exact H1|]. apply digit_like_field_char.
Qed.

Lemma format_HEX_chars width n :
  0 <= n -> Forall field_char (lit "0x" ++ format_HEX width n).
Proof.
  intros Hn. destruct (to_chars_like 16 true n) as [H1 H2]; [auto|reflexivity|lia|].
  change (lit "0x") with [48; 120].
  repeat (constructor; [unfold field_char, chrLF, chrComma, chrQuote; lia|]).
  unfold format_HEX. apply Forall_app. split.
  - induction (width - length (to_chars 16 true n))%nat as [|k IH]; [constructor|].
    constructor; [unfold field_char, chrLF, chrComma, chrQuote; lia | exact IH].
  - eapply Forall_impl; [exact H1|]. apply digit_like_field_char.
Qed.

Lemma field_char_plain f :
  Forall field_char f -> field_wellformed (Plain f).
Proof.
  intros H. split.
  - intros Hin. rewrite Forall_forall in H. apply H in Hin.
    unfold field_char in Hin. tauto.
  - destruct f as [|c f]; [discriminate|]. intros [= ->].
    pose proof (Forall_inv H) as Hc. unfold field_char in Hc. tauto.
Qed.

Lemma field_char_ascii f : Forall field_char f -> Forall (fun c => 0 < c < 128) f.
Proof.
  intros H. eapply Forall_impl; [exact H|]. unfold field_char. intros c Hc. tauto.
Qed.

Lemma field_char_no_LF f : Forall field_char f -> chrLF ∉ f.
Proof.
  intros H Hin. rewrite Forall_forall in H. apply H in Hin.
  unfold field_char in Hin. tauto.
Qed.

Lemma field_char_no_null f : Forall field_char f -> chrNull ∉ f.
Proof.
  intros H Hin. rewrite Forall_forall in H. apply H in Hin.
  unfold field_char, chrNull in Hin. lia.
Qed.

Lemma plain_fields_chars anc d :
  data_ok anc d -> Forall (Forall field_char) (plain_fields d).
Proof.
  intros Hd. unfold plain_fields.
  do 4 (apply Forall_cons; split; [apply format_dec_chars; apply Hd|]).
  apply Forall_cons; split; [apply format_HEX_chars; apply Hd|].
  apply Forall_cons; split; [apply (ok_time Henv); apply Hd|].
  apply Forall_nil. trivial.
Qed.

Lemma wds_field_chars d : Forall field_char (wds_field d).
Proof.
  apply format_HEX_chars. apply wrap_bounds. lia.
Qed.

Lemma parse_line_final s :
  chrComma ∉ s -> head s <> Some chrQuote -> s <> [] -> parse_line s = Some [s].
Proof.
  intros Hc Hq Hne. unfold parse_line.
  destruct s as [|c after] eqn:E; [congruence|].
  rewrite parse_fields_plain_step by (intros ->; apply Hq; reflexivity).
  rewrite find_char_None by assumption. cbv zeta.
  rewrite firstn_all. rewrite drop_ge by lia.
  destruct (length after); reflexivity.
Qed.

Lemma plain_text_ascii fs :
  Forall (Forall field_char) fs ->
  Forall (fun c => 0 < c < 128) (concat (map plain_text fs)).
Proof.
  induction 1 as [|f fs Hf _ IH]; [constructor|].
  cbn [map concat]. unfold plain_text at 1. rewrite <- app_assoc.
  apply Forall_app. split; [apply field_char_ascii; exact Hf|].
  constructor; [unfold chrComma; lia | exact IH].
Qed.

Lemma plain_text_no_LF fs :
  Forall (Forall field_char) fs -> chrLF ∉ concat (map plain_text fs).
Proof.
  induction 1 as [|f fs Hf _ IH]; [apply not_elem_of_nil|].
  cbn [map concat]. unfold plain_text at 1. rewrite <- app_assoc.
  rewrite elem_of_app. intros [Hin|Hin].
  - exact (field_char_no_LF f Hf Hin).
  - apply elem_of_cons in Hin as [Hin|Hin]; [discriminate | exact (IH Hin)].
Qed.

Lemma plain_text_fields fs :
  concat (map plain_text fs) = concat (map field_text (map Plain fs)).
Proof. induction fs as [|f fs IH]; [reflexivity|]. cbn. rewrite IH. reflexivity. Qed.

(** The line of a row as the loader sees it after the conversion: complete
    fields, and, when no owner is written, a last field that runs up to the
    terminating zero. *)
Definition row_csv (anc : list CItem) (x : CItem) : list csv_field :=
  Quoted (written_name anc (data x)) chrComma
  :: map Plain (plain_fields (data x))
  ++ (if ShowColumnOwner env
      then [Plain (wds_field (data x)); Quoted (GetOwner env anc x) chrNull]
      else []).

Definition row_rest (x : CItem) : wstring :=
  if ShowColumnOwner env then [] else wds_field (data x) ++ [chrNull].

Lemma row_decode anc x :
  data_ok anc (data x) ->
  MultiByteToWideChar env (row_body anc x)
  = concat (map field_text (row_csv anc x)) ++ row_rest x.
Proof.
  intros Hd. unfold row_body, row_csv, row_rest.
  pose proof (plain_fields_chars anc _ Hd) as Hplain.
  pose proof (wds_field_chars (data x)) as Hwds.
  rewrite decode_quoted by apply Hd.
  change (lit ",") with [chrComma]. cbn [app].
  rewrite (ok_ascii Henv) by (unfold chrComma; lia).
  rewrite decode_ascii by (apply plain_text_ascii; exact Hplain).
  rewrite decode_ascii by (apply field_char_ascii; exact Hwds).
  rewrite plain_text_fields.
  destruct (ShowColumnOwner env) eqn:Hown.
  - cbn [app]. rewrite (ok_ascii Henv) by (unfold chrComma; lia).
    rewrite <- (app_nil_r (QuoteAndConvert env _)).
    rewrite decode_quoted by (apply (ok_owner Henv); exact Hown).
    rewrite (ok_end Henv).
    cbn [map concat field_text]. rewrite !map_app, !concat_app.
    cbn [map concat field_text app]. rewrite <- ?app_assoc. cbn [app].
    rewrite ?app_nil_r. reflexivity.
  - rewrite app_nil_r, (ok_end Henv).
    cbn [map concat field_text]. rewrite ?app_nil_r.
    cbn [app]. rewrite <- ?app_assoc. reflexivity.
Qed.

Lemma row_csv_wellformed anc x :
  data_ok anc (data x) -> Forall field_wellformed (row_csv anc x).
Proof.
  intros Hd. unfold row_csv.
  pose proof (plain_fields_chars anc _ Hd) as Hplain.
  constructor; [exact (proj1 (ok_text Henv _ (ok_name _ _ Hd)))|].
  apply Forall_app. split.
  - induction Hplain as [|f fs Hf _ IH]; [constructor|].
    constructor; [apply field_char_plain; exact Hf | exact IH].
  - destruct (ShowColumnOwner env) eqn:Hown; [|constructor].
    constructor; [apply field_char_plain; apply wds_field_chars|].
    constructor; [|constructor].
    exact (proj1 (ok_text Henv _ (ok_owner Henv Hown anc x))).
Qed.

Lemma row_parse anc x :
  data_ok anc (data x) ->
  parse_line (MultiByteToWideChar env (row_body anc x)) = Some (row_fields anc x).
Proof.
  intros Hd. rewrite row_decode by assumption.
  rewrite parse_line_fields by (apply row_csv_wellformed; assumption).
  unfold row_rest, row_fields, row_csv.
  assert (Hmap : forall fs, map field_value (map Plain fs) = fs).
  { induction fs as [|f fs IH]; [reflexivity|]. cbn. rewrite IH. reflexivity. }
  destruct (ShowColumnOwner env).
  - change (parse_line []) with (Some (@nil wstring)). cbn [option_map].
    cbn [map field_value]. rewrite map_app, Hmap, app_nil_r. reflexivity.
  - pose proof (wds_field_chars (data x)) as Hwds.
    rewrite parse_line_final.
    + cbn [option_map map field_value]. rewrite app_nil_r, Hmap. reflexivity.
    + rewrite elem_of_app. intros [Hin|Hin].
      * destruct (field_char_plain _ Hwds) as [Hc _]. exact (Hc Hin).
      * apply list_elem_of_singleton in Hin. discriminate.
    + unfold wds_field. discriminate.
    + unfold wds_field. discriminate.
Qed.

Lemma row_body_line anc x :
  data_ok anc (data x) -> (chrLF ∉ row_body anc x) /\ row_body anc x <> [].
Proof.
  intros Hd. unfold row_body.
  destruct (encode_spec _ (ok_name _ _ Hd)) as (-> & Hlf & _).
  split; [|discriminate].
  pose proof (plain_fields_chars anc _ Hd) as Hplain.
  pose proof (wds_field_chars (data x)) as Hwds.
  cbn [app]. rewrite not_elem_of_cons. split; [discriminate|].
  rewrite <- app_assoc. rewrite !elem_of_app.
  intros [Hin|[Hin|[Hin|[Hin|[Hin|Hin]]]]].
  - exact (Hlf Hin).
  - apply list_elem_of_singleton in Hin. discriminate.
  - apply list_elem_of_singleton in Hin. discriminate.
  - exact (plain_text_no_LF _ Hplain Hin).
  - exact (field_char_no_LF _ Hwds Hin).
  - destruct (ShowColumnOwner env) eqn:Hown; [|inversion Hin].
    destruct (encode_spec _ (ok_owner Henv Hown anc x)) as (E & Hlf' & _).
    rewrite E in Hin. cbn [app] in Hin.
    apply elem_of_cons in Hin as [Hin|Hin]; [discriminate|].
    apply elem_of_cons in Hin as [Hin|Hin]; [discriminate|].
    apply elem_of_app in Hin as [Hin|Hin]; [exact (Hlf' Hin)|].
    apply list_elem_of_singleton in Hin. discriminate.
Qed.

(** *** The header line *)

Fixpoint header_csv (cols : list wstring) : list csv_field :=
  match cols with
  | [] => []
  | c :: rest =>
      Quoted c (match rest with [] => chrNull | _ :: _ => chrComma end)
      :: header_csv rest
  end.

Lemma header_decode cols :
  cols <> [] -> Forall text_ok cols ->
  MultiByteToWideChar env (header_cols env cols)
  = concat (map field_text (header_csv cols)).
Proof.
  intros Hne Hok. induction Hok as [|c rest Hc Hrest IH]; [congruence|].
  cbn [header_cols header_csv map concat].
  rewrite decode_quoted by assumption.
  destruct rest as [|c2 rest].
  - cbn [app header_cols]. rewrite (ok_end Henv). cbn [header_csv map concat field_text].
    rewrite ?app_nil_r. cbn [app]. rewrite <- ?app_assoc. reflexivity.
  - change (lit ",") with [chrComma]. cbn [app].
    rewrite (ok_ascii Henv) by (unfold chrComma; lia).
    rewrite IH by discriminate.
    cbn [field_text app]. rewrite <- app_assoc. reflexivity.
Qed.

Lemma header_csv_wellformed cols :
  Forall text_ok cols -> Forall field_wellformed (header_csv cols).
Proof.
  induction 1 as [|c rest Hc _ IH]; [constructor|].
  cbn [header_csv]. constructor; [|exact IH].
  exact (proj1 (ok_text Henv _ Hc)).
Qed.

Lemma header_csv_values cols : map field_value (header_csv cols) = cols.
Proof. induction cols as [|c rest IH]; [reflexivity|]. cbn. rewrite IH. reflexivity. Qed.

Lemma header_no_LF cols :
  Forall text_ok cols -> chrLF ∉ header_cols env cols.
Proof.
  induction 1 as [|c rest Hc _ IH]; [apply not_elem_of_nil|].
  cbn [header_cols]. destruct (encode_spec c Hc) as (-> & Hlf & _).
  cbn [app]. rewrite not_elem_of_cons. split; [discriminate|].
  rewrite <- app_assoc, !elem_of_app.
  intros [Hin|[Hin|[Hin|Hin]]].
  - exact (Hlf Hin).
  - apply list_elem_of_singleton in Hin. discriminate.
  - destruct rest; [inversion Hin|].
    apply list_elem_of_singleton in Hin. discriminate.
  - exact (IH Hin).
Qed.

Lemma columns_labels :
  columns env
  = take (if ShowColumnOwner env then 9 else 8)%nat (map fst (resMap env)).
Proof. unfold columns, resMap. destruct (ShowColumnOwner env); reflexivity. Qed.

Lemma columns_ok : Forall text_ok (columns env) /\ columns env <> [].
Proof.
  split.
  - rewrite columns_labels. apply Forall_take. apply (ok_labels Henv).
  - unfold columns. discriminate.
Qed.

Lemma assoc_find_nodup (m : list (wstring * nat)) i k v :
  NoDup (map fst m) -> m !! i = Some (k, v) -> assoc_find k m = Some v.
Proof.
  revert i. induction m as [|[k' v'] m IH]; intros i Hnd Hi; [discriminate|].
  cbn [map fst] in Hnd. apply NoDup_cons in Hnd as [Hnot Hnd].
  cbn [assoc_find]. destruct i as [|i]; cbn in Hi.
  - injection Hi as -> ->. rewrite decide_True by reflexivity. reflexivity.
  - destruct (decide (k' = k)) as [->|Hne]; [|exact (IH i Hnd Hi)].
    exfalso. apply Hnot. apply list_elem_of_fmap. exists (k, v). split; [reflexivity|].
    eapply list_elem_of_lookup_2. exact Hi.
Qed.

(** The orderMap a header written by SaveResults leaves. *)
Definition saved_order : list Z :=
  [0; 1; 2; 3; 4; 5; 6; 7; if ShowColumnOwner env then 8 else -1].

Lemma ParseHeaderLine_columns : ParseHeaderLine env (columns env) = saved_order.
Proof.
  destruct (ok_labels Henv) as [Hnd _].
  assert (Hfind : forall i k v, resMap env !! i = Some (k, v) ->
                                assoc_find k (resMap env) = Some v).
  { intros i k v. apply assoc_find_nodup. exact Hnd. }
  pose proof (Hfind 0%nat _ _ eq_refl) as H0.
  pose proof (Hfind 1%nat _ _ eq_refl) as H1.
  pose proof (Hfind 2%nat _ _ eq_refl) as H2.
  pose proof (Hfind 3%nat _ _ eq_refl) as H3.
  pose proof (Hfind 4%nat _ _ eq_refl) as H4.
  pose proof (Hfind 5%nat _ _ eq_refl) as H5.
  pose proof (Hfind 6%nat _ _ eq_refl) as H6.
  pose proof (Hfind 7%nat _ _ eq_refl) as H7.
  pose proof (Hfind 8%nat _ _ eq_refl) as H8.
  unfold ParseHeaderLine, columns, saved_order.
  destruct (ShowColumnOwner env); cbn [app ParseHeaderLine_loop];
    rewrite H0, H1, H2, H3, H4, H5, H6, H7, ?H8; reflexivity.
Qed.

Lemma saved_order_complete : header_incomplete saved_order = false.
Proof. unfold saved_order. destruct (ShowColumnOwner env); reflexivity. Qed.

(** A loader that has read the header SaveResults writes. *)
Definition ready (st : LoadState) : Prop :=
  headerProcessed st = true /\ orderMap st = saved_order.

Lemma header_loaded :
  LoadResults_line env LoadState_init (header_cols env (columns env))
  = Continue (mkLoad [] None ∅ true saved_order).
Proof.
  destruct columns_ok as [Hok Hne].
  rewrite (LoadResults_line_header env _ _ (columns env)).
  - rewrite ParseHeaderLine_columns, saved_order_complete. reflexivity.
  - unfold columns. cbn [app header_cols].
    destruct (encode_spec _ (Forall_inv Hok)) as (E & _).
    unfold columns in E. cbn [app] in E. 
    intros Habs. apply (f_equal length) in Habs. rewrite length_app in Habs.
    cbn in Habs. unfold QuoteAndConvert in Habs.
    rewrite length_insert, length_app in Habs. cbn in Habs. lia.
  - reflexivity.
  - rewrite header_decode by assumption.
    rewrite <- (app_nil_r (concat _)).
    rewrite parse_line_fields by (apply header_csv_wellformed; assumption).
    change (parse_line []) with (Some (@nil wstring)). cbn [option_map].
    rewrite app_nil_r, header_csv_values. reflexivity.
Qed.

(** *** One row *)

(** What the loader does with a decoded item: allocate it, attach it below
    the root or below the parent found under [lookupPath], and register it
    under [mapPath]. *)
Definition install (st : LoadState) (d : ItemData) (mapPath lookupPath : wstring)
  : outcome LoadState :=
  let newitem := length (heap st) in
  let h := heap st ++ [(d, [])] in
  let attached : outcome (list Cell * option nat) :=
    if isRoot d then Continue (h, Some newitem)
    else if isInRoot d then
      match newroot st with
      | Some r => Continue (AddChild r newitem h, newroot st)
      | None => Undefined
      end
    else
      match parentMap st !! lookupPath with
      | Some parent => Continue (AddChild parent newitem h, newroot st)
      | None => Continue (h, newroot st)
      end in
  match attached with
  | Continue (h', root') =>
      let pm :=
        if negb (TmiIsLeaf env d) && (0 <? GetItemsCount d) then
          let pm1 := <[mapPath := newitem]> (parentMap st) in
          if IsType d (IT_DRIVE env)
          then <[take 2 mapPath := newitem]> pm1 else pm1
        else parentMap st in
      Continue (mkLoad h' root' pm (headerProcessed st) (orderMap st))
  | ReturnNull => ReturnNull
  | Undefined => Undefined
  end.

(** The item a row decodes to, given its name. *)
Definition decoded (name f1 f2 f3 f4 f5 f6 f7 : wstring) : ItemData :=
  new_CItem (wrap 16 (wcstoul (c_str f7) 16)) name (FromTimeString env f6)
            (_wcstoui64 (c_str f4) 10) (_wcstoui64 (c_str f3) 10)
            (wcstoul (c_str f5) 16) (wcstoul (c_str f1) 10) (wcstoul (c_str f2) 10).

Lemma LoadResults_row_saved st f0 f1 f2 f3 f4 f5 f6 f7 tail :
  orderMap st = saved_order ->
  LoadResults_row env st (f0 :: f1 :: f2 :: f3 :: f4 :: f5 :: f6 :: f7 :: tail)
  = let d0 := decoded [] f1 f2 f3 f4 f5 f6 f7 in
    if isRoot d0 || isInRoot d0 then
      install st (decoded (c_str f0) f1 f2 f3 f4 f5 f6 f7) f0 (c_str f0)
    else
      match wcsrchr f0 chrBackslash with
      | Some i =>
          install st (decoded (c_str (drop (S i) f0)) f1 f2 f3 f4 f5 f6 f7)
                  f0 (take i f0)
      | None => Undefined
      end.
Proof.
  intros Hom. unfold LoadResults_row, install. rewrite Hom. unfold saved_order.
  unfold field_at, field_index, FIELD_ATTRIBUTES_WDS, FIELD_NAME, FIELD_LASTCHANGE,
    FIELD_SIZE_PHYSICAL, FIELD_SIZE_LOGICAL, FIELD_ATTRIBUTES, FIELD_FILES,
    FIELDS_FOLDERS.
  Local Opaque wcstoul _wcstoui64 c_str wcsrchr FromTimeString wrap Z.land Z.lor
    AddChild take drop.
  simpl.
  unfold install, decoded, new_CItem, isRoot, isInRoot, IsType, TmiIsLeaf,
    GetItemsCount.
  simpl.
  set (type := wrap 16 (wcstoul (c_str f7) 16)).
  destruct (negb (Z.land type (ITF_ROOTITEM env) =? 0)) eqn:Hroot;
    destruct (negb (Z.land type (IT_DRIVE env) =? 0)) eqn:Hdrive;
    destruct (negb (Z.land type (IT_UNKNOWN env) =? 0)) eqn:Hunk;
    destruct (negb (Z.land type (IT_FREESPACE env) =? 0)) eqn:Hfree;
    simpl;
    try reflexivity;
    try (destruct (newroot st); reflexivity).
  destruct (wcsrchr f0 chrBackslash) as [i|]; [|reflexivity].
  simpl.
  reflexivity.
Qed.

Local Transparent wcstoul _wcstoui64 c_str wcsrchr FromTimeString wrap Z.land Z.lor
  AddChild take drop.

Definition with_name (d : ItemData) (name : wstring) : ItemData :=
  mkData (m_Type d) name (m_LastChange d) (m_SizePhysical d) (m_SizeLogical d)
         (m_Attributes d) (m_Files d) (m_Folders d).

Lemma with_name_same d : with_name d (m_Name d) = d.
Proof. destruct d; reflexivity. Qed.

(** The last field of the row with or without the terminating zero. *)
Definition wds_read (d : ItemData) : wstring :=
  if ShowColumnOwner env then wds_field d else wds_field d ++ [chrNull].

Lemma c_str_wds_read d : c_str (wds_read d) = wds_field d.
Proof.
  pose proof (field_char_no_null _ (wds_field_chars d)) as Hn.
  unfold wds_read. destruct (ShowColumnOwner env).
  - apply c_str_id. exact Hn.
  - apply c_str_terminated. exact Hn.
Qed.

(** Every column of the row of an item is read back to its attribute. *)
Lemma decoded_row anc d name :
  data_ok anc d ->
  decoded name (format_dec (GetFilesCount d)) (format_dec (GetFoldersCount d))
          (format_dec (GetSizeLogical d)) (format_dec (GetSizePhysical d))
          (lit "0x" ++ format_HEX 8 (GetAttributes d))
          (format_time_point env (ToTimePoint (GetLastChange d)))
          (wds_read d)
  = with_name d name.
Proof.
  intros Hd. unfold decoded, new_CItem, with_name.
  rewrite c_str_wds_read.
  rewrite !c_str_id;
    try (apply field_char_no_null; first
           [ apply format_dec_chars; apply Hd
           | apply format_HEX_chars; apply Hd ]).
  unfold wcstoul, _wcstoui64, wds_field.
  rewrite !strtou_format_dec by apply Hd.
  rewrite (strtou_format_HEX 32 8) by apply Hd.
  rewrite (wrap_id 16 (GetRawType d)) by apply Hd.
  rewrite (strtou_format_HEX 32 4) by
    (pose proof (ok_type _ _ Hd); unfold GetRawType; lia).
  rewrite (wrap_id 16) by apply Hd.
  unfold FromTimeString, GetLastChange.
  destruct (ok_time Henv _ (ok_change _ _ Hd)) as (_ & _ & ->).
  destruct (FILETIME_roundtrip (dwLowDateTime (m_LastChange d))
              (dwHighDateTime (m_LastChange d)) (ok_low _ _ Hd) (ok_high _ _ Hd))
    as [Hlo Hhi].
  replace (m_LastChange d)
    with (mkFileTime (dwLowDateTime (m_LastChange d)) (dwHighDateTime (m_LastChange d)))
    at 1 2 by (destruct (m_LastChange d); reflexivity).
  rewrite Hlo, Hhi. destruct d as [? ? [? ?] ? ? ? ? ?]; reflexivity.
Qed.

Lemma row_fields_explicit anc x :
  exists tail,
    row_fields anc x =
    written_name anc (data x)
    :: format_dec (GetFilesCount (data x))
    :: format_dec (GetFoldersCount (data x))
    :: format_dec (GetSizeLogical (data x))
    :: format_dec (GetSizePhysical (data x))
    :: (lit "0x" ++ format_HEX 8 (GetAttributes (data x)))
    :: format_time_point env (ToTimePoint (GetLastChange (data x)))
    :: wds_read (data x) :: tail.
Proof.
  unfold row_fields, plain_fields, wds_read.
  destruct (ShowColumnOwner env); eexists; reflexivity.
Qed.

Lemma row_line_is_row st anc x :
  ready st -> data_ok anc (data x) ->
  LoadResults_line env st (row_body anc x)
  = LoadResults_row env st (row_fields anc x).
Proof.
  intros [Hh Hom] Hd.
  destruct (row_body_line anc x Hd) as [_ Hne].
  pose proof (row_parse anc x Hd) as Hp. unfold parse_line in Hp.
  unfold LoadResults_line.
  destruct (row_body anc x) as [|c body] eqn:E; [congruence|].
  rewrite Hp, Hh. reflexivity.
Qed.

(** The row of an item that is written under its own name. *)
Lemma row_loaded_full st anc x :
  ready st -> data_ok anc (data x) ->
  isRoot (data x) || isInRoot (data x) = true ->
  written_name anc (data x) = m_Name (data x) ->
  LoadResults_line env st (row_body anc x)
  = install st (data x) (m_Name (data x)) (m_Name (data x)).
Proof.
  intros Hready Hd Hfull Hname.
  rewrite row_line_is_row by assumption.
  destruct (row_fields_explicit anc x) as [tail ->].
  rewrite LoadResults_row_saved by apply Hready. cbv zeta.
  rewrite !(decoded_row anc) by assumption.
  change (isRoot (with_name (data x) []) || isInRoot (with_name (data x) []))
    with (isRoot (data x) || isInRoot (data x)).
  rewrite Hfull, Hname.
  rewrite c_str_id.
  - rewrite with_name_same. reflexivity.
  - rewrite <- Hname. exact (proj2 (ok_text Henv _ (ok_name _ _ Hd))).
Qed.

(** The row of an item that is written by its path. *)
Lemma row_loaded_split st anc x key :
  ready st -> data_ok anc (data x) ->
  isRoot (data x) || isInRoot (data x) = false ->
  written_name anc (data x) = key ++ chrBackslash :: m_Name (data x) ->
  chrBackslash ∉ m_Name (data x) ->
  LoadResults_line env st (row_body anc x)
  = install st (data x) (key ++ chrBackslash :: m_Name (data x)) key.
Proof.
  intros Hready Hd Hfull Hname Hbs.
  rewrite row_line_is_row by assumption.
  destruct (row_fields_explicit anc x) as [tail ->].
  rewrite LoadResults_row_saved by apply Hready. cbv zeta.
  rewrite !(decoded_row anc) by assumption.
  change (isRoot (with_name (data x) []) || isInRoot (with_name (data x) []))
    with (isRoot (data x) || isInRoot (data x)).
  rewrite Hfull, Hname.
  pose proof (proj2 (ok_text Henv _ (ok_name _ _ Hd))) as Hnull.
  rewrite Hname in Hnull.
  assert (Hk : chrNull ∉ key) by (intros Hin; apply Hnull, elem_of_app; auto).
  assert (Hn : chrNull ∉ m_Name (data x)).
  { intros Hin. apply Hnull, elem_of_app. right. apply elem_of_cons. auto. }
  rewrite wcsrchr_last by assumption.
  rewrite take_app_length.
  change (key ++ chrBackslash :: m_Name (data x))
    with (key ++ [chrBackslash] ++ m_Name (data x)) at 1.
  replace (S (length key)) with (length (key ++ [chrBackslash])) by
    (rewrite length_app; simpl; lia).
  rewrite app_assoc, drop_app_length, c_str_id by assumption.
  rewrite (decoded_row anc) by assumption.
  rewrite with_name_same. reflexivity.
Qed.

(** *** Items under construction *)

(** The pointer [p] stands for the item [x], up to the order of children,
    and everything below it lies in the range from [lo] to [hi]. *)
Inductive shape_in (h : list Cell) (lo hi : nat) : nat -> CItem -> Prop :=
  | shape_in_item p d ids xs cs :
      (lo <= p)%nat -> (p < hi)%nat ->
      h !! p = Some (d, ids) ->
      Permutation xs cs ->
      Forall2 (shape_in h lo hi) ids xs ->
      shape_in h lo hi p (Item d cs).

(** [h'] holds the items of [h] in the range, their children reordered. *)
Definition reordered (lo hi : nat) (h h' : list Cell) : Prop :=
  forall q d ids, (lo <= q)%nat -> (q < hi)%nat -> h !! q = Some (d, ids) ->
    exists ids', h' !! q = Some (d, ids') /\ Permutation ids' ids.

Lemma Forall2_impl_Forall {A B} (P : B -> Prop) (R R' : A -> B -> Prop) l1 l2 :
  Forall P l2 -> Forall2 R l1 l2 ->
  (forall a b, P b -> R a b -> R' a b) -> Forall2 R' l1 l2.
Proof.
  intros HP HR Himp. induction HR as [|a b l1 l2 Hab _ IH]; [constructor|].
  apply Forall_cons in HP as [Hb HP]. constructor; auto.
Qed.

Lemma shape_in_reordered lo hi h h' :
  reordered lo hi h h' ->
  forall x p, shape_in h lo hi p x -> shape_in h' lo hi p x.
Proof.
  intros Hre. induction x as [d cs IH] using CItem_forall_ind. intros p Hs.
  inversion Hs as [? ? ids xs ? Hlo Hhi Hp Hperm Hall]; subst.
  destruct (Hre p d ids Hlo Hhi Hp) as (ids' & Hp' & Hperm').
  assert (Hall' : Forall2 (shape_in h' lo hi) ids xs).
  { eapply Forall2_impl_Forall; [|exact Hall|].
    - rewrite Hperm. exact IH.
    - intros a b Hb Hab. apply Hb. exact Hab. }
  destruct (@Permutation_Forall2 _ _ _ ids ids' xs (Permutation_sym Hperm') Hall')
    as (xs' & Hxs & Hall'').
  econstructor; [exact Hlo | exact Hhi | exact Hp' | | exact Hall''].
  rewrite <- Hxs. exact Hperm.
Qed.

Lemma shape_in_widen h lo hi lo' hi' :
  (lo' <= lo)%nat -> (hi <= hi')%nat ->
  forall x p, shape_in h lo hi p x -> shape_in h lo' hi' p x.
Proof.
  intros Hlo Hhi. induction x as [d cs IH] using CItem_forall_ind. intros p Hs.
  inversion Hs as [? ? ids xs ? Hl Hh Hp Hperm Hall]; subst.
  econstructor; [lia | lia | exact Hp | exact Hperm |].
  eapply Forall2_impl_Forall; [|exact Hall|].
  - rewrite Hperm. exact IH.
  - intros a b Hb Hab. apply Hb. exact Hab.
Qed.

Lemma reordered_same lo hi h h' :
  (forall q, (lo <= q)%nat -> (q < hi)%nat -> h' !! q = h !! q) ->
  reordered lo hi h h'.
Proof.
  intros Hsame q d ids Hlo Hhi Hq. exists ids. rewrite Hsame by assumption.
  split; [exact Hq | reflexivity].
Qed.

(** The registration of a new item in parentMap. *)
Definition register (pm : gmap wstring nat) (d : ItemData) (mapPath : wstring)
    (newitem : nat) : gmap wstring nat :=
  if negb (TmiIsLeaf env d) && (0 <? GetItemsCount d) then
    let pm1 := <[mapPath := newitem]> pm in
    if IsType d (IT_DRIVE env) then <[take 2 mapPath := newitem]> pm1 else pm1
  else pm.

Lemma register_other pm d mapPath n k :
  k <> mapPath -> k <> take 2 mapPath -> register pm d mapPath n !! k = pm !! k.
Proof.
  intros H1 H2. unfold register.
  destruct (negb (TmiIsLeaf env d) && (0 <? GetItemsCount d)); [|reflexivity].
  cbv zeta. destruct (IsType d (IT_DRIVE env)).
  - rewrite lookup_insert_ne by congruence. rewrite lookup_insert_ne by congruence.
    reflexivity.
  - rewrite lookup_insert_ne by congruence. reflexivity.
Qed.

Lemma register_leaf pm d mapPath n :
  TmiIsLeaf env d = true -> register pm d mapPath n = pm.
Proof. intros H. unfold register. rewrite H. reflexivity. Qed.

Lemma register_no_drive pm d mapPath n k :
  IsType d (IT_DRIVE env) = false -> k <> mapPath ->
  register pm d mapPath n !! k = pm !! k.
Proof.
  intros Hd H1. unfold register.
  destruct (negb (TmiIsLeaf env d) && (0 <? GetItemsCount d)); [|reflexivity].
  cbv zeta. rewrite Hd. rewrite lookup_insert_ne by congruence. reflexivity.
Qed.

Lemma register_key pm d mapPath n :
  TmiIsLeaf env d = false -> 0 < GetItemsCount d ->
  register pm d mapPath n !! mapPath = Some n /\
  (IsType d (IT_DRIVE env) = true -> register pm d mapPath n !! take 2 mapPath = Some n).
Proof.
  intros Hleaf Hcount. unfold register. rewrite Hleaf.
  destruct (Z.ltb_spec 0 (GetItemsCount d)); [|lia]. cbn [negb andb]. cbv zeta.
  destruct (IsType d (IT_DRIVE env)).
  - split; [|intros _; apply lookup_insert_eq].
    destruct (decide (take 2 mapPath = mapPath)) as [E|E].
    + rewrite E. apply lookup_insert_eq.
    + rewrite lookup_insert_ne by exact E. apply lookup_insert_eq.
  - split; [apply lookup_insert_eq | discriminate].
Qed.

Lemma install_root st d mapPath lookupPath :
  isRoot d = true ->
  install st d mapPath lookupPath
  = Continue (mkLoad (heap st ++ [(d, [])]) (Some (length (heap st)))
                     (register (parentMap st) d mapPath (length (heap st)))
                     (headerProcessed st) (orderMap st)).
Proof. intros H. unfold install, register. rewrite H. reflexivity. Qed.

Lemma AddChild_new h pid dp cs cell :
  h !! pid = Some (dp, cs) ->
  AddChild pid (length h) (h ++ [cell]) = <[pid := (dp, cs ++ [length h])]> h ++ [cell].
Proof.
  intros Hp. unfold AddChild, Cell in *.
  pose proof (lookup_lt_Some _ _ _ Hp) as Hlt.
  rewrite lookup_app_l by exact Hlt. rewrite Hp.
  apply insert_app_l. exact Hlt.
Qed.

Lemma install_child st d mapPath lookupPath pid dp cs :
  isRoot d = false ->
  heap st !! pid = Some (dp, cs) ->
  (isInRoot d = true -> newroot st = Some pid) ->
  (isInRoot d = false -> parentMap st !! lookupPath = Some pid) ->
  install st d mapPath lookupPath
  = Continue (mkLoad (<[pid := (dp, cs ++ [length (heap st)])]> (heap st) ++ [(d, [])])
                     (newroot st)
                     (register (parentMap st) d mapPath (length (heap st)))
                     (headerProcessed st) (orderMap st)).
Proof.
  intros Hroot Hp Hin Hout. unfold install, register. rewrite Hroot.
  destruct (isInRoot d).
  - rewrite (Hin eq_refl). rewrite (AddChild_new _ _ _ _ _ Hp). reflexivity.
  - rewrite (Hout eq_refl). rewrite (AddChild_new _ _ _ _ _ Hp). reflexivity.
Qed.

(** *** The rows of a subtree *)

Definition line_of (e : list CItem * CItem) : bstring := row_body e.1 e.2.

(** What the rows of a subtree may change in parentMap: below an item that
    is written by its path only keys at least as long as the path; below a
    leaf nothing. *)
Definition frame (a : list CItem) (c : CItem) (M M' : gmap wstring nat) : Prop :=
  (isInRoot (data c) = false ->
   forall k, (length k < length (GetPath env a (data c)))%nat -> M' !! k = M !! k) /\
  (TmiIsLeaf env (data c) = true -> M' = M).

(** Loading the rows of the subtree [c], whose parent is the item at [pid]:
    the loader goes through them, appends one new item to the children of
    the parent, builds the subtree in new items and leaves all others as
    they were. *)
Definition node_loads (a : list CItem) (c : CItem) : Prop :=
  forall st pid dp cs_p,
    ready st ->
    heap st !! pid = Some (dp, cs_p) ->
    (isInRoot (data c) = true -> newroot st = Some pid) ->
    (isInRoot (data c) = false ->
     exists p a', a = p :: a' /\ parentMap st !! child_key a' (data p) = Some pid) ->
    exists st',
      LoadResults_lines env st (map line_of (preorder env a c)) = Continue st' /\
      ready st' /\ newroot st' = newroot st /\
      length (heap st') = (length (heap st) + length (preorder env a c))%nat /\
      (forall q, (q < length (heap st))%nat -> q <> pid ->
                 heap st' !! q = heap st !! q) /\
      heap st' !! pid = Some (dp, cs_p ++ [length (heap st)]) /\
      shape_in (heap st') (length (heap st)) (length (heap st')) (length (heap st)) c /\
      frame a c (parentMap st) (parentMap st').

Lemma saved_ok_inv a d cs :
  saved_ok a (Item d cs) ->
  data_ok a d /\ placed a d /\ (IsType d (IT_FILE env) = true -> cs = []) /\
  Forall (saved_ok (Item d cs :: a)) cs.
Proof. intros H. inversion H; subst. auto. Qed.

(** An item written by its path below the parent [x]. *)
Lemma placed_by_path x anc c :
  saved_ok (x :: anc) c -> isInRoot (data c) = false ->
  isRoot (data c) = false /\ nonPathItem (data c) = false /\
  IsType (data x) (IT_MYCOMPUTER env) = false /\
  (chrBackslash ∉ m_Name (data c)) /\
  TmiIsLeaf env (data x) = false /\ 0 < GetItemsCount (data x) /\
  key_ok anc (data x) /\
  GetPath env (x :: anc) (data c)
  = child_key anc (data x) ++ chrBackslash :: m_Name (data c).
Proof.
  intros Hok Hin. destruct c as [d cs].
  apply saved_ok_inv in Hok as (_ & Hpl & _). cbn [data] in *.
  destruct Hpl as [Hroot [(Hin' & _)|(_ & Hnp & Hmc & Hbs & Hleaf & Hcount & Hkey)]];
    [congruence|].
  repeat split; try assumption.
  cbn [GetPath]. rewrite Hmc. reflexivity.
Qed.

(** An item written under its own name below the parent [x]. *)
Lemma placed_in_root x anc c :
  saved_ok (x :: anc) c -> isInRoot (data c) = true ->
  isRoot (data c) = false /\ anc = [] /\
  written_name (x :: anc) (data c) = m_Name (data c) /\
  (TmiIsLeaf env (data c) = true \/ IsType (data x) (IT_MYCOMPUTER env) = true).
Proof.
  intros Hok Hin. destruct c as [d cs].
  apply saved_ok_inv in Hok as (_ & Hpl & _). cbn [data] in *.
  destruct Hpl as [Hroot [(_ & Ha & Hwn & Hl)|(Hin' & _)]]; [|congruence].
  auto.
Qed.

Lemma children_load x anc idx : forall l st ids0,
  Forall (fun c => saved_ok (x :: anc) c /\ node_loads (x :: anc) c) l ->
  ready st ->
  heap st !! idx = Some (data x, ids0) ->
  (Exists (fun c => isInRoot (data c) = true) l -> newroot st = Some idx) ->
  (Exists (fun c => isInRoot (data c) = false) l ->
   parentMap st !! child_key anc (data x) = Some idx) ->
  exists st' ids,
    LoadResults_lines env st (map line_of (flat_map (preorder env (x :: anc)) l))
    = Continue st' /\
    ready st' /\ newroot st' = newroot st /\
    length (heap st')
    = (length (heap st) + length (flat_map (preorder env (x :: anc)) l))%nat /\
    (forall q, (q < length (heap st))%nat -> q <> idx ->
               heap st' !! q = heap st !! q) /\
    heap st' !! idx = Some (data x, ids0 ++ ids) /\
    Forall2 (shape_in (heap st') (length (heap st)) (length (heap st'))) ids l /\
    (Forall (fun c => isInRoot (data c) = false) l ->
     forall k, (length k <= length (child_key anc (data x)))%nat ->
               parentMap st' !! k = parentMap st !! k) /\
    (l = [] -> parentMap st' = parentMap st).
Proof.
  induction l as [|c l IH]; intros st ids0 Hall Hready Hidx Hroot Hkey.
  - exists st, []. cbn [flat_map map LoadResults_lines length].
    rewrite app_nil_r, Nat.add_0_r.
    split; [reflexivity|]. split; [exact Hready|]. split; [reflexivity|].
    split; [reflexivity|]. split; [auto|]. split; [exact Hidx|].
    split; [constructor|]. split; auto.
  - apply Forall_cons in Hall as [[Hc Hload] Hall].
    pose proof (lookup_lt_Some _ _ _ Hidx) as Hidx_lt.
    change (idx < length (heap st))%nat in Hidx_lt.
    destruct (Hload st idx (data x) ids0 Hready Hidx) as
      (st1 & Hrun1 & Hready1 & Hroot1 & Hlen1 & Hsame1 & Hidx1 & Hshape1 & Hframe1).
    { intros Hin. apply Hroot. apply Exists_cons_hd. exact Hin. }
    { intros Hin. exists x, anc. split; [reflexivity|].
      apply Hkey. apply Exists_cons_hd. exact Hin. }
    set (n := length (heap st)) in *.
    (* the key of the parent survives the rows of [c] whenever a later child
       needs it *)
    assert (Hkeep : Exists (fun c => isInRoot (data c) = false) l ->
                    parentMap st1 !! child_key anc (data x)
                    = parentMap st !! child_key anc (data x)).
    { intros Hex. apply Exists_exists in Hex as (c2 & Hc2 & Hin2).
      destruct (proj1 (Forall_forall _ _) Hall c2 Hc2) as [Hok2 _].
      destruct (placed_by_path _ _ _ Hok2 Hin2) as (_ & _ & Hmc & _).
      destruct (isInRoot (data c)) eqn:Hinc.
      - destruct (placed_in_root _ _ _ Hc Hinc) as (_ & _ & _ & [Hleaf|Hmc']);
          [|congruence].
        rewrite (proj2 Hframe1 Hleaf). reflexivity.
      - destruct (placed_by_path _ _ _ Hc Hinc) as (_ & _ & _ & _ & _ & _ & _ & Hpath).
        apply (proj1 Hframe1 Hinc). rewrite Hpath, length_app. cbn [length]. lia. }
    destruct (IH st1 (ids0 ++ [n]) Hall Hready1 Hidx1) as
      (st2 & ids & Hrun2 & Hready2 & Hroot2 & Hlen2 & Hsame2 & Hidx2 & Hshape2
       & Hframe2 & _).
    { intros Hex. rewrite Hroot1. apply Hroot. apply Exists_cons_tl. exact Hex. }
    { intros Hex. rewrite (Hkeep Hex). apply Hkey. apply Exists_cons_tl. exact Hex. }
    exists st2, (n :: ids).
    cbn [flat_map]. rewrite map_app, LoadResults_lines_app, Hrun1, Hrun2.
    rewrite length_app.
    split; [reflexivity|]. split; [exact Hready2|].
    split; [congruence|]. split; [lia|].
    split.
    { intros q Hq Hne. rewrite Hsame2 by lia. apply Hsame1; assumption. }
    split.
    { rewrite Hidx2, <- app_assoc. reflexivity. }
    split.
    { constructor.
      - apply shape_in_widen with (lo := n) (hi := length (heap st1)); [lia|lia|].
        apply shape_in_reordered with (h := heap st1); [|exact Hshape1].
        apply reordered_same. intros q Hlo Hhi. apply Hsame2; lia.
      - eapply Forall2_impl; [exact Hshape2|].
        intros p y. apply shape_in_widen; lia. }
    split; [|discriminate].
    intros Hcase k Hk. apply Forall_cons in Hcase as [Hinc Hcase].
    rewrite (Hframe2 Hcase k Hk).
    destruct (placed_by_path _ _ _ Hc Hinc) as (_ & _ & _ & _ & _ & _ & _ & Hpath).
    apply (proj1 Hframe1 Hinc). rewrite Hpath, length_app. cbn [length]. lia.
Qed.

Lemma elem_of_rev_1 {A} (x : A) l : x ∈ rev l -> x ∈ l.
Proof. rewrite !list_elem_of_In. apply in_rev. Qed.

Lemma strip_backslash_length s :
  (length s <= S (length (strip_backslash s)))%nat.
Proof.
  unfold strip_backslash. destruct s as [|c s] using rev_ind; [simpl; lia|].
  rewrite last_snoc. destruct (c =? chrBackslash); [|lia].
  rewrite removelast_last, length_app. cbn [length]. lia.
Qed.

(** An item with a child that is written by its path is itself written by
    its path and registered under the key of its children. *)
Lemma registered_key d cs a c2 M n :
  saved_ok (Item d cs :: a) c2 -> isInRoot (data c2) = false ->
  register M d (written_name a d) n !! child_key a d = Some n.
Proof.
  intros Hok Hin.
  destruct (placed_by_path _ _ _ Hok Hin) as (_ & _ & Hmc & _ & Hleaf & Hcount & Hkey & _).
  cbn [data] in *.
  assert (Hnp : nonPathItem d = false).
  { unfold nonPathItem. unfold TmiIsLeaf in Hleaf.
    rewrite !IsType_lor in *. rewrite Hmc.
    destruct (IsType d (IT_FILE env)), (IsType d (IT_FREESPACE env)),
      (IsType d (IT_UNKNOWN env)); cbn in *; congruence. }
  unfold written_name. rewrite Hnp.
  destruct (register_key M d (GetPath env a d) n Hleaf Hcount) as [Hfull Halias].
  destruct Hkey as [->|[Hdrive ->]]; [exact Hfull | exact (Halias Hdrive)].
Qed.

Lemma children_by_path x a cs :
  a <> [] -> Forall (saved_ok (x :: a)) cs ->
  Forall (fun c => isInRoot (data c) = false) cs.
Proof.
  intros Hne Hall. eapply Forall_impl; [exact Hall|].
  intros c Hc. destruct (isInRoot (data c)) eqn:Hin; [|reflexivity].
  destruct (placed_in_root _ _ _ Hc Hin) as (_ & Ha & _). congruence.
Qed.

(** After the row of an item: the rows of its children. *)
Lemma subtree_children d cs a st1 n :
  Forall (fun c => saved_ok (Item d cs :: a) c /\ node_loads (Item d cs :: a) c) cs ->
  (IsType d (IT_FILE env) = true -> cs = []) ->
  ready st1 ->
  length (heap st1) = S n ->
  heap st1 !! n = Some (d, []) ->
  (Exists (fun c => isInRoot (data c) = true) cs -> newroot st1 = Some n) ->
  (exists M, parentMap st1 = register M d (written_name a d) n) ->
  let below :=
    if IsType d (IT_FILE env) then []
    else flat_map (preorder env (Item d cs :: a)) (rev cs) in
  exists st',
    LoadResults_lines env st1 (map line_of below) = Continue st' /\
    ready st' /\ newroot st' = newroot st1 /\
    length (heap st') = (S n + length below)%nat /\
    (forall q, (q < n)%nat -> heap st' !! q = heap st1 !! q) /\
    shape_in (heap st') n (length (heap st')) n (Item d cs) /\
    (Forall (fun c => isInRoot (data c) = false) cs ->
     forall k, (length k <= length (child_key a d))%nat ->
               parentMap st' !! k = parentMap st1 !! k) /\
    (cs = [] -> parentMap st' = parentMap st1).
Proof.
  intros Hall Hfile Hready Hlen Hn Hroot [M HM] below.
  assert (Hbelow : below = flat_map (preorder env (Item d cs :: a)) (rev cs)).
  { unfold below. destruct (IsType d (IT_FILE env)); [|reflexivity].
    rewrite (Hfile eq_refl). reflexivity. }
  rewrite Hbelow. clear below Hbelow.
  destruct (children_load (Item d cs) a n (rev cs) st1 []) as
    (st' & ids & Hrun & Hready' & Hroot' & Hlen' & Hsame & Hn' & Hshape & Hframe & Hnil).
  - apply Forall_rev. exact Hall.
  - exact Hready.
  - exact Hn.
  - intros Hex. apply Hroot. apply Exists_exists in Hex as (c & Hc & Hin).
    apply Exists_exists. exists c. split; [|exact Hin].
    apply elem_of_rev_1 in Hc. exact Hc.
  - intros Hex. apply Exists_exists in Hex as (c & Hc & Hin).
    apply elem_of_rev_1 in Hc.
    destruct (proj1 (Forall_forall _ _) Hall c Hc) as [Hok _].
    rewrite HM. cbn [data]. eapply registered_key; eassumption.
  - exists st'. rewrite Hlen in *.
    split; [exact Hrun|]. split; [exact Hready'|]. split; [exact Hroot'|].
    split; [exact Hlen'|].
    split; [intros q Hq; apply Hsame; lia|].
    split.
    { apply shape_in_item with (ids := ids) (xs := rev cs).
      - lia.
      - lia.
      - exact Hn'.
      - symmetry. apply Permutation_rev.
      - eapply Forall2_impl; [exact Hshape|].
        intros p y. apply shape_in_widen; lia. }
    split.
    { intros Hcase. apply Hframe. apply Forall_rev. exact Hcase. }
    intros ->. apply Hnil. reflexivity.
Qed.

Lemma children_ready x a cs :
  Forall (fun c => forall a, a <> [] -> saved_ok a c -> node_loads a c) cs ->
  Forall (saved_ok (x :: a)) cs ->
  Forall (fun c => saved_ok (x :: a) c /\ node_loads (x :: a) c) cs.
Proof.
  intros IH Hcs. apply Forall_forall. intros c Hc.
  pose proof (proj1 (Forall_forall _ _) IH c Hc) as Hload.
  pose proof (proj1 (Forall_forall _ _) Hcs c Hc) as Hok.
  split; [exact Hok|]. apply Hload; [discriminate | exact Hok].
Qed.

(** The rows of any subtree below the saved item load as [node_loads]
    says. *)
Lemma node_loads_ok : forall c a, a <> [] -> saved_ok a c -> node_loads a c.
Proof.
  induction c as [d cs IH] using CItem_forall_ind.
  intros a Hne Hok st pid dp cs_p Hready Hpid Hin Hout.
  destruct (saved_ok_inv _ _ _ Hok) as (Hd & Hpl & Hfile & Hcs).
  destruct a as [|p a']; [congruence|]. cbn [data] in *.
  pose proof (lookup_lt_Some _ _ _ Hpid) as Hpid_lt.
  change (pid < length (heap st))%nat in Hpid_lt.
  set (n := length (heap st)) in *.
  set (st1 := mkLoad (<[pid := (dp, cs_p ++ [n])]> (heap st) ++ [(d, [])])
                     (newroot st)
                     (register (parentMap st) d (written_name (p :: a') d) n)
                     (headerProcessed st) (orderMap st)).
  assert (Hrow : LoadResults_line env st (row_body (p :: a') (Item d cs)) = Continue st1).
  { destruct (isInRoot d) eqn:Hir.
    - destruct (placed_in_root p a' (Item d cs) Hok Hir) as (Hroot & _ & Hwn & _).
      cbn [data] in *.
      rewrite row_loaded_full; cbn [data];
        [|assumption|assumption|rewrite Hir; apply orb_true_r|exact Hwn].
      unfold st1. rewrite Hwn. apply install_child; auto.
      intros; congruence.
    - destruct (placed_by_path p a' (Item d cs) Hok Hir)
        as (Hroot & Hnp & Hmc & Hbs & _ & _ & _ & Hpath).
      cbn [data] in *.
      assert (Hwn : written_name (p :: a') d
                    = child_key a' (data p) ++ chrBackslash :: m_Name d).
      { unfold written_name. rewrite Hnp. exact Hpath. }
      rewrite (row_loaded_split st _ _ (child_key a' (data p))); cbn [data];
        [|assumption|assumption|rewrite Hir, Hroot; reflexivity|exact Hwn|exact Hbs].
      unfold st1. rewrite Hwn. apply install_child; auto.
      + intros; congruence.
      + intros _. destruct (Hout eq_refl) as (p0 & a0 & E & Hk).
        injection E as <- <-. exact Hk. }
  destruct (subtree_children d cs (p :: a') st1 n) as
    (st' & Hrun & Hready' & Hroot' & Hlen' & Hsame & Hshape & Hframe & Hnil).
  { apply children_ready; assumption. }
  { exact Hfile. }
  { destruct Hready as [Hh Hom]. split; assumption. }
  { cbn [heap st1]. rewrite length_app, length_insert. cbn [length]. lia. }
  { cbn [heap st1]. apply list_lookup_middle. rewrite length_insert. reflexivity. }
  { intros Hex. exfalso.
    pose proof (children_by_path (Item d cs) (p :: a') cs ltac:(discriminate) Hcs) as Hby.
    apply Exists_exists in Hex as (c & Hc & Hinc).
    pose proof (proj1 (Forall_forall _ _) Hby c Hc). congruence. }
  { exists (parentMap st). reflexivity. }
  exists st'.
  rewrite (preorder_unfold env). cbn [data GetChildren map LoadResults_lines length].
  unfold line_of at 1. cbn [fst snd]. rewrite Hrow.
  split; [exact Hrun|]. split; [exact Hready'|]. split; [exact Hroot'|].
  split; [rewrite Hlen'; lia|].
  split.
  { intros q Hq Hqp. rewrite Hsame by exact Hq. cbn [heap st1].
    rewrite lookup_app_l by (rewrite length_insert; exact Hq).
    apply list_lookup_insert_ne. congruence. }
  split.
  { rewrite Hsame by exact Hpid_lt. cbn [heap st1].
    rewrite lookup_app_l by (rewrite length_insert; exact Hpid_lt).
    apply list_lookup_insert_eq. exact Hpid_lt. }
  split; [exact Hshape|].
  pose proof (children_by_path (Item d cs) (p :: a') cs ltac:(discriminate) Hcs) as Hby.
  split.
  - intros Hir k Hk.
    rewrite (Hframe Hby k).
    + cbn [parentMap st1].
      destruct (placed_by_path p a' (Item d cs) Hok Hir)
        as (_ & Hnp & _). cbn [data] in Hnp.
      apply register_no_drive.
      * pose proof Hir as Hir'. unfold isInRoot in Hir'.
        apply orb_false_iff in Hir' as [Hir' _].
        apply orb_false_iff in Hir' as [Hir' _]. exact Hir'.
      * unfold written_name. rewrite Hnp. cbn [data] in Hk. intros ->. lia.
    + pose proof (strip_backslash_length (GetPath env (p :: a') d)).
      unfold child_key. cbn [data] in Hk. lia.
  - intros Hleaf.
    assert (Hcs0 : cs = []).
    { destruct cs as [|c cs']; [reflexivity|]. exfalso.
      apply Forall_cons in Hcs as [Hc _]. apply Forall_cons in Hby as [Hinc _].
      destruct (placed_by_path _ _ _ Hc Hinc) as (_ & _ & _ & _ & Hl & _).
      cbn [data] in Hl, Hleaf. congruence. }
    rewrite (Hnil Hcs0). cbn [parentMap st1]. apply register_leaf. exact Hleaf.
Qed.

(** The rows of the saved item and of everything below it. *)
Lemma top_loads t :
  saved_ok [] t ->
  exists st',
    LoadResults_lines env (mkLoad [] None ∅ true saved_order)
                      (map line_of (preorder env [] t)) = Continue st' /\
    newroot st' = Some 0%nat /\
    length (heap st') = length (preorder env [] t) /\
    shape_in (heap st') 0 (length (heap st')) 0 t.
Proof.
  destruct t as [d cs]. intros Hok.
  destruct (saved_ok_inv _ _ _ Hok) as (Hd & Hpl & Hfile & Hcs).
  cbn [placed] in Hpl.
  set (st0 := mkLoad [] None ∅ true saved_order).
  assert (Hready : ready st0) by (split; reflexivity).
  set (st1 := mkLoad [(d, [])] (Some 0%nat)
                     (register ∅ d (written_name [] d) 0%nat) true saved_order).
  assert (Hwn : written_name [] d = m_Name d).
  { unfold written_name. destruct (nonPathItem d); reflexivity. }
  assert (Hrow : LoadResults_line env st0 (row_body [] (Item d cs)) = Continue st1).
  { rewrite row_loaded_full; cbn [data];
      [|assumption|assumption|rewrite Hpl; reflexivity|exact Hwn].
    rewrite install_root by exact Hpl. unfold st1. rewrite Hwn. reflexivity. }
  destruct (subtree_children d cs [] st1 0%nat) as
    (st' & Hrun & Hready' & Hroot' & Hlen' & Hsame & Hshape & _).
  { apply children_ready; [|exact Hcs].
    apply Forall_forall. intros c _. apply node_loads_ok. }
  { exact Hfile. }
  { split; reflexivity. }
  { reflexivity. }
  { reflexivity. }
  { intros _. reflexivity. }
  { exists ∅. reflexivity. }
  exists st'.
  rewrite (preorder_unfold env). cbn [data GetChildren map LoadResults_lines length].
  unfold line_of at 1. cbn [fst snd]. rewrite Hrow.
  split; [exact Hrun|]. split; [rewrite Hroot'; reflexivity|].
  split; [rewrite Hlen'; reflexivity | exact Hshape].
Qed.

(** *** The sort and the result *)

Lemma insert_by_size_perm h p l : Permutation (insert_by_size h p l) (p :: l).
Proof.
  induction l as [|q l IH]; cbn [insert_by_size]; [reflexivity|].
  destruct (cell_SizePhysical h q <? cell_SizePhysical h p); [reflexivity|].
  rewrite IH. apply perm_swap.
Qed.

Lemma sort_by_size_perm h cs :
  Permutation (fold_right (insert_by_size h) [] cs) cs.
Proof.
  induction cs as [|c cs IH]; cbn [fold_right]; [reflexivity|].
  rewrite insert_by_size_perm, IH. reflexivity.
Qed.

Lemma reordered_trans lo hi h1 h2 h3 :
  reordered lo hi h1 h2 -> reordered lo hi h2 h3 -> reordered lo hi h1 h3.
Proof.
  intros H12 H23 q d ids Hlo Hhi Hq.
  destruct (H12 q d ids Hlo Hhi Hq) as (ids2 & Hq2 & Hp2).
  destruct (H23 q d ids2 Hlo Hhi Hq2) as (ids3 & Hq3 & Hp3).
  exists ids3. split; [exact Hq3|]. rewrite Hp3. exact Hp2.
Qed.

Lemma SortItemsBySizePhysical_reordered lo hi h p :
  reordered lo hi h (SortItemsBySizePhysical h p) /\
  length (SortItemsBySizePhysical h p) = length h.
Proof.
  unfold SortItemsBySizePhysical.
  destruct (h !! p) as [[dp cs]|] eqn:Hp.
  - split; [|apply length_insert].
    intros q d ids _ _ Hq. destruct (decide (q = p)) as [->|Hne].
    + rewrite Hp in Hq. injection Hq as <- <-.
      eexists. split.
      * apply list_lookup_insert_eq. eapply lookup_lt_Some. exact Hp.
      * apply sort_by_size_perm.
    + exists ids. rewrite list_lookup_insert_ne by congruence.
      split; [exact Hq | reflexivity].
  - split; [|reflexivity]. apply reordered_same. reflexivity.
Qed.

Lemma sort_parents_reordered lo hi pm h :
  reordered lo hi h (sort_parents pm h) /\ length (sort_parents pm h) = length h.
Proof.
  unfold sort_parents. induction (map_to_list pm) as [|kv l [IH1 IH2]]; cbn [fold_right].
  - split; [apply reordered_same|]; reflexivity.
  - destruct (SortItemsBySizePhysical_reordered lo hi
                (fold_right (fun kv h => SortItemsBySizePhysical h kv.2) h l) kv.2)
      as [H1 H2].
    split; [eapply reordered_trans; eassumption | congruence].
Qed.

Lemma item_count_child c cs :
  c ∈ cs -> (item_count c <= fold_right (fun c n => (item_count c + n)%nat) O cs)%nat.
Proof.
  induction cs as [|c' cs IH]; intros Hin; [inversion Hin|].
  apply elem_of_cons in Hin as [->|Hin]; cbn [fold_right]; [lia|].
  specialize (IH Hin). lia.
Qed.

Lemma item_count_perm xs cs :
  Permutation xs cs ->
  fold_right (fun c n => (item_count c + n)%nat) O xs
  = fold_right (fun c n => (item_count c + n)%nat) O cs.
Proof.
  induction 1; cbn [fold_right]; lia.
Qed.

(** A pointer that stands for an item is read as that item, up to the order
    of children. *)
Lemma item_at_shape h lo hi : forall x fuel p,
  shape_in h lo hi p x -> (item_count x <= fuel)%nat ->
  tree_equiv (item_at fuel h p) x.
Proof.
  induction x as [d cs IH] using CItem_forall_ind. intros fuel p Hs Hfuel.
  inversion Hs as [? ? ids xs ? Hlo Hhi Hp Hperm Hall]; subst.
  cbn [item_count] in Hfuel.
  destruct fuel as [|fuel]; [lia|]. cbn [item_at]. unfold Cell in *. rewrite Hp.
  apply tree_equiv_item with (cs2' := xs); [exact Hperm|].
  apply Forall2_fmap_l.
  assert (HIH : Forall (fun x => forall fuel p, shape_in h lo hi p x ->
                                 (item_count x <= fuel)%nat ->
                                 tree_equiv (item_at fuel h p) x) xs).
  { rewrite Hperm. exact IH. }
  assert (Hsmall : Forall (fun x => (item_count x <= fuel)%nat) xs).
  { apply Forall_forall. intros c Hc.
    pose proof (item_count_child c xs Hc) as Hle.
    rewrite (item_count_perm xs cs Hperm) in Hle. lia. }
  clear Hperm Hp IH Hs Hfuel.
  induction Hall as [|q y ids xs Hqy _ IHall]; [constructor|].
  apply Forall_cons in HIH as [Hy HIH]. apply Forall_cons in Hsmall as [Hsy Hsmall].
  constructor; [apply Hy; assumption | apply IHall; assumption].
Qed.

Lemma flat_map_rev_length (f : CItem -> list (list CItem * CItem)) cs :
  Forall (fun c => length (f c) = item_count c) cs ->
  length (flat_map f (rev cs)) = fold_right (fun c n => (item_count c + n)%nat) O cs.
Proof.
  induction 1 as [|c cs Hc _ IH]; [reflexivity|].
  cbn [rev fold_right]. rewrite flat_map_app, length_app, IH. cbn [flat_map].
  rewrite app_nil_r, Hc. lia.
Qed.

Lemma preorder_length : forall x a,
  saved_ok a x -> length (preorder env a x) = item_count x.
Proof.
  induction x as [d cs IH] using CItem_forall_ind. intros a Hok.
  destruct (saved_ok_inv _ _ _ Hok) as (_ & _ & Hfile & Hcs).
  rewrite (preorder_unfold env). cbn [data GetChildren length item_count]. f_equal.
  destruct (IsType d (IT_FILE env)).
  - rewrite (Hfile eq_refl). reflexivity.
  - apply flat_map_rev_length. apply Forall_forall. intros c Hc.
    apply (proj1 (Forall_forall _ _) IH c Hc).
    apply (proj1 (Forall_forall _ _) Hcs c Hc).
Qed.

Lemma preorder_lines : forall x a,
  saved_ok a x -> Forall (fun row => chrLF ∉ row) (map line_of (preorder env a x)).
Proof.
  induction x as [d cs IH] using CItem_forall_ind. intros a Hok.
  destruct (saved_ok_inv _ _ _ Hok) as (Hd & _ & Hfile & Hcs).
  rewrite (preorder_unfold env). cbn [data GetChildren map].
  constructor.
  - exact (proj1 (row_body_line a (Item d cs) Hd)).
  - destruct (IsType d (IT_FILE env)); [constructor|].
    apply Forall_forall. intros row Hrow.
    apply list_elem_of_fmap in Hrow as (e & -> & He).
    apply list_elem_of_In, in_flat_map in He as (c & Hc & He).
    apply in_rev, list_elem_of_In in Hc.
    pose proof (proj1 (Forall_forall _ _) IH c Hc (Item d cs :: a)
                  (proj1 (Forall_forall _ _) Hcs c Hc)) as Hlines.
    apply (proj1 (Forall_forall _ _) Hlines).
    apply list_elem_of_fmap. exists e. split; [reflexivity|].
    apply list_elem_of_In. exact He.
Qed.

(** The file that SaveResults writes for the tree [t]. *)
Definition saved_file (t : CItem) : bstring :=
  header_line env ++ concat (map (row_of env) (preorder env [] t)).

Lemma saved_file_lines t :
  saved_ok [] t ->
  getlines (text_mode (saved_file t))
  = header_cols env (columns env) :: map line_of (preorder env [] t).
Proof.
  intros Hok.
  assert (E : saved_file t
              = concat (map (fun row => row ++ crlf)
                            (header_cols env (columns env)
                             :: map line_of (preorder env [] t)))).
  { unfold saved_file, header_line. cbn [map concat].
    apply (f_equal (app _)). apply (f_equal (@concat _)).
    rewrite map_map. apply map_ext. intros [a x].
    unfold row_of, line_of. cbn [fst snd]. apply format_row_body. }
  rewrite E. apply getlines_crlf. constructor.
  - apply header_no_LF. apply columns_ok.
  - apply preorder_lines. exact Hok.
Qed.

Lemma saved_file_loads t :
  saved_ok [] t ->
  exists t', LoadResults env (Some (saved_file t)) = LoadReturns (Some t') /\
             tree_equiv t' t.
Proof.
  intros Hok. unfold LoadResults. rewrite saved_file_lines by exact Hok.
  cbn [LoadResults_lines]. rewrite header_loaded.
  destruct (top_loads t Hok) as (st' & Hrun & Hroot & Hlen & Hshape).
  rewrite Hrun, Hroot. cbn [option_map].
  set (h := sort_parents (parentMap st') (heap st')).
  destruct (sort_parents_reordered 0 (length (heap st')) (parentMap st') (heap st'))
    as [Hre Hlenh].
  fold h in Hre, Hlenh.
  eexists. split; [reflexivity|].
  apply item_at_shape with (lo := 0%nat) (hi := length (heap st')).
  - eapply shape_in_reordered; eassumption.
  - rewrite Hlenh, Hlen, preorder_length by exact Hok. lia.
Qed.

End RoundTrip.


End CsvRoundTrip.


(** ** A concrete environment

    English column labels, the item type bits of Item.h, text that is plain
    ASCII, and ISO 8601 time stamps with seven decimals of the second,
    counted in 100 ns ticks from 1601-01-01. *)

Module CsvEnglish.
Import Csv.

Definition Lookup_en (r : res_id) : wstring :=
  match r with
  | IDS_COL_NAME => lit "Name"
  | IDS_COL_FILES => lit "Files"
  | IDS_COL_FOLDERS => lit "Folders"
  | IDS_COL_SIZE_LOGICAL => lit "Logical Size"
  | IDS_COL_SIZE_PHYSICAL => lit "Physical Size"
  | IDS_COL_ATTRIBUTES => lit "Attributes"
  | IDS_COL_LASTCHANGE => lit "Last Change"
  | IDS_APP_TITLE => lit "WinDirStat"
  | IDS_COL_OWNER => lit "Owner"
  end.

(** Text below 128 converts to itself; a code unit from 128 on is written as
    a question mark, a byte from 128 on is read as U+FFFD. *)
Definition WideCharToMultiByte_ascii (w : wstring) : bstring :=
  map (fun c => if c <? 128 then c else 63) (c_str w) ++ [0].

Definition MultiByteToWideChar_ascii (b : bstring) : wstring :=
  map (fun c => if c <? 128 then c else 65533) (c_str b) ++ [0].

(** Days since 1970-01-01 to year, month, day and back. *)
Definition civil_from_days (z0 : Z) : Z * Z * Z :=
  let z := z0 + 719468 in
  let era := z / 146097 in
  let doe := z - era * 146097 in
  let yoe := (doe - doe / 1460 + doe / 36524 - doe / 146096) / 365 in
  let y := yoe + era * 400 in
  let doy := doe - (365 * yoe + yoe / 4 - yoe / 100) in
  let mp := (5 * doy + 2) / 153 in
  let d := doy - (153 * mp + 2) / 5 + 1 in
  let m := if mp <? 10 then mp + 3 else mp - 9 in
  (if m <=? 2 then y + 1 else y, m, d).

Definition days_from_civil (y0 m d : Z) : Z :=
  let y := if m <=? 2 then y0 - 1 else y0 in
  let era := y / 400 in
  let yoe := y - era * 400 in
  let doy := (153 * (if 2 <? m then m - 3 else m + 9) + 2) / 5 + d - 1 in
  let doe := yoe * 365 + yoe / 4 - yoe / 100 + doy in
  era * 146097 + doe - 719468.

Definition pad_dec (width : nat) (n : Z) : bstring :=
  let ds := format_dec n in repeat 48 (width - length ds) ++ ds.

Definition ticks_per_second : Z := 10000000.
Definition ticks_per_day : Z := 86400 * ticks_per_second.
Definition days_1601_to_1970 : Z := 134774.

Definition format_time_point_iso (ticks : Z) : bstring :=
  let days := ticks / ticks_per_day in
  let rest := ticks mod ticks_per_day in
  let '(y, m, d) := civil_from_days (days - days_1601_to_1970) in
  let secs := rest / ticks_per_second in
  pad_dec 4 y ++ lit "-" ++ pad_dec 2 m ++ lit "-" ++ pad_dec 2 d ++ lit "T"
  ++ pad_dec 2 (secs / 3600) ++ lit ":" ++ pad_dec 2 (secs / 60 mod 60)
  ++ lit ":" ++ pad_dec 2 (secs mod 60) ++ lit "."
  ++ pad_dec 7 (rest mod ticks_per_second) ++ lit "Z".

(** Reads up to [width] decimal digits. *)
Fixpoint read_dec (width : nat) (acc : Z) (s : wstring) : option (Z * wstring) :=
  match width with
  | O => Some (acc, s)
  | S w =>
      match s with
      | c :: s' =>
          if (48 <=? c) && (c <=? 57) then read_dec w (acc * 10 + (c - 48)) s'
          else None
      | [] => None
      end
  end.

Definition expect (c : Z) (s : wstring) : option wstring :=
  match s with
  | x :: s' => if x =? c then Some s' else None
  | [] => None
  end.

Definition parse_iso (s : wstring) : option Z :=
  '(y, s) ← read_dec 4 0 s; s ← expect 45 s;
  '(m, s) ← read_dec 2 0 s; s ← expect 45 s;
  '(d, s) ← read_dec 2 0 s; s ← expect 84 s;
  '(hh, s) ← read_dec 2 0 s; s ← expect 58 s;
  '(mm, s) ← read_dec 2 0 s; s ← expect 58 s;
  '(ss, s) ← read_dec 2 0 s; s ← expect 46 s;
  '(fr, s) ← read_dec 7 0 s; s ← expect 90 s;
  Some ((days_from_civil y m d + days_1601_to_1970) * ticks_per_day
        + ((hh * 60 + mm) * 60 + ss) * ticks_per_second + fr).

Definition parse_time_point_iso (s : wstring) : Z :=
  match parse_iso s with Some t => to_int64 t | None => 0 end.

Definition env_en : Env :=
  mkEnv Lookup_en 1 2 4 8 16 32 256 false
        WideCharToMultiByte_ascii MultiByteToWideChar_ascii
        format_time_point_iso parse_time_point_iso
        (fun _ _ => lit "").

(** 2024-03-01T10:15:30Z in ticks and as a FILETIME. *)
Definition ticks_2024 : Z := Eval vm_compute in
    (days_from_civil 2024 3 1 + days_1601_to_1970) * ticks_per_day
    + ((10 * 60 + 15) * 60 + 30) * ticks_per_second.

Definition ft_2024 : FILETIME := Eval vm_compute in
  mkFileTime (ticks_2024 mod 2 ^ 32) (ticks_2024 / 2 ^ 32).

End CsvEnglish.

(** ** Concrete files and trees *)

Module CsvExamples.
Import Csv CsvFacts CsvRoundTrip CsvEnglish.

(** Representable text in the English environment: ASCII other than the
    quote and the line feed. *)
Definition text_char (c : Z) : bool :=
  (0 <? c) && (c <? 128) && negb (c =? chrQuote) && negb (c =? chrLF).

Definition text_ok_en (w : wstring) : Prop := forallb text_char w = true.

(** The one time point used below. *)
Definition time_ok_en (t : Z) : Prop := t = ticks_2024.

Lemma text_ok_en_cons c w :
  text_ok_en (c :: w) ->
  (0 < c < 128 /\ c <> chrQuote /\ c <> chrLF) /\ text_ok_en w.
Proof.
  unfold text_ok_en. cbn [forallb]. intros H.
  apply andb_true_iff in H as [Hc Hw]. split; [|exact Hw].
  unfold text_char in Hc. repeat (apply andb_true_iff in Hc as [Hc ?]).
  repeat match goal with
         | H : negb _ = true |- _ => apply negb_true_iff, Z.eqb_neq in H
         | H : (_ <? _) = true |- _ => apply Z.ltb_lt in H
         end.
  lia.
Qed.

Lemma MultiByteToWideChar_ascii_text w rest :
  text_ok_en w ->
  MultiByteToWideChar_ascii (w ++ rest) = w ++ MultiByteToWideChar_ascii rest.
Proof.
  induction w as [|c w IH]; intros Hw; [reflexivity|].
  apply text_ok_en_cons in Hw as [(Hc & _) Hw].
  unfold MultiByteToWideChar_ascii in *. cbn [app c_str].
  destruct (Z.eqb_spec c chrNull) as [E|_]; [unfold chrNull in E; lia|].
  cbn [map app]. destruct (Z.ltb_spec c 128); [|lia].
  rewrite IH by exact Hw. reflexivity.
Qed.

Lemma WideCharToMultiByte_ascii_text w :
  text_ok_en w -> WideCharToMultiByte_ascii w = w ++ [chrNull].
Proof.
  intros Hw. unfold WideCharToMultiByte_ascii. f_equal.
  induction w as [|c w IH]; [reflexivity|].
  apply text_ok_en_cons in Hw as [(Hc & _) Hw]. cbn [c_str].
  destruct (Z.eqb_spec c chrNull) as [E|_]; [unfold chrNull in E; lia|].
  cbn [map]. destruct (Z.ltb_spec c 128); [|lia].
  rewrite IH by exact Hw. reflexivity.
Qed.

Lemma text_ok_en_not_in w c :
  text_char c = false -> text_ok_en w -> c ∉ w.
Proof.
  intros Hc. induction w as [|x w IH]; intros Hw; [apply not_elem_of_nil|].
  unfold text_ok_en in Hw. cbn [forallb] in Hw.
  apply andb_true_iff in Hw as [Hx Hw].
  apply not_elem_of_cons. split; [congruence | exact (IH Hw)].
Qed.

Lemma env_en_ok : env_ok env_en text_ok_en time_ok_en.
Proof.
  constructor.
  - intros w Hw. split; apply text_ok_en_not_in; (reflexivity || exact Hw).
  - intros w Hw. exists w. cbn [WideCharToMultiByte MultiByteToWideChar env_en].
    split; [apply WideCharToMultiByte_ascii_text; exact Hw|].
    split; [apply text_ok_en_not_in; (reflexivity || exact Hw)|].
    intros rest. apply MultiByteToWideChar_ascii_text. exact Hw.
  - intros c rest Hc. cbn [MultiByteToWideChar env_en].
    unfold MultiByteToWideChar_ascii. cbn [c_str].
    destruct (Z.eqb_spec c chrNull) as [E|_]; [unfold chrNull in E; lia|].
    cbn [map app]. destruct (Z.ltb_spec c 128); [reflexivity|lia].
  - reflexivity.
  - intros t ->. cbn [format_time_point parse_time_point env_en].
    split; [|split; [vm_compute; discriminate | vm_compute; reflexivity]].
    set (l := format_time_point_iso ticks_2024). vm_compute in l. subst l.
    repeat (constructor;
            [unfold field_char, chrLF, chrComma, chrQuote; lia|]).
    constructor.
  - split.
    + apply (bool_decide_unpack _). vm_compute. exact I.
    + cbn [map fst resMap Lookup env_en]. repeat (constructor; [reflexivity|]).
      constructor.
  - discriminate.
Qed.

(** My Computer with one drive, a directory on it and two files in the
    directory. *)
Definition file_x : CItem := Item (mkData 8 (lit "x.txt") ft_2024 4096 17 32 1 0) [].
Definition file_y : CItem := Item (mkData 8 (lit "y,z.txt") ft_2024 8192 5000 32 1 0) [].
Definition dir_a : CItem :=
  Item (mkData 4 (lit "a") ft_2024 12288 5017 16 2 0) [file_x; file_y].
Definition drive_c : CItem :=
  Item (mkData 2 (lit "C:\") ft_2024 12288 5017 0 2 1) [dir_a].
Definition my_computer : CItem :=
  Item (mkData 257 (lit "My Computer") ft_2024 12288 5017 0 2 1) [drive_c].

Ltac by_computation := vm_compute; repeat split; (discriminate || reflexivity).

Lemma data_ok_en anc d :
  Forall (fun v => 0 <= v < 2 ^ 32)
         [m_Files d; m_Folders d; m_Attributes d; m_Type d * 2 ^ 16;
          dwLowDateTime (m_LastChange d); dwHighDateTime (m_LastChange d)] ->
  Forall (fun v => 0 <= v < 2 ^ 64) [m_SizeLogical d; m_SizePhysical d] ->
  text_ok_en (written_name env_en anc d) ->
  time_ok_en (ToTimePoint (m_LastChange d)) ->
  data_ok env_en text_ok_en time_ok_en anc d.
Proof.
  intros H32 H64 Htext Htime.
  repeat match goal with
         | H : Forall _ (_ :: _) |- _ => apply Forall_cons in H as [? H]
         end.
  constructor; try assumption. lia.
Qed.

Ltac data_ok_by_computation :=
  apply data_ok_en; [repeat (constructor; [by_computation|]); constructor
                    |repeat (constructor; [by_computation|]); constructor
                    |vm_compute; reflexivity
                    |vm_compute; reflexivity].

Lemma file_x_ok : saved_ok env_en text_ok_en time_ok_en [dir_a; drive_c; my_computer] file_x.
Proof.
  apply saved_ok_item; [data_ok_by_computation| |reflexivity|constructor].
  split; [reflexivity|]. right.
  repeat split; try reflexivity.
  - apply (bool_decide_unpack _). vm_compute. exact I.
  - left. reflexivity.
Qed.

Lemma file_y_ok : saved_ok env_en text_ok_en time_ok_en [dir_a; drive_c; my_computer] file_y.
Proof.
  apply saved_ok_item; [data_ok_by_computation| |reflexivity|constructor].
  split; [reflexivity|]. right.
  repeat split; try reflexivity.
  - apply (bool_decide_unpack _). vm_compute. exact I.
  - left. reflexivity.
Qed.

Lemma dir_a_ok : saved_ok env_en text_ok_en time_ok_en [drive_c; my_computer] dir_a.
Proof.
  apply saved_ok_item; [data_ok_by_computation| |discriminate|].
  - split; [reflexivity|]. right.
    repeat split; try reflexivity.
    + apply (bool_decide_unpack _). vm_compute. exact I.
    + right. split; reflexivity.
  - apply Forall_cons; split; [exact file_x_ok|].
    apply Forall_cons; split; [exact file_y_ok|]. apply Forall_nil_2.
Qed.

Lemma drive_c_ok : saved_ok env_en text_ok_en time_ok_en [my_computer] drive_c.
Proof.
  apply saved_ok_item; [data_ok_by_computation| |discriminate|].
  - split; [reflexivity|]. left.
    repeat split; try reflexivity. right. reflexivity.
  - apply Forall_cons; split; [exact dir_a_ok | apply Forall_nil_2].
Qed.

Lemma my_computer_ok : saved_ok env_en text_ok_en time_ok_en [] my_computer.
Proof.
  apply saved_ok_item; [data_ok_by_computation|reflexivity|discriminate|].
  apply Forall_cons; split; [exact drive_c_ok | apply Forall_nil_2].
Qed.


(** A drive below My Computer that holds a free-space item: every field is
    representable, and the loader hangs the free-space item below the root. *)
Definition free_space : CItem :=
  Item (mkData 16 (lit "<Free Space>") ft_2024 1000 1000 0 0 0) [].
Definition drive_d : CItem :=
  Item (mkData 2 (lit "D:\") ft_2024 1000 1000 0 0 0) [free_space].
Definition computer_d : CItem :=
  Item (mkData 257 (lit "My Computer") ft_2024 1000 1000 0 0 0) [drive_d].

Definition computer_d_loaded : CItem :=
  Item (data computer_d) [Item (data drive_d) []; free_space].

Lemma tree_equiv_children d1 cs1 d2 cs2 :
  tree_equiv (Item d1 cs1) (Item d2 cs2) -> length cs1 = length cs2.
Proof.
  intros H. inversion H as [d a b b' Hperm Hall]; subst.
  rewrite (Forall2_length _ _ _ Hall). apply Permutation_length. exact Hperm.
Qed.


(** A file whose header stops after three columns, and a file with the
    full header whose first row opens a quote and never closes it. *)
Definition short_header_file : bstring :=
  lit "Name,Files,Folders" ++ crlf ++ lit "x,1,1" ++ crlf.

Definition open_quote_row : bstring := chrQuote :: lit "C:\a,1,0,17".

Definition open_quote_file : bstring :=
  header_line env_en ++ open_quote_row ++ crlf.

(** Both files load to nullptr. *)
Lemma C6_malformed_file_returns_null_witness :
  LoadResults env_en (Some short_header_file) = LoadReturns None /\
  LoadResults env_en (Some open_quote_file) = LoadReturns None.
Proof.
  split.
  - apply (C6_malformed_file_returns_null env_en short_header_file
             [] (lit "Name,Files,Folders") [lit "x,1,1"]).
    + vm_compute. reflexivity.
    + discriminate.
    + left. split; [apply Forall_nil_2|].
      exists [lit "Name"; lit "Files"; lit "Folders" ++ [chrNull]],
        FIELD_SIZE_LOGICAL.
      split; [vm_compute; reflexivity|].
      split; [vm_compute; lia|]. split; [discriminate|].
      apply (bool_decide_unpack _). vm_compute. exact I.
  - apply (C6_malformed_file_returns_null env_en open_quote_file
             [firstn (length (header_line env_en) - 2) (header_line env_en)]
             open_quote_row []).
    + vm_compute. reflexivity.
    + discriminate.
    + right. split; [vm_compute; discriminate|].
      exists [], (lit "C:\a,1,0,17" ++ [chrNull]).
      split; [apply Forall_nil_2|]. split; [vm_compute; reflexivity|].
      apply (bool_decide_unpack _). vm_compute. exact I.
Defined.

(** Three more trees with representable names, sizes, counts and times
    that are not given back: type flags above bit 15 are cut off by the
    writer; a directory directly below My Computer is written by its bare
    name, in which the loader finds no backslash; a drive below a root that
    is not My Computer is written by its path and named by it on loading. *)
Definition wide_type_root : CItem :=
  Item (mkData (65536 + 257) (lit "My Computer") ft_2024 0 0 0 0 0) [].

Definition computer_with_directory : CItem :=
  Item (mkData 257 (lit "My Computer") ft_2024 4096 17 0 1 1)
       [Item (mkData 4 (lit "a") ft_2024 4096 17 16 1 0) [file_x]].

Definition directory_with_drive : CItem :=
  Item (mkData 260 (lit "X") ft_2024 1000 1000 0 0 1)
       [Item (mkData 2 (lit "D:\") ft_2024 1000 1000 0 0 0) []].

Lemma type_flags_above_16_bits_are_lost :
  exists file,
    SaveResults env_en true [] wide_type_root = Some (mkSaved true (Some file)) /\
    LoadResults env_en (Some file)
    = LoadReturns (Some (Item (mkData 257 (lit "My Computer") ft_2024 0 0 0 0 0) [])).
Proof. eexists. split; [vm_compute; reflexivity|]. vm_compute. reflexivity. Qed.

Lemma directory_below_my_computer_is_undefined :
  exists file,
    SaveResults env_en true [] computer_with_directory = Some (mkSaved true (Some file)) /\
    LoadResults env_en (Some file) = LoadUndefined.
Proof. eexists. split; [vm_compute; reflexivity|]. vm_compute. reflexivity. Qed.

Lemma drive_below_directory_is_renamed :
  exists file,
    SaveResults env_en true [] directory_with_drive = Some (mkSaved true (Some file)) /\
    LoadResults env_en (Some file)
    = LoadReturns
        (Some (Item (mkData 260 (lit "X") ft_2024 1000 1000 0 0 1)
                    [Item (mkData 2 (lit "X\D:\") ft_2024 1000 1000 0 0 0) []])).
Proof. eexists. split; [vm_compute; reflexivity|]. vm_compute. reflexivity. Qed.

(** The file written for the directory C:\a and its two files, byte for
    byte. *)
Definition quoted (s : string) : bstring := chrQuote :: lit s ++ [chrQuote].

Definition dir_a_file : bstring :=
  quoted "Name" ++ lit "," ++ quoted "Files" ++ lit "," ++ quoted "Folders"
  ++ lit "," ++ quoted "Logical Size" ++ lit "," ++ quoted "Physical Size"
  ++ lit "," ++ quoted "Attributes" ++ lit "," ++ quoted "Last Change"
  ++ lit "," ++ quoted "WinDirStat Attributes" ++ crlf
  ++ quoted "C:\a"
  ++ lit ",2,0,5017,12288,0x00000010,2024-03-01T10:15:30.0000000Z,0x0004" ++ crlf
  ++ quoted "C:\a\y,z.txt"
  ++ lit ",1,0,5000,8192,0x00000020,2024-03-01T10:15:30.0000000Z,0x0008" ++ crlf
  ++ quoted "C:\a\x.txt"
  ++ lit ",1,0,17,4096,0x00000020,2024-03-01T10:15:30.0000000Z,0x0008" ++ crlf.

Lemma C8_rows_in_preorder_witness :
  SaveResults env_en true [drive_c; my_computer] dir_a
  = Some (mkSaved true (Some dir_a_file)) /\
  preorder env_en [drive_c; my_computer] dir_a
  = [([drive_c; my_computer], dir_a);
     ([dir_a; drive_c; my_computer], file_y);
     ([dir_a; drive_c; my_computer], file_x)].
Proof.
  pose proof (C8_rows_in_preorder env_en true [drive_c; my_computer] dir_a) as H.
  cbv zeta in H. destruct H as (H & _).
  split; [|reflexivity].
  rewrite H. vm_compute. reflexivity.
Defined.

End CsvExamples.

(** ** Runs of the queue *)

Module QueueRuns.
Import BlockingQueue BlockingQueueFacts.

Section Runs.

Context {T : Type}.
Implicit Types s : state T.

(** bool IsSuspended() const *)
Definition IsSuspended s : bool := m_Started s && m_Suspended s.

(** A run of the pool: steps one after another, with their labels in
    order. *)
Inductive steps : state T -> list (@label T) -> state T -> Prop :=
  | steps_nil s : steps s [] s
  | steps_cons s l s1 ls s2 :
      step s l s1 -> steps s1 ls s2 -> steps s (l :: ls) s2.

(** The task a step hands to Push, and the task a step returns from Pop. *)
Definition pushed_of (l : @label T) : list T :=
  match l with LPush v => [v] | _ => [] end.

Definition popped_of (l : @label T) : list T :=
  match l with LPopValue _ v => [v] | _ => [] end.

Definition pushed (ls : list (@label T)) : list T := flat_map pushed_of ls.
Definition popped (ls : list (@label T)) : list T := flat_map popped_of ls.

(** The threads that are over. *)
Definition finished (p : thread_pc) : bool :=
  match p with Caught | Returned => true | _ => false end.

Lemma reachable_steps n s0 s ls s' :
  reachable n s0 s -> steps s ls s' -> reachable n s0 s'.
Proof.
  intros Hr Hs. induction Hs as [|s l s1 ls s2 Hstep _ IH]; [exact Hr|].
  apply IH. eapply reach_step; eauto.
Qed.

(** What one step does to the members other than the threads and the
    counter. *)
Lemma step_members s l s' :
  step s l s' ->
  pushed_of l ++ m_Queue s = popped_of l ++ m_Queue s' /\
  m_Started s' = m_Started s || (match popped_of l with [] => false | _ => true end) /\
  (m_Cancelled s = true -> m_Cancelled s' = true /\ popped_of l = []) /\
  m_TotalWorkerThreads s' = m_TotalWorkerThreads s.
Proof.
  intros Hstep.
  destruct Hstep as
    [s Hlt | s v | s i Hat | s i v s' Hat Hp | s i s' Hat Hp | s i Hat Hs
    | s i Hat | s i s' Hat Hw | s i s' Hat Hw | s i Hat | s i Hat | s i Hat
    | s | s | s s' Hl | s | s b Hb]; simpl;
    rewrite ?orb_false_r; try (repeat split; auto; fail).
  - unfold Pop_leave in Hp. destruct (Pop_pred s); [|discriminate]. simpl in Hp.
    destruct (m_Cancelled s) eqn:Ec; [discriminate|].
    destruct (m_Queue s) as [|x rest] eqn:Eq; [discriminate|].
    injection Hp as <- <-. simpl. rewrite orb_true_r.
    repeat split; auto; discriminate.
  - unfold Pop_leave in Hp. destruct (Pop_pred s); [|discriminate]. simpl in Hp.
    destruct (m_Cancelled s) eqn:Ec.
    + injection Hp as <-. simpl. repeat split; auto.
    + destruct (m_Queue s); discriminate.
  - unfold WaitIfSuspended_leave in Hw.
    destruct (WaitIfSuspended_pred s); [|discriminate]. simpl in Hw.
    destruct (m_Cancelled s) eqn:Ec; [discriminate|].
    injection Hw as <-. simpl. repeat split; auto; discriminate.
  - unfold WaitIfSuspended_leave in Hw.
    destruct (WaitIfSuspended_pred s); [|discriminate]. simpl in Hw.
    destruct (m_Cancelled s) eqn:Ec; [|discriminate].
    injection Hw as <-. simpl. repeat split; auto.
  - unfold SuspendExecution_leave in Hl.
    destruct (AllThreadsIdling s); [|discriminate].
    injection Hl as <-. repeat split; auto.
Qed.

Lemma steps_members s ls s' :
  steps s ls s' ->
  Permutation (popped ls ++ m_Queue s') (pushed ls ++ m_Queue s) /\
  m_Started s' = m_Started s || (match popped ls with [] => false | _ => true end) /\
  (m_Cancelled s = true ->
     m_Cancelled s' = true /\ popped ls = [] /\
     m_Queue s' = rev (pushed ls) ++ m_Queue s) /\
  m_TotalWorkerThreads s' = m_TotalWorkerThreads s.
Proof.
  induction 1 as [s|s l s1 ls s2 Hstep _ IH].
  - simpl. rewrite orb_false_r. repeat split; auto.
  - destruct (step_members _ _ _ Hstep) as (Hq & Hst & Hc & Ht).
    destruct IH as (IHq & IHst & IHc & IHt).
    split; [|split; [|split]].
    + unfold popped, pushed in *. simpl. rewrite <- !app_assoc.
      rewrite IHq.
      rewrite (Permutation_app_swap_app (popped_of l)).
      rewrite <- Hq.
      rewrite (Permutation_app_swap_app (flat_map pushed_of ls)). reflexivity.
    + rewrite IHst, Hst. unfold popped. simpl.
      destruct (popped_of l); simpl; [rewrite orb_false_r; reflexivity|].
      rewrite orb_true_r. reflexivity.
    + intros Hcs. destruct (Hc Hcs) as (Hc1 & Hp1).
      destruct (IHc Hc1) as (Hc2 & Hp2 & Hq2).
      split; [exact Hc2|]. unfold popped, pushed in *. simpl.
      rewrite Hp1, Hp2. split; [reflexivity|].
      rewrite Hq2. rewrite Hp1 in Hq. simpl in Hq. rewrite <- Hq.
      rewrite rev_app_distr, <- app_assoc. f_equal. f_equal.
      destruct l; reflexivity.
    + congruence.
Qed.

(** A step moves at most one thread, and never one that is over. *)
Lemma step_threads s l s' :
  step s l s' ->
  m_Threads s' = m_Threads s ++ [Running] \/
  m_Threads s' = m_Threads s \/
  exists i p q, m_Threads s !! i = Some p /\ finished p = false /\
                m_Threads s' = <[i := q]> (m_Threads s).
Proof.
  intros Hstep.
  destruct Hstep as
    [s Hlt | s v | s i Hat | s i v s' Hat Hp | s i s' Hat Hp | s i Hat Hs
    | s i Hat | s i s' Hat Hw | s i s' Hat Hw | s i Hat | s i Hat | s i Hat
    | s | s | s s' Hl | s | s b Hb]; simpl; auto;
    try (right; right; exists i; eexists; eexists;
         split; [exact Hat|]; split; reflexivity).
  - pose proof (Pop_leave_fields s) as F. rewrite Hp in F. destruct F as (F & _).
    right; right. exists i, PopBlocked, Running. rewrite F. auto.
  - pose proof (Pop_leave_fields s) as F. rewrite Hp in F. destruct F as (F & _).
    right; right. exists i, PopBlocked, Unwinding. rewrite F. auto.
  - pose proof (WaitIfSuspended_leave_fields s) as F. rewrite Hw in F.
    destruct F as (F & _).
    right; right. exists i, SuspendBlocked, Running. rewrite F. auto.
  - pose proof (WaitIfSuspended_leave_fields s) as F. rewrite Hw in F.
    destruct F as (F & _).
    right; right. exists i, SuspendBlocked, Unwinding. rewrite F. auto.
  - unfold SuspendExecution_leave in Hl.
    destruct (AllThreadsIdling s); [|discriminate]. injection Hl as <-. auto.
Qed.

Lemma steps_finished s ls s' i p :
  steps s ls s' -> at_pc s i p -> finished p = true -> at_pc s' i p.
Proof.
  induction 1 as [s|s l s1 ls s2 Hstep _ IH]; intros Hat Hfin; [exact Hat|].
  apply IH; [|exact Hfin]. unfold at_pc in *.
  destruct (step_threads _ _ _ Hstep) as [E|[E|(j & a & b & Hj & Ha & E)]];
    rewrite E.
  - apply lookup_app_l_Some. exact Hat.
  - exact Hat.
  - destruct (decide (j = i)) as [->|Hne]; [congruence|].
    rewrite list_lookup_insert_ne by exact Hne. exact Hat.
Qed.

Lemma counted_threads_uncounted l i p :
  l !! i = Some p -> counted p = false ->
  counted_threads l <= Z.of_nat (length l) - 1.
Proof.
  revert i. induction l as [|x l IH]; intros i Hi Hp; [discriminate|].
  pose proof (counted_threads_bounds l) as B.
  destruct i as [|i]; simpl in *.
  - injection Hi as ->. rewrite Hp. lia.
  - specialize (IH i Hi Hp). destruct (counted x); lia.
Qed.

Lemma step_suspended s l s' :
  step s l s' -> m_Suspended s = true -> l <> LResume ->
  m_Suspended s' = true /\ popped_of l = [].
Proof.
  intros Hstep Hsus Hl.
  destruct Hstep as
    [s Hlt | s v | s i Hat | s i v s' Hat Hp | s i s' Hat Hp | s i Hat Hs
    | s i Hat | s i s' Hat Hw | s i s' Hat Hw | s i Hat | s i Hat | s i Hat
    | s | s | s s' Hl' | s | s b Hb]; simpl; auto; try congruence.
  - unfold Pop_leave, Pop_pred in Hp. rewrite Hsus in Hp. simpl in Hp.
    destruct (m_Cancelled s); discriminate.
  - unfold Pop_leave in Hp. destruct (Pop_pred s); [|discriminate]. simpl in Hp.
    destruct (m_Cancelled s); [|destruct (m_Queue s); discriminate].
    injection Hp as <-. auto.
  - unfold WaitIfSuspended_leave in Hw.
    destruct (WaitIfSuspended_pred s); [|discriminate]. simpl in Hw.
    destruct (m_Cancelled s); [discriminate|]. injection Hw as <-. auto.
  - unfold WaitIfSuspended_leave in Hw.
    destruct (WaitIfSuspended_pred s); [|discriminate]. simpl in Hw.
    destruct (m_Cancelled s); [|discriminate]. injection Hw as <-. auto.
  - unfold SuspendExecution_leave in Hl'.
    destruct (AllThreadsIdling s); [|discriminate]. injection Hl' as <-. auto.
Qed.

End Runs.

(** In every run the tasks returned by Pop together with the tasks still
    queued are, up to order, the tasks queued at the start together with the
    tasks pushed: no task is lost and none is handed out twice.  Pop never
    takes the front of an empty deque. *)
Theorem tasks_neither_lost_nor_duplicated {T : Type}
    (s : state T) (ls : list (@label T)) (s' : state T) :
  steps s ls s' ->
  Permutation (popped ls ++ m_Queue s') (pushed ls ++ m_Queue s) /\
  (forall t : state T, Pop_leave t <> PopUndefined /\ Pop t <> PopUndefined).
Proof.
  intros Hsteps. split; [apply (steps_members _ _ _ Hsteps)|].
  intros t. unfold Pop, Pop_enter, Pop_leave, Pop_pred, queue_empty. simpl.
  destruct (m_Suspended t), (m_Cancelled t), (m_Queue t); simpl; split; discriminate.
Qed.

(** Within a lifecycle m_Started is set exactly when some Pop has returned
    a task.  So WaitForCompletionOrCancellation reports natural completion,
    and IsSuspended reports true, only after a task has been handed out: a
    pool started on an empty queue to which nothing is pushed is never seen
    as complete. *)
Theorem completion_needs_a_popped_task {T : Type}
    (n : Z) (s0 : state T) (ls : list (@label T)) (s : state T) :
  steps (ResetQueue n false s0) ls s ->
  (m_Started s = true <-> popped ls <> []) /\
  (WaitForCompletionOrCancellation s = Some true -> popped ls <> []) /\
  (IsSuspended s = true -> popped ls <> []).
Proof.
  intros Hsteps.
  destruct (steps_members _ _ _ Hsteps) as (_ & Hst & _). simpl in Hst.
  assert (Hiff : m_Started s = true <-> popped ls <> []).
  { rewrite Hst. destruct (popped ls); split; congruence. }
  split; [exact Hiff|]. split.
  - unfold WaitForCompletionOrCancellation, Completion_pred.
    destruct (m_Cancelled s); simpl.
    + rewrite orb_true_r. discriminate.
    + rewrite orb_false_r. intros H. apply Hiff.
      destruct (m_Started s); [reflexivity|]. simpl in H. discriminate.
  - unfold IsSuspended. intros H. apply Hiff.
    apply andb_true_iff in H as [H _]. exact H.
Qed.

(** Once m_Cancelled is set it stays set for the rest of the lifecycle, no
    Pop returns a task any more, the queue only grows by what is pushed, and
    WaitForCompletionOrCancellation returns false. *)
Theorem cancelled_queue_hands_out_nothing {T : Type}
    (s : state T) (ls : list (@label T)) (s' : state T) :
  m_Cancelled s = true -> steps s ls s' ->
  m_Cancelled s' = true /\ popped ls = [] /\
  m_Queue s' = rev (pushed ls) ++ m_Queue s /\
  WaitForCompletionOrCancellation s' = Some false.
Proof.
  intros Hc Hsteps.
  destruct (steps_members _ _ _ Hsteps) as (_ & _ & H & _).
  destruct (H Hc) as (Hc' & Hp & Hq).
  repeat split; auto.
  unfold WaitForCompletionOrCancellation, Completion_pred.
  rewrite Hc', orb_true_r. reflexivity.
Qed.

(** A worker whose callback has returned normally is never counted as
    waiting.  From then on, for the rest of the lifecycle, the workers are
    never all idle: SuspendExecution does not return and
    WaitForCompletionOrCancellation does not report natural completion. *)
Theorem returned_worker_blocks_idling {T : Type}
    (n : Z) (s0 s : state T) (i : nat) (ls : list (@label T)) (s' : state T) :
  reachable n s0 s -> at_pc s i Returned -> steps s ls s' ->
  at_pc s' i Returned /\
  AllThreadsIdling s' = false /\
  SuspendExecution_leave s' = None /\
  WaitForCompletionOrCancellation s' <> Some true.
Proof.
  intros Hreach Hat Hsteps.
  pose proof (steps_finished _ _ _ _ _ Hsteps Hat eq_refl) as Hat'.
  pose proof (pool_inv_reachable _ _ _ (reachable_steps _ _ _ _ _ Hreach Hsteps))
    as (Ht & Hc & Hl).
  pose proof (counted_threads_uncounted _ _ _ Hat' eq_refl) as Hlt.
  assert (Hidle : AllThreadsIdling s' = false).
  { unfold AllThreadsIdling. apply Z.eqb_neq. lia. }
  split; [exact Hat'|]. split; [exact Hidle|]. split.
  - unfold SuspendExecution_leave. rewrite Hidle. reflexivity.
  - unfold WaitForCompletionOrCancellation, Completion_pred. rewrite Hidle.
    destruct (m_Cancelled s'); simpl.
    + rewrite orb_true_r. discriminate.
    + rewrite andb_false_r. discriminate.
Qed.

(** From the moment m_Suspended is set until ResumeExecution runs, no Pop
    returns a task: the queue keeps everything it holds and everything that
    is pushed meanwhile. *)
Theorem suspended_queue_hands_out_nothing {T : Type}
    (s : state T) (ls : list (@label T)) (s' : state T) :
  m_Suspended s = true -> LResume ∉ ls -> steps s ls s' ->
  m_Suspended s' = true /\ popped ls = [] /\
  m_Queue s' = rev (pushed ls) ++ m_Queue s.
Proof.
  intros Hsus Hno Hsteps. revert Hsus Hno.
  induction Hsteps as [s|s l s1 ls s2 Hstep _ IH]; intros Hsus Hno.
  - auto.
  - apply not_elem_of_cons in Hno as [Hl Hno].
    destruct (step_suspended _ _ _ Hstep Hsus) as (Hsus1 & Hp1); [congruence|].
    destruct (IH Hsus1 Hno) as (Hsus2 & Hp2 & Hq2).
    destruct (step_members _ _ _ Hstep) as (Hq & _).
    rewrite Hp1 in Hq. simpl in Hq.
    split; [exact Hsus2|]. unfold popped, pushed in *. simpl.
    rewrite Hp1, Hp2. split; [reflexivity|].
    rewrite Hq2, <- Hq, rev_app_distr, <- app_assoc. f_equal. f_equal.
    destruct l; reflexivity.
Qed.

(** One worker that takes the only task and returns. *)
Definition run_labels : list (@label Z) :=
  [LSpawn; LPush 7; LPopEnter 0%nat; LPopValue 0%nat 7; LReturn 0%nat].

Definition run_end : state Z := mkState [Returned] [] 1 0 true false false.

Lemma run_steps : steps (ResetQueue 1 false fresh) run_labels run_end.
Proof.
  apply (steps_cons _ _ (mkState [Running] [] 1 0 false false false)).
  { apply (step_spawn (mkState [] [] 1 0 false false false)). reflexivity. }
  apply (steps_cons _ _ (mkState [Running] [7] 1 0 false false false)).
  { apply (step_push (mkState [Running] [] 1 0 false false false) 7). }
  apply (steps_cons _ _ (mkState [PopBlocked] [7] 1 1 false false false)).
  { apply (step_pop_enter (mkState [Running] [7] 1 0 false false false) 0%nat).
    reflexivity. }
  apply (steps_cons _ _ (mkState [Running] [] 1 0 true false false)).
  { apply (step_pop_value (mkState [PopBlocked] [7] 1 1 false false false) 0%nat 7
             (mkState [PopBlocked] [] 1 0 true false false)); reflexivity. }
  apply (steps_cons _ _ run_end); [|apply steps_nil].
  apply (step_return (mkState [Running] [] 1 0 true false false) 0%nat).
  reflexivity.
Qed.

Lemma tasks_neither_lost_nor_duplicated_witness :
  Permutation (popped run_labels ++ m_Queue run_end)
              (pushed run_labels ++ m_Queue (ResetQueue 1 false (@fresh Z))).
Proof.
  exact (proj1 (tasks_neither_lost_nor_duplicated _ _ _ run_steps)).
Defined.

Lemma completion_needs_a_popped_task_witness :
  m_Started run_end = true <-> popped run_labels <> [].
Proof.
  exact (proj1 (completion_needs_a_popped_task 1 fresh run_labels run_end run_steps)).
Defined.

(** A cancelled queue to which one more task is pushed. *)
Definition cancelled_state : state Z := mkState [PopBlocked] [4] 1 1 true false true.

Lemma cancelled_queue_hands_out_nothing_witness :
  m_Queue (Push 3 cancelled_state) = [3; 4] /\
  WaitForCompletionOrCancellation (Push 3 cancelled_state) = Some false.
Proof.
  destruct (cancelled_queue_hands_out_nothing cancelled_state [LPush 3]
              (Push 3 cancelled_state) eq_refl
              (steps_cons _ _ _ _ _ (step_push cancelled_state 3) (steps_nil _)))
    as (_ & _ & Hq & Hw).
  exact (conj Hq Hw).
Defined.

Lemma returned_worker_blocks_idling_witness :
  AllThreadsIdling run_end = false /\ SuspendExecution_leave run_end = None.
Proof.
  destruct (returned_worker_blocks_idling 1 fresh run_end 0%nat [] run_end
              (reachable_steps _ _ _ _ _ (reach_start 1 fresh) run_steps)
              eq_refl (steps_nil _))
    as (_ & Hidle & Hsusp & _).
  exact (conj Hidle Hsusp).
Defined.

(** A worker blocked in Pop on a suspended queue while two tasks arrive. *)
Definition suspended_state : state Z := mkState [PopBlocked] [] 1 1 false true false.

Lemma suspended_queue_hands_out_nothing_witness :
  m_Queue (Push 2 (Push 1 suspended_state)) = [2; 1].
Proof.
  refine (proj2 (proj2 (suspended_queue_hands_out_nothing suspended_state
            [LPush 1; LPush 2] (Push 2 (Push 1 suspended_state)) eq_refl _ _))).
  - rewrite !not_elem_of_cons. repeat split; try discriminate.
    apply not_elem_of_nil.
  - exact (steps_cons _ _ _ _ _ (step_push suspended_state 1)
             (steps_cons _ _ _ _ _ (step_push (Push 1 suspended_state) 2)
                (steps_nil _))).
Defined.

End QueueRuns.

(** ** More on the CSV codec *)

Module CsvMore.
Import Csv CsvFacts CsvEnglish.

Lemma field_at_insert_None fields om f i (x : wstring) :
  field_at fields om f = None -> field_at (<[i := x]> fields) om f = None.
Proof.
  unfold field_at. destruct (field_index om f); [|auto]. intros H.
  apply lookup_ge_None in H. apply lookup_ge_None. rewrite length_insert. exact H.
Qed.

(** A row in which the field of a required column cannot be read. *)
Lemma LoadResults_row_missing env st fields f :
  (f < FIELD_COUNT)%nat -> f <> FIELD_OWNER ->
  field_at fields (orderMap st) f = None ->
  LoadResults_row env st fields = Undefined.
Proof.
  intros Hf Hown Hnone.
  assert (Hn' : forall i x, field_at (<[i:=x]> fields) (orderMap st) f = None)
    by (intros; apply field_at_insert_None; exact Hnone).
  unfold LoadResults_row.
  destruct (field_at fields (orderMap st) FIELD_ATTRIBUTES_WDS) as [f_wds|] eqn:Ewds;
    [|reflexivity].
  destruct (field_index (orderMap st) FIELD_NAME) as [i_name|] eqn:Ename; [|reflexivity].
  destruct (fields !! i_name) as [f_name|] eqn:Efn; [|reflexivity].
  cbv zeta.
  unfold FIELD_COUNT, FIELD_OWNER in *.
  assert (Hcase : (f = 0 \/ f = 1 \/ f = 2 \/ f = 3 \/ f = 4 \/ f = 5 \/ f = 6 \/ f = 7)%nat)
    by lia.
  clear Hf Hown.
  destruct Hcase as [->|[->|[->|[->|[->|[->|[->| ->]]]]]]].
  all: repeat match goal with
       | |- context [match field_at ?a ?b ?c with _ => _ end] =>
           let E := fresh "E" in destruct (field_at a b c) eqn:E
       | |- context [match (if ?b then _ else _) with _ => _ end] => destruct b
       | |- context [match (match ?b with _ => _ end) with _ => _ end] => destruct b
       end; try reflexivity.
  all: try (unfold field_at in Hnone; unfold FIELD_NAME in *;
            rewrite Ename, Efn in Hnone; discriminate).
  all: try (unfold FIELD_ATTRIBUTES_WDS in *; congruence).
  all: try (unfold FIELD_LASTCHANGE, FIELD_SIZE_PHYSICAL, FIELD_SIZE_LOGICAL,
              FIELD_ATTRIBUTES, FIELD_FILES, FIELDS_FOLDERS in *;
            first [congruence | rewrite Hn' in *; discriminate]).
Qed.

(** A row for the root's children while there is no root. *)
Lemma LoadResults_row_no_root env st fields f_wds :
  newroot st = None ->
  field_at fields (orderMap st) FIELD_ATTRIBUTES_WDS = Some f_wds ->
  Z.land (wrap 16 (wcstoul (c_str f_wds) 16)) (ITF_ROOTITEM env) = 0 ->
  Z.land (wrap 16 (wcstoul (c_str f_wds) 16)) (IT_DRIVE env) <> 0 \/
  Z.land (wrap 16 (wcstoul (c_str f_wds) 16)) (IT_UNKNOWN env) <> 0 \/
  Z.land (wrap 16 (wcstoul (c_str f_wds) 16)) (IT_FREESPACE env) <> 0 ->
  LoadResults_row env st fields = Undefined.
Proof.
  intros Hroot Hwds Hnot Hin.
  unfold LoadResults_row. rewrite Hwds.
  set (type := wrap 16 (wcstoul (c_str f_wds) 16)) in *.
  destruct (field_index (orderMap st) FIELD_NAME) as [i_name|]; [|reflexivity].
  destruct (fields !! i_name) as [f_name|]; [|reflexivity].
  cbv zeta. rewrite Hnot, Hroot.
  assert (Hb : negb (Z.land type (IT_DRIVE env) =? 0)
               || negb (Z.land type (IT_UNKNOWN env) =? 0)
               || negb (Z.land type (IT_FREESPACE env) =? 0) = true).
  { destruct Hin as [H|[H|H]]; apply Z.eqb_neq in H; rewrite H; simpl;
      rewrite ?orb_true_r; reflexivity. }
  rewrite Hb. simpl.
  repeat match goal with
         | |- context [match field_at ?a ?b ?c with _ => _ end] =>
             destruct (field_at a b c)
         end; reflexivity.
Qed.

Lemma row_undefined_in_file env content pre l post st fields :
  getlines (text_mode content) = pre ++ l :: post ->
  LoadResults_lines env LoadState_init pre = Continue st ->
  headerProcessed st = true -> l <> [] ->
  parse_line (MultiByteToWideChar env l) = Some fields ->
  LoadResults_row env st fields = Undefined ->
  LoadResults env (Some content) = LoadUndefined.
Proof.
  intros Hlines Hpre Hhead Hl Hparse Hrow.
  unfold LoadResults. rewrite Hlines, LoadResults_lines_app, Hpre.
  simpl. unfold LoadResults_line. destruct l as [|c l]; [congruence|].
  unfold parse_line in Hparse. rewrite Hparse, Hhead. simpl. rewrite Hrow. reflexivity.
Qed.

Lemma ParseHeaderLine_loop_length env header : forall c om,
  length (ParseHeaderLine_loop env c header om) = length om.
Proof.
  induction header as [|h header IH]; intros c om; cbn [ParseHeaderLine_loop];
    [reflexivity|].
  rewrite IH. destruct (assoc_find h (resMap env)); [apply length_insert|reflexivity].
Qed.

Lemma resMap_lookup env f :
  (f < FIELD_COUNT)%nat -> resMap env !! f = Some (field_label env f, f).
Proof.
  intros Hf. unfold FIELD_COUNT in Hf.
  do 9 (destruct f as [|f]; [reflexivity|]). lia.
Qed.

Lemma ParseHeaderLine_loop_last env pre lab post f : forall c om,
  assoc_find lab (resMap env) = Some f -> lab = field_label env f ->
  lab ∉ post -> (f < length om)%nat ->
  ParseHeaderLine_loop env c (pre ++ lab :: post) om !! f
  = Some (to_CHAR (c + length pre)).
Proof.
  intros c om Hfind Hlab Hpost. revert c om.
  induction pre as [|h pre IH]; intros c om Hf.
  - cbn [app ParseHeaderLine_loop length]. rewrite Hfind.
    subst lab. rewrite ParseHeaderLine_loop_keeps by exact Hpost.
    rewrite Nat.add_0_r. apply list_lookup_insert_eq. exact Hf.
  - cbn [app ParseHeaderLine_loop length].
    rewrite IH.
    + f_equal. f_equal. lia.
    + destruct (assoc_find h (resMap env)); [rewrite length_insert|]; exact Hf.
Qed.

(** A line built of complete fields, a plain one closed by its comma and a
    quoted one by its quote and one more character of any kind, followed by
    a last field without comma, parses to the values of the fields, in
    order; of the last field nothing is kept when it is empty. *)
Theorem line_of_fields_parses (fs : list csv_field) (last : wstring) :
  Forall field_wellformed fs -> chrComma ∉ last -> head last <> Some chrQuote ->
  parse_line (concat (map field_text fs) ++ last)
  = Some (map field_value fs ++ match last with [] => [] | _ :: _ => [last] end).
Proof.
  intros Hfs Hcomma Hquote. rewrite parse_line_fields by exact Hfs.
  destruct last as [|c last'] eqn:E.
  - reflexivity.
  - rewrite CsvRoundTrip.parse_line_final; [reflexivity|assumption|assumption|discriminate].
Qed.

Lemma ParseHeaderLine_position (env : Env) (pre post : list wstring) (f : nat) :
  NoDup (map fst (resMap env)) -> (f < FIELD_COUNT)%nat ->
  field_label env f ∉ post ->
  ParseHeaderLine env (pre ++ field_label env f :: post) !! f
  = Some (to_CHAR (length pre)).
Proof.
  intros Hnodup Hf Hpost. unfold ParseHeaderLine.
  rewrite (ParseHeaderLine_loop_last env pre (field_label env f) post f);
    [reflexivity| |reflexivity|exact Hpost|exact Hf].
  eapply CsvRoundTrip.assoc_find_nodup; [exact Hnodup|].
  apply resMap_lookup. exact Hf.
Qed.

(** The header may hold the columns in any order and among columns it does
    not know: orderMap sends a field to the position of the last header
    entry that carries its label, as the signed byte that position is
    stored as; up to position 127 that is the position itself. *)
Theorem header_column_position (env : Env) (pre post : list wstring) (f : nat) :
  NoDup (map fst (resMap env)) -> (f < FIELD_COUNT)%nat ->
  field_label env f ∉ post ->
  let om := ParseHeaderLine env (pre ++ field_label env f :: post) in
  om !! f = Some (to_CHAR (length pre)) /\
  ((length pre < 128)%nat -> field_index om f = Some (length pre)).
Proof.
  intros Hnodup Hf Hpost om.
  pose proof (ParseHeaderLine_position env pre post f Hnodup Hf Hpost) as Hom.
  fold om in Hom.
  split; [exact Hom|]. intros Hlt.
  unfold field_index. rewrite Hom. unfold to_CHAR, wrap.
  rewrite Z.mod_small by lia.
  destruct (Z.ltb_spec (Z.of_nat (length pre)) 128); [|lia].
  destruct (Z.ltb_spec (Z.of_nat (length pre)) 0); [lia|].
  rewrite Nat2Z.id. reflexivity.
Qed.

(** A required column whose last occurrence is header entry 255 (or 511,
    767, ...) is stored as -1, the mark of a missing column: the header is
    rejected and LoadResults returns nullptr though the column is there. *)
Theorem header_column_255_reads_as_missing
    (env : Env) (l : bstring) (pre post : list wstring) (f : nat) :
  NoDup (map fst (resMap env)) -> (f < FIELD_COUNT)%nat -> f <> FIELD_OWNER ->
  field_label env f ∉ post -> (length pre mod 256 = 255)%nat ->
  l <> [] ->
  parse_line (MultiByteToWideChar env l) = Some (pre ++ field_label env f :: post) ->
  LoadResults_line env LoadState_init l = ReturnNull.
Proof.
  intros Hnodup Hf Hown Hpost Hlen Hl Hparse.
  rewrite (LoadResults_line_header env LoadState_init l _ Hl eq_refl Hparse).
  pose proof (ParseHeaderLine_position env pre post f Hnodup Hf Hpost) as Hom.
  rewrite (header_incomplete_from_missing _ O f); [reflexivity| |exact Hown].
  rewrite Hom. f_equal. unfold to_CHAR, wrap.
  change (2 ^ 8) with 256.
  replace (Z.of_nat (length pre) mod 256) with 255.
  - reflexivity.
  - rewrite <- (Nat2Z.inj_mod _ 256). rewrite Hlen. reflexivity.
Qed.

(** The item type a row carries: wcstoul of the attributes field, cast to
    ITEMTYPE. *)
Definition row_type (f_wds : wstring) : Z := wrap 16 (wcstoul (c_str f_wds) 16).

(** A row that has no field at the position of a required column (the row
    is shorter than the header, or the position was stored as a negative
    byte) makes LoadResults index its vector of fields out of range: the
    load is undefined, it does not return nullptr. *)
Theorem short_row_is_undefined
    (env : Env) (content : bstring) (pre : list bstring) (l : bstring)
    (post : list bstring) (st : LoadState) (fields : list wstring) (f : nat) :
  getlines (text_mode content) = pre ++ l :: post ->
  LoadResults_lines env LoadState_init pre = Continue st ->
  headerProcessed st = true -> l <> [] ->
  parse_line (MultiByteToWideChar env l) = Some fields ->
  (f < FIELD_COUNT)%nat -> f <> FIELD_OWNER ->
  field_at fields (orderMap st) f = None ->
  LoadResults env (Some content) = LoadUndefined.
Proof.
  intros Hlines Hpre Hhead Hl Hparse Hf Hown Hnone.
  eapply row_undefined_in_file; eauto.
  eapply LoadResults_row_missing; eauto.
Qed.

(** A row of a drive, of free space or of unknown space that is not flagged
    as root and comes before any root row is added to the children of a null
    newroot: the load is undefined. *)
Theorem row_before_root_is_undefined
    (env : Env) (content : bstring) (pre : list bstring) (l : bstring)
    (post : list bstring) (st : LoadState) (fields : list wstring)
    (f_wds : wstring) :
  getlines (text_mode content) = pre ++ l :: post ->
  LoadResults_lines env LoadState_init pre = Continue st ->
  headerProcessed st = true -> l <> [] ->
  parse_line (MultiByteToWideChar env l) = Some fields ->
  newroot st = None ->
  field_at fields (orderMap st) FIELD_ATTRIBUTES_WDS = Some f_wds ->
  Z.land (row_type f_wds) (ITF_ROOTITEM env) = 0 ->
  Z.land (row_type f_wds) (IT_DRIVE env) <> 0 \/
  Z.land (row_type f_wds) (IT_UNKNOWN env) <> 0 \/
  Z.land (row_type f_wds) (IT_FREESPACE env) <> 0 ->
  LoadResults env (Some content) = LoadUndefined.
Proof.
  intros Hlines Hpre Hhead Hl Hparse Hroot Hwds Hnot Hin.
  eapply row_undefined_in_file; eauto.
  eapply LoadResults_row_no_root; eauto.
Qed.

Definition nonblank (l : bstring) : bool :=
  match l with [] => false | _ :: _ => true end.

Lemma LoadResults_lines_nonblank env lines : forall st,
  LoadResults_lines env st lines = LoadResults_lines env st (List.filter nonblank lines).
Proof.
  induction lines as [|l lines IH]; intros st; [reflexivity|].
  destruct l as [|c l].
  - cbn [List.filter nonblank]. cbn [LoadResults_lines LoadResults_line]. apply IH.
  - cbn [List.filter nonblank]. cbn [LoadResults_lines].
    destruct (LoadResults_line env st (c :: l)); [apply IH|reflexivity..].
Qed.

(** Empty lines count for nothing, wherever they stand: two files with the
    same lines apart from empty ones load alike. *)
Theorem blank_lines_are_skipped (env : Env) (c1 c2 : bstring) :
  List.filter nonblank (getlines (text_mode c1))
  = List.filter nonblank (getlines (text_mode c2)) ->
  LoadResults env (Some c1) = LoadResults env (Some c2).
Proof.
  intros H. unfold LoadResults.
  rewrite (LoadResults_lines_nonblank env (getlines (text_mode c1))).
  rewrite (LoadResults_lines_nonblank env (getlines (text_mode c2))).
  rewrite H. reflexivity.
Qed.

Lemma insert_last_removelast (q : Z) (conv : list Z) :
  conv <> [] -> <[pred (length conv) := q]> conv = removelast conv ++ [q].
Proof.
  induction conv as [|c conv IH]; intros H; [congruence|].
  destruct conv as [|c' conv]; [reflexivity|].
  change (pred (length (c :: c' :: conv))) with (S (pred (length (c' :: conv)))).
  cbn [list_insert insert]. simpl. f_equal.
  apply IH. discriminate.
Qed.

(** QuoteAndConvert in closed form: a quote, the converted bytes without
    the last of them (the terminating zero), a quote.  Nothing in the text
    is escaped; when the conversion yields nothing the result is one
    quote. *)
Theorem QuoteAndConvert_closed_form (env : Env) (inc : wstring) :
  QuoteAndConvert env inc =
  match WideCharToMultiByte env inc with
  | [] => [chrQuote]
  | _ :: _ => chrQuote :: removelast (WideCharToMultiByte env inc) ++ [chrQuote]
  end.
Proof.
  unfold QuoteAndConvert.
  destruct (WideCharToMultiByte env inc) as [|c conv] eqn:E; [reflexivity|].
  cbn [app take length].
  rewrite <- (insert_last_removelast chrQuote (c :: conv)) by discriminate.
  reflexivity.
Qed.

(** FromTimeString takes the tick count apart into the two halves from
    which ToTimePoint put it together, also where the upper half has its top
    bit set and the count is negative: a time text that parses to the count
    of a FILETIME gives that FILETIME back. *)
Theorem FromTimeString_inverts_ToTimePoint (env : Env) (s : wstring) (ft : FILETIME) :
  0 <= dwLowDateTime ft < 2 ^ 32 -> 0 <= dwHighDateTime ft < 2 ^ 32 ->
  parse_time_point env s = ToTimePoint ft ->
  FromTimeString env s = ft.
Proof.
  intros Hlo Hhi Hparse. unfold FromTimeString. rewrite Hparse.
  destruct ft as [lo hi]. cbn [dwLowDateTime dwHighDateTime] in *.
  destruct (FILETIME_roundtrip lo hi Hlo Hhi) as (H1 & H2).
  rewrite H1, H2. reflexivity.
Qed.

(** *** The theorems at concrete files *)

Lemma line_of_fields_parses_witness :
  parse_line (concat (map field_text [Quoted (lit "C:\a") chrComma; Plain (lit "1")])
              ++ lit "0x0010")
  = Some [lit "C:\a"; lit "1"; lit "0x0010"].
Proof.
  apply (line_of_fields_parses
           [Quoted (lit "C:\a") chrComma; Plain (lit "1")] (lit "0x0010")).
  - apply Forall_cons; split; [|apply Forall_cons; split; [|apply Forall_nil_2]].
    + apply (bool_decide_unpack _). vm_compute. exact I.
    + split; [apply (bool_decide_unpack _); vm_compute; exact I | discriminate].
  - apply (bool_decide_unpack _). vm_compute. exact I.
  - discriminate.
Defined.

Lemma labels_en_NoDup : NoDup (map fst (resMap env_en)).
Proof. apply (bool_decide_unpack _). vm_compute. exact I. Qed.

Lemma header_column_position_witness :
  field_index (ParseHeaderLine env_en [lit "Size"; lit "Files"; lit "Name"; lit "Note"])
              FIELD_NAME = Some 2%nat.
Proof.
  refine (proj2 (header_column_position env_en [lit "Size"; lit "Files"] [lit "Note"]
                   FIELD_NAME labels_en_NoDup _ _) _).
  - vm_compute. lia.
  - apply (bool_decide_unpack _). vm_compute. exact I.
  - vm_compute. lia.
Defined.

(** A header of 257 columns with the name column as entry 255. *)
Definition wide_header : bstring :=
  concat (repeat (lit "x,") 255) ++ lit "Name,y".

Lemma header_column_255_reads_as_missing_witness :
  LoadResults_line env_en LoadState_init wide_header = ReturnNull.
Proof.
  apply (header_column_255_reads_as_missing env_en wide_header
           (repeat (lit "x") 255) [lit "y" ++ [chrNull]] FIELD_NAME labels_en_NoDup).
  - vm_compute. lia.
  - discriminate.
  - apply (bool_decide_unpack _). vm_compute. exact I.
  - vm_compute. reflexivity.
  - discriminate.
  - vm_compute. reflexivity.
Defined.

(** The header followed by a row of two fields, and by the row of a drive
    that is not flagged as root. *)
Definition header_en : bstring := Eval vm_compute in
  take (length (header_line env_en) - 2) (header_line env_en).

Definition after_header_en : LoadState :=
  mkLoad [] None ∅ true [0; 1; 2; 3; 4; 5; 6; 7; -1].

Definition short_row : bstring := (chrQuote :: lit "C:\") ++ chrQuote :: lit ",1".

Definition drive_row : bstring :=
  (chrQuote :: lit "D:\") ++ chrQuote ::
  lit ",0,0,1000,1000,0x00000000,2024-03-01T10:15:30.0000000Z,0x0002".

Lemma short_row_is_undefined_witness :
  LoadResults env_en (Some (header_line env_en ++ short_row ++ crlf)) = LoadUndefined.
Proof.
  apply (short_row_is_undefined env_en _ [header_en] short_row [] after_header_en
           [lit "C:\"; lit "1" ++ [chrNull]] FIELDS_FOLDERS).
  - vm_compute. reflexivity.
  - vm_compute. reflexivity.
  - reflexivity.
  - discriminate.
  - vm_compute. reflexivity.
  - vm_compute. lia.
  - discriminate.
  - reflexivity.
Defined.

Lemma row_before_root_is_undefined_witness :
  LoadResults env_en (Some (header_line env_en ++ drive_row ++ crlf)) = LoadUndefined.
Proof.
  apply (row_before_root_is_undefined env_en _ [header_en] drive_row [] after_header_en
           [lit "D:\"; lit "0"; lit "0"; lit "1000"; lit "1000"; lit "0x00000000";
            lit "2024-03-01T10:15:30.0000000Z"; lit "0x0002" ++ [chrNull]]
           (lit "0x0002" ++ [chrNull])).
  - vm_compute. reflexivity.
  - vm_compute. reflexivity.
  - reflexivity.
  - discriminate.
  - vm_compute. reflexivity.
  - reflexivity.
  - reflexivity.
  - vm_compute. reflexivity.
  - left. vm_compute. discriminate.
Defined.

Lemma blank_lines_are_skipped_witness :
  LoadResults env_en (Some (crlf ++ header_line env_en ++ crlf ++ drive_row ++ crlf ++ crlf))
  = LoadResults env_en (Some (header_line env_en ++ drive_row ++ crlf)).
Proof.
  apply blank_lines_are_skipped. vm_compute. reflexivity.
Defined.

Lemma FromTimeString_inverts_ToTimePoint_witness :
  FromTimeString env_en (lit "2024-03-01T10:15:30.0000000Z") = ft_2024.
Proof.
  apply FromTimeString_inverts_ToTimePoint.
  - vm_compute. split; [discriminate | reflexivity].
  - vm_compute. split; [discriminate | reflexivity].
  - vm_compute. reflexivity.
Defined.

End CsvMore.

(** ** MainFrame.cpp: the life of the progress display *)

Module Progress.
Import MainFrame.

(** The remaining TBPFLAG values. *)
Definition TBPF_ERROR : Z := 4.
Definition TBPF_PAUSED : Z := 8.

(** What UpdateProgress asks of the root item of the document. *)
Record RootItem : Type := mkRoot {
  IsDone : bool;
  GetProgressRange : Z;
  GetProgressPos : Z
}.

(** CMainFrame with the further members the progress functions use.
    m_WorkingItem stands for the item it points to; of the progress control
    and of the taskbar button the values last handed to SetPos and to
    SetProgressValue are kept.  The pacman's drawing, the texts of the title
    and of the status bar and the sorting of the tree control are not
    represented. *)
Record Frame : Type := mkProgress {
  members : CMainFrame;
  m_TaskbarButtonPreviousState : Z;
  m_ScanSuspend : bool;
  m_WorkingItem : option RootItem;
  progress_pos : option Z;
  taskbar_value : option (Z * Z)
}.

Definition set_members (f : Frame) (m : CMainFrame) : Frame :=
  mkProgress m (m_TaskbarButtonPreviousState f) (m_ScanSuspend f) (m_WorkingItem f)
             (progress_pos f) (taskbar_value f).

Definition set_ProgressPos (m : CMainFrame) (pos : Z) : CMainFrame :=
  mkFrame (m_ProgressRange m) pos (m_ProgressVisible m) (m_Progress_hWnd m)
          (m_Pacman_hWnd m) (m_Pacman_started m) (m_TaskbarList m)
          (m_TaskbarButtonState m).

Definition set_TaskbarButtonState (m : CMainFrame) (state : Z) : CMainFrame :=
  mkFrame (m_ProgressRange m) (m_ProgressPos m) (m_ProgressVisible m)
          (m_Progress_hWnd m) (m_Pacman_hWnd m) (m_Pacman_started m)
          (m_TaskbarList m) state.

(** static_cast<int> of an unsigned 64-bit value. *)
Definition to_int (x : Z) : Z :=
  let y := wrap 32 x in if y <? 2 ^ 31 then y else y - 2 ^ 32.

(** (m_ProgressPos * 100ull) / m_ProgressRange as an int. *)
Definition percent (pos range : Z) : Z := to_int (wrap 64 (pos * 100) / range).

(** void CMainFrame::DestroyProgress(); a window handle that is not null is
    the handle of a window. *)
Definition DestroyProgress (f : Frame) : Frame :=
  let m := members f in
  let m1 :=
    if m_Progress_hWnd m then
      mkFrame (m_ProgressRange m) (m_ProgressPos m) (m_ProgressVisible m)
              false (m_Pacman_hWnd m) (m_Pacman_started m)
              (m_TaskbarList m) (m_TaskbarButtonState m)
    else if m_Pacman_hWnd m then
      mkFrame (m_ProgressRange m) (m_ProgressPos m) (m_ProgressVisible m)
              (m_Progress_hWnd m) false false
              (m_TaskbarList m) (m_TaskbarButtonState m)
    else m in
  mkProgress
    (mkFrame (m_ProgressRange m1) (m_ProgressPos m1) false
             (m_Progress_hWnd m1) (m_Pacman_hWnd m1) (m_Pacman_started m1)
             (m_TaskbarList m1) (m_TaskbarButtonState m1))
    (m_TaskbarButtonPreviousState f) (m_ScanSuspend f) None
    (progress_pos f) (taskbar_value f).

(** UpdateProgress from the point where it is known that the progress is
    visible and that there is a working item [r]. *)
Definition UpdateProgress_show (r : RootItem) (f : Frame) : Frame :=
  let m := set_ProgressPos (members f) (GetProgressPos r) in
  if (0 <? m_ProgressRange m) && m_Progress_hWnd m then
    let pos := percent (m_ProgressPos m) (m_ProgressRange m) in
    if m_TaskbarList m && negb (m_TaskbarButtonState m =? TBPF_PAUSED) then
      if pos =? 100 then
        mkProgress (set_TaskbarButtonState m TBPF_INDETERMINATE)
                   (m_TaskbarButtonPreviousState f) (m_ScanSuspend f)
                   (m_WorkingItem f) (Some pos) (taskbar_value f)
      else
        mkProgress (set_TaskbarButtonState m TBPF_NORMAL)
                   (m_TaskbarButtonPreviousState f) (m_ScanSuspend f)
                   (m_WorkingItem f) (Some pos)
                   (Some (m_ProgressPos m, m_ProgressRange m))
    else
      mkProgress m (m_TaskbarButtonPreviousState f) (m_ScanSuspend f)
                 (m_WorkingItem f) (Some pos) (taskbar_value f)
  else set_members f m.

(** void CMainFrame::UpdateProgress(); [root] is what
    GetDocument()->GetRootItem() returns, [o] the options and [created]
    whether a window asked for is created. *)
Definition UpdateProgress (o : COptions) (created : bool) (root : option RootItem)
    (f : Frame) : Frame :=
  (* update working item tracker *)
  let f1 := mkProgress (members f) (m_TaskbarButtonPreviousState f) (m_ScanSuspend f)
                       root (progress_pos f) (taskbar_value f) in
  match root with
  | None => f1
  | Some r =>
      let f2 :=
        if negb (IsDone r)
        then set_members f1 (CreateProgress o created (GetProgressRange r) (members f1))
        else f1 in
      (* exit early if not ready for visual updates *)
      if negb (m_ProgressVisible (members f2)) then f2
      else UpdateProgress_show r f2
  end.

(** void CMainFrame::SetProgressPos(ULONGLONG pos) *)
Definition SetProgressPos (o : COptions) (created : bool) (root : option RootItem)
    (pos : Z) (f : Frame) : Frame :=
  let m := members f in
  let pos :=
    if (0 <? m_ProgressRange m) && (m_ProgressRange m <? pos)
    then m_ProgressRange m else pos in
  UpdateProgress o created root (set_members f (set_ProgressPos m pos)).

(** void CMainFrame::SetProgressComplete() *)
Definition SetProgressComplete (f : Frame) : Frame :=
  let m := members f in
  DestroyProgress
    (if m_TaskbarList m then set_members f (set_TaskbarButtonState m TBPF_NOPROGRESS)
     else f).

(** bool CMainFrame::IsScanSuspended() const *)
Definition IsScanSuspended (f : Frame) : bool := m_ScanSuspend f.

(** void CMainFrame::SuspendState(const bool suspend) *)
Definition SuspendState (o : COptions) (created : bool) (root : option RootItem)
    (suspend : bool) (f : Frame) : Frame :=
  let m := members f in
  let f1 :=
    if m_TaskbarList m then
      if m_TaskbarButtonState m =? TBPF_PAUSED then
        mkProgress (set_TaskbarButtonState m (m_TaskbarButtonPreviousState f))
                   (m_TaskbarButtonPreviousState f) suspend (m_WorkingItem f)
                   (progress_pos f) (taskbar_value f)
      else
        mkProgress (set_TaskbarButtonState m (Z.lor (m_TaskbarButtonState m) TBPF_PAUSED))
                   (m_TaskbarButtonState m) suspend (m_WorkingItem f)
                   (progress_pos f) (taskbar_value f)
    else
      mkProgress m (m_TaskbarButtonPreviousState f) suspend (m_WorkingItem f)
                 (progress_pos f) (taskbar_value f) in
  UpdateProgress o created root f1.

End Progress.

(** ** Properties of the progress display *)

Module ProgressFacts.
Import MainFrame Progress.

(** Does CreateProgress, called with these options and this range, take
    the branch of the percentage bar? *)
Definition shows_bar (c : COptions * Z) : bool :=
  ExcludeVolumeMountPoints c.1 && ExcludeJunctions c.1 && ExcludeSymbolicLinks c.1
  && (0 <? c.2).

(** CreateProgress called once for each entry, every window being created. *)
Definition create_all (calls : list (COptions * Z)) (m : CMainFrame) : CMainFrame :=
  fold_left (fun m c => CreateProgress c.1 true c.2 m) calls m.

(** SuspendState called once for each entry. *)
Definition suspend_all (o : COptions) (created : bool) (root : option RootItem)
    (bs : list bool) (f : Frame) : Frame :=
  fold_left (fun f b => SuspendState o created root b f) bs f.

Definition no_bar (o : COptions) (root : option RootItem) : Prop :=
  match root with
  | Some r => shows_bar (o, GetProgressRange r) = false
  | None => True
  end.

Lemma CreateProgress_bar o r m :
  shows_bar (o, r) = true ->
  CreateProgress o true r m
  = mkFrame r 0 true true (m_Pacman_hWnd m) (m_Pacman_started m) (m_TaskbarList m)
            (if m_TaskbarList m then TBPF_INDETERMINATE else m_TaskbarButtonState m).
Proof.
  unfold shows_bar, CreateProgress, CreateStatusProgress. cbn [fst snd].
  destruct o as [a b c], m as [mr mp mv hw pw ps tl ts].
  cbn [ExcludeVolumeMountPoints ExcludeJunctions ExcludeSymbolicLinks
       m_Progress_hWnd m_Pacman_hWnd m_Pacman_started m_TaskbarList
       m_TaskbarButtonState m_ProgressRange m_ProgressPos m_ProgressVisible].
  intros H. apply andb_true_iff in H as [H Hr].
  apply andb_true_iff in H as [H ->]. apply andb_true_iff in H as [-> ->].
  cbn [negb orb]. rewrite Hr.
  destruct hw, tl; reflexivity.
Qed.

Lemma CreateProgress_no_bar o created r m :
  shows_bar (o, r) = false ->
  let m' := CreateProgress o created r m in
  m_ProgressVisible m' = true /\
  m_Progress_hWnd m' = m_Progress_hWnd m /\
  m_Pacman_hWnd m' = m_Pacman_hWnd m || created /\
  m_TaskbarList m' = m_TaskbarList m /\
  m_TaskbarButtonState m' = m_TaskbarButtonState m.
Proof.
  unfold shows_bar, CreateProgress, CreatePacmanProgress. cbn [fst snd].
  destruct o as [a b c], m as [mr mp mv hw pw ps tl ts].
  cbn [ExcludeVolumeMountPoints ExcludeJunctions ExcludeSymbolicLinks
       m_Progress_hWnd m_Pacman_hWnd m_Pacman_started m_TaskbarList
       m_TaskbarButtonState m_ProgressRange m_ProgressPos m_ProgressVisible].
  intros H.
  assert (E : (0 <? (if negb a || negb b || negb c then 0 else r)) = false).
  { destruct a, b, c; cbn [negb orb andb] in *; auto. }
  rewrite E. destruct pw, created; cbn; auto.
Qed.

Lemma CreateProgress_ignores_pos o created r m p :
  CreateProgress o created r (set_ProgressPos m p) = CreateProgress o created r m.
Proof. destruct m; reflexivity. Qed.

Lemma UpdateProgress_show_overwrites r f p :
  UpdateProgress_show r (set_members f (set_ProgressPos (members f) p))
  = UpdateProgress_show r f.
Proof. destruct f as [[mr mp mv hw pw ps tl ts] prev sus wi pp tv]. reflexivity. Qed.

Lemma UpdateProgress_show_pos r f :
  m_ProgressPos (members (UpdateProgress_show r f)) = GetProgressPos r.
Proof.
  unfold UpdateProgress_show.
  destruct f as [[mr mp mv hw pw ps tl ts] prev sus wi pp tv].
  cbn [members set_ProgressPos m_ProgressRange m_ProgressPos m_ProgressVisible
       m_Progress_hWnd m_Pacman_hWnd m_Pacman_started m_TaskbarList
       m_TaskbarButtonState].
  destruct ((0 <? mr) && hw); [|reflexivity].
  destruct (tl && negb (ts =? TBPF_PAUSED)); [|reflexivity].
  destruct (percent (GetProgressPos r) mr =? 100); reflexivity.
Qed.

Lemma UpdateProgress_show_no_window r f :
  m_Progress_hWnd (members f) = false ->
  UpdateProgress_show r f
  = set_members f (set_ProgressPos (members f) (GetProgressPos r)).
Proof.
  intros H. unfold UpdateProgress_show.
  destruct f as [[mr mp mv hw pw ps tl ts] prev sus wi pp tv].
  cbn [members m_Progress_hWnd] in H. subst hw.
  cbn [members set_ProgressPos m_ProgressRange m_Progress_hWnd].
  rewrite andb_false_r. reflexivity.
Qed.

Lemma CreateProgress_windows o r m :
  m_Progress_hWnd (CreateProgress o true r m) = m_Progress_hWnd m || shows_bar (o, r) /\
  m_Pacman_hWnd (CreateProgress o true r m) = m_Pacman_hWnd m || negb (shows_bar (o, r)).
Proof.
  destruct (shows_bar (o, r)) eqn:E.
  - rewrite (CreateProgress_bar o r m E). cbn.
    rewrite orb_true_r, orb_false_r. auto.
  - destruct (CreateProgress_no_bar o true r m E) as (_ & H1 & H2 & _).
    rewrite H1, H2, orb_false_r. auto.
Qed.

Lemma create_all_windows calls : forall m,
  m_Progress_hWnd (create_all calls m) = m_Progress_hWnd m || existsb shows_bar calls /\
  m_Pacman_hWnd (create_all calls m)
  = m_Pacman_hWnd m || existsb (fun c => negb (shows_bar c)) calls.
Proof.
  induction calls as [|[o r] calls IH]; intros m.
  - cbn [create_all fold_left existsb]. rewrite !orb_false_r. auto.
  - cbn [create_all fold_left existsb].
    destruct (IH (CreateProgress o true r m)) as (H1 & H2).
    destruct (CreateProgress_windows o r m) as (C1 & C2).
    unfold create_all in *. cbn [fst snd] in *.
    rewrite H1, H2, C1, C2, !orb_assoc. auto.
Qed.

Lemma percent_of_part pos range :
  0 <= pos <= range -> 0 < range -> pos * 100 < 2 ^ 64 ->
  percent pos range = pos * 100 / range /\
  0 <= pos * 100 / range <= 100 /\
  (pos * 100 / range = 100 <-> pos = range).
Proof.
  intros Hpos Hrange Hsmall.
  assert (H0 : 0 <= pos * 100 / range) by (apply Z.div_pos; lia).
  assert (H100 : pos * 100 / range <= 100)
    by (apply Z.div_le_upper_bound; lia).
  split; [|split; [lia|]].
  - unfold percent, to_int, wrap.
    rewrite (Z.mod_small (pos * 100)) by lia.
    assert (E32 : 2 ^ 32 = 4294967296) by reflexivity.
    assert (E31 : 2 ^ 31 = 2147483648) by reflexivity.
    rewrite Z.mod_small by lia.
    destruct (Z.ltb_spec (pos * 100 / range) (2 ^ 31)); lia.
  - split.
    + intros E. destruct (Z.eq_dec pos range) as [|Hne]; [assumption|].
      assert (pos * 100 / range < 100) by (apply Z.div_lt_upper_bound; lia). lia.
    + intros ->. rewrite Z.mul_comm. apply Z.div_mul. lia.
Qed.

Lemma UpdateProgress_no_bar o created root g :
  no_bar o root -> m_Progress_hWnd (members g) = false ->
  let g' := UpdateProgress o created root g in
  m_Progress_hWnd (members g') = false /\
  m_TaskbarList (members g') = m_TaskbarList (members g) /\
  m_TaskbarButtonState (members g') = m_TaskbarButtonState (members g).
Proof.
  intros Hno Hbar g'. subst g'. unfold UpdateProgress.
  destruct g as [[mr mp mv hw pw ps tl ts] prev sus wi pp tv].
  cbn [members m_Progress_hWnd] in Hbar. subst hw.
  cbn [members m_TaskbarButtonPreviousState m_ScanSuspend progress_pos taskbar_value
       m_TaskbarList m_TaskbarButtonState].
  destruct root as [r|]; [|cbn; auto].
  unfold no_bar in Hno.
  destruct (IsDone r).
  - cbn [negb members m_ProgressVisible].
    destruct mv; cbn [negb]; [|cbn; auto].
    rewrite UpdateProgress_show_no_window by reflexivity. cbn. auto.
  - cbn [negb set_members members].
    destruct (CreateProgress_no_bar o created (GetProgressRange r)
                (mkFrame mr mp mv false pw ps tl ts) Hno) as (V & H1 & _ & H3 & H4).
    cbn [m_Progress_hWnd m_TaskbarList m_TaskbarButtonState] in H1, H3, H4.
    rewrite V. cbn [negb].
    rewrite UpdateProgress_show_no_window by exact H1.
    cbn [set_members members].
    destruct (CreateProgress o created (GetProgressRange r)
                (mkFrame mr mp mv false pw ps tl ts)) as [a1 a2 a3 a4 a5 a6 a7 a8].
    cbn in *. auto.
Qed.

Lemma SuspendState_no_bar o created root b f :
  no_bar o root -> m_Progress_hWnd (members f) = false ->
  m_TaskbarList (members f) = true ->
  let f' := SuspendState o created root b f in
  m_Progress_hWnd (members f') = false /\
  m_TaskbarList (members f') = true /\
  m_TaskbarButtonState (members f')
  = (if m_TaskbarButtonState (members f) =? TBPF_PAUSED
     then m_TaskbarButtonPreviousState f
     else Z.lor (m_TaskbarButtonState (members f)) TBPF_PAUSED).
Proof.
  intros Hno Hbar Htl f'. subst f'. unfold SuspendState. rewrite Htl.
  destruct (m_TaskbarButtonState (members f) =? TBPF_PAUSED);
    match goal with
    | |- context [UpdateProgress o created root ?g] =>
        destruct (UpdateProgress_no_bar o created root g Hno) as (H1 & H2 & H3);
          [destruct f as [[] ]; exact Hbar|];
          rewrite H1, H2, H3; destruct f as [[] ]; cbn in *; auto
    end.
Qed.

(** DestroyProgress destroys one window.  After calls of CreateProgress
    that have created both the percentage bar and the pacman (the range or
    the options having changed in between), DestroyProgress removes the bar
    and leaves the pacman's window; a second DestroyProgress removes that
    too.  When only one kind of window was created, one DestroyProgress
    leaves none. *)
Theorem DestroyProgress_destroys_one_window (f : Frame) (calls : list (COptions * Z)) :
  m_Progress_hWnd (members f) = false -> m_Pacman_hWnd (members f) = false ->
  let f1 := DestroyProgress (set_members f (create_all calls (members f))) in
  m_Progress_hWnd (members f1) = false /\
  m_Pacman_hWnd (members f1)
  = existsb shows_bar calls && existsb (fun c => negb (shows_bar c)) calls /\
  m_Progress_hWnd (members (DestroyProgress f1)) = false /\
  m_Pacman_hWnd (members (DestroyProgress f1)) = false.
Proof.
  intros Hbar Hpac f1. subst f1.
  destruct (create_all_windows calls (members f)) as (H1 & H2).
  rewrite Hbar in H1. rewrite Hpac in H2. cbn [orb] in H1, H2.
  unfold DestroyProgress, set_members. cbn [members].
  destruct (create_all calls (members f)) as [mr mp mv hw pw ps tl ts].
  cbn [m_Progress_hWnd m_Pacman_hWnd] in *. rewrite <- H1, <- H2.
  destruct hw, pw; cbn; auto.
Qed.

Lemma CreateProgress_visible o created r m :
  m_ProgressVisible (CreateProgress o created r m) = true.
Proof.
  unfold CreateProgress, CreateStatusProgress, CreatePacmanProgress.
  destruct m as [mr mp mv hw pw ps tl ts].
  cbn [m_Progress_hWnd m_Pacman_hWnd m_Pacman_started m_TaskbarList
       m_TaskbarButtonState m_ProgressRange m_ProgressPos m_ProgressVisible].
  destruct (0 <? _); destruct hw, pw, tl; reflexivity.
Qed.

Lemma UpdateProgress_overwrites o created r f p :
  IsDone r = false \/ m_ProgressVisible (members f) = true ->
  UpdateProgress o created (Some r) (set_members f (set_ProgressPos (members f) p))
  = UpdateProgress o created (Some r) f /\
  m_ProgressPos (members (UpdateProgress o created (Some r) f)) = GetProgressPos r.
Proof.
  intros Hcase. unfold UpdateProgress.
  destruct f as [[mr mp mv hw pw ps tl ts] prev sus wi pp tv].
  cbn [members m_ProgressVisible] in Hcase.
  destruct (IsDone r).
  - destruct Hcase as [Hcase|Hcase]; [discriminate|]. subst mv.
    split; [reflexivity|].
    cbn [negb members m_ProgressVisible]. apply UpdateProgress_show_pos.
  - cbn [negb set_members members m_TaskbarButtonPreviousState m_ScanSuspend
         m_WorkingItem progress_pos taskbar_value].
    rewrite CreateProgress_ignores_pos, !CreateProgress_visible.
    split; [reflexivity|]. cbn [negb]. apply UpdateProgress_show_pos.
Qed.

(** While the document has a root item and the progress is visible or the
    root is not done, the position passed to SetProgressPos (and its
    clamping to the range) is overwritten: the frame afterwards is the same
    for every argument, and m_ProgressPos is the position of the root item.
    Without a root item the argument is kept, clamped to a positive
    range. *)
Theorem SetProgressPos_argument_is_overwritten
    (o : COptions) (created : bool) (r : RootItem) (x y : Z) (f : Frame) :
  IsDone r = false \/ m_ProgressVisible (members f) = true ->
  SetProgressPos o created (Some r) x f = SetProgressPos o created (Some r) y f /\
  m_ProgressPos (members (SetProgressPos o created (Some r) x f)) = GetProgressPos r /\
  m_ProgressPos (members (SetProgressPos o created None x f))
  = (if (0 <? m_ProgressRange (members f)) && (m_ProgressRange (members f) <? x)
     then m_ProgressRange (members f) else x).
Proof.
  intros Hcase. unfold SetProgressPos.
  split; [|split].
  - rewrite (proj1 (UpdateProgress_overwrites o created r f _ Hcase)).
    rewrite (proj1 (UpdateProgress_overwrites o created r f _ Hcase)). reflexivity.
  - rewrite (proj1 (UpdateProgress_overwrites o created r f _ Hcase)).
    apply (UpdateProgress_overwrites o created r f 0 Hcase).
  - destruct f as [[mr mp mv hw pw ps tl ts] prev sus wi pp tv]. reflexivity.
Qed.

(** With the three exclusions on and a root item that is not done and has a
    positive range, UpdateProgress creates the percentage bar and sets it to
    the whole percentage of the item's position, a number from 0 to 100 as
    long as the position does not exceed the range.  The taskbar button, if
    there is one, is set to normal, or to indeterminate at 100 percent,
    whatever it showed before: a paused button does not stay paused. *)
Theorem UpdateProgress_shows_percentage (o : COptions) (r : RootItem) (f : Frame) :
  shows_bar (o, GetProgressRange r) = true -> IsDone r = false ->
  0 <= GetProgressPos r <= GetProgressRange r -> GetProgressPos r * 100 < 2 ^ 64 ->
  let f' := UpdateProgress o true (Some r) f in
  m_Progress_hWnd (members f') = true /\
  m_ProgressRange (members f') = GetProgressRange r /\
  m_ProgressPos (members f') = GetProgressPos r /\
  progress_pos f' = Some (GetProgressPos r * 100 / GetProgressRange r) /\
  0 <= GetProgressPos r * 100 / GetProgressRange r <= 100 /\
  (m_TaskbarList (members f) = true ->
   m_TaskbarButtonState (members f')
   = if GetProgressPos r =? GetProgressRange r then TBPF_INDETERMINATE else TBPF_NORMAL).
Proof.
  intros Hbar Hdone Hpos Hsmall f'. subst f'.
  assert (Hrange : 0 < GetProgressRange r).
  { unfold shows_bar in Hbar. apply andb_true_iff in Hbar as [_ H].
    apply Z.ltb_lt. exact H. }
  destruct (percent_of_part _ _ Hpos Hrange Hsmall) as (Hp & Hb & H100).
  assert (Heq : (GetProgressPos r * 100 / GetProgressRange r =? 100)
                = (GetProgressPos r =? GetProgressRange r)).
  { destruct (Z.eqb_spec (GetProgressPos r) (GetProgressRange r)) as [E|E].
    - apply Z.eqb_eq, H100, E.
    - apply Z.eqb_neq. intros E'. apply E, H100, E'. }
  unfold UpdateProgress. rewrite Hdone.
  cbn [negb set_members members m_TaskbarButtonPreviousState m_ScanSuspend
       m_WorkingItem progress_pos taskbar_value].
  rewrite (CreateProgress_bar o _ _ Hbar).
  cbn [negb m_ProgressVisible]. unfold UpdateProgress_show.
  destruct f as [[mr mp mv hw pw ps tl ts] prev sus wi pp tv].
  cbn [members set_members set_ProgressPos set_TaskbarButtonState
       m_ProgressRange m_ProgressPos m_ProgressVisible
       m_Progress_hWnd m_Pacman_hWnd m_Pacman_started m_TaskbarList
       m_TaskbarButtonState m_TaskbarButtonPreviousState m_ScanSuspend
       m_WorkingItem progress_pos taskbar_value].
  apply Z.ltb_lt in Hrange. rewrite Hrange, Hp, Heq. cbn [andb].
  destruct tl.
  - change (TBPF_INDETERMINATE =? TBPF_PAUSED) with false. cbn [andb negb].
    destruct (GetProgressPos r =? GetProgressRange r); cbn; repeat split; auto; lia.
  - cbn [andb]. cbn. repeat split; auto; try lia; discriminate.
Qed.

(** Where no percentage bar is shown, SuspendState sets the paused flag of
    the taskbar button on top of the state the button has, and compares the
    state with the paused flag alone to take it off again.  So from a state
    other than no-progress (normal, indeterminate, error) the flag is never
    taken off: after any number of calls, whether to suspend or to resume,
    the button shows that state with the paused flag. *)
Theorem paused_flag_stays_on_taskbar
    (o : COptions) (created : bool) (root : option RootItem) (bs : list bool)
    (f : Frame) :
  no_bar o root -> m_Progress_hWnd (members f) = false ->
  m_TaskbarList (members f) = true ->
  Z.lor (m_TaskbarButtonState (members f)) TBPF_PAUSED <> TBPF_PAUSED ->
  bs <> [] ->
  m_TaskbarButtonState (members (suspend_all o created root bs f))
  = Z.lor (m_TaskbarButtonState (members f)) TBPF_PAUSED.
Proof.
  intros Hno Hbar Htl Hstate Hbs.
  set (S := Z.lor (m_TaskbarButtonState (members f)) TBPF_PAUSED) in *.
  assert (Hone : forall b g,
    m_Progress_hWnd (members g) = false -> m_TaskbarList (members g) = true ->
    (m_TaskbarButtonState (members g) = m_TaskbarButtonState (members f) \/
     m_TaskbarButtonState (members g) = S) ->
    let g' := SuspendState o created root b g in
    m_Progress_hWnd (members g') = false /\ m_TaskbarList (members g') = true /\
    m_TaskbarButtonState (members g') = S).
  { intros b g Hg1 Hg2 Hg3 g'. subst g'.
    destruct (SuspendState_no_bar o created root b g Hno Hg1 Hg2)
      as (H1 & H2 & H4).
    split; [exact H1|]. split; [exact H2|]. rewrite H4.
    assert (Hne : m_TaskbarButtonState (members g) <> TBPF_PAUSED).
    { destruct Hg3 as [E|E]; rewrite E; [|exact Hstate].
      intros E'. apply Hstate. unfold S. rewrite E'. reflexivity. }
    apply Z.eqb_neq in Hne. rewrite Hne.
    destruct Hg3 as [E|E]; rewrite E; [reflexivity|].
    unfold S. rewrite <- Z.lor_assoc, Z.lor_diag. reflexivity. }
  assert (Hall : forall bs g,
    m_Progress_hWnd (members g) = false -> m_TaskbarList (members g) = true ->
    m_TaskbarButtonState (members g) = S ->
    m_TaskbarButtonState (members (suspend_all o created root bs g)) = S).
  { clear Hbs bs. intros bs. induction bs as [|b bs IH]; intros g Hg1 Hg2 Hg3.
    - exact Hg3.
    - cbn [suspend_all fold_left].
      destruct (Hone b g Hg1 Hg2 (or_intror Hg3)) as (K1 & K2 & K3).
      apply IH; assumption. }
  destruct bs as [|b bs]; [congruence|].
  cbn [suspend_all fold_left].
  destruct (Hone b f Hbar Htl (or_introl eq_refl)) as (K1 & K2 & K3).
  apply Hall; assumption.
Qed.

(** *** The theorems at a concrete frame *)

Definition all_on : COptions := mkOptions true true true.
Definition junctions_followed : COptions := mkOptions true false true.

Definition frame0 : Frame :=
  mkProgress (mkFrame 0 0 false false false false true TBPF_INDETERMINATE)
             TBPF_NOPROGRESS false None None None.

Lemma DestroyProgress_destroys_one_window_witness :
  let f1 := DestroyProgress
              (set_members frame0
                 (create_all [(junctions_followed, 500); (all_on, 500)] (members frame0))) in
  m_Progress_hWnd (members f1) = false /\ m_Pacman_hWnd (members f1) = true /\
  m_Pacman_hWnd (members (DestroyProgress f1)) = false.
Proof.
  destruct (DestroyProgress_destroys_one_window frame0
              [(junctions_followed, 500); (all_on, 500)] eq_refl eq_refl)
    as (H1 & H2 & _ & H4).
  exact (conj H1 (conj H2 H4)).
Defined.

Lemma SetProgressPos_argument_is_overwritten_witness :
  m_ProgressPos (members (SetProgressPos all_on true (Some (mkRoot false 500 120)) 499 frame0))
  = 120.
Proof.
  exact (proj1 (proj2 (SetProgressPos_argument_is_overwritten all_on true
                         (mkRoot false 500 120) 499 0 frame0 (or_introl eq_refl)))).
Defined.

Lemma UpdateProgress_shows_percentage_witness :
  progress_pos (UpdateProgress all_on true (Some (mkRoot false 500 120)) frame0)
  = Some (120 * 100 / 500).
Proof.
  refine (proj1 (proj2 (proj2 (proj2
            (UpdateProgress_shows_percentage all_on (mkRoot false 500 120) frame0
               eq_refl eq_refl _ _))))).
  - simpl. lia.
  - simpl. lia.
Defined.

Lemma paused_flag_stays_on_taskbar_witness :
  m_TaskbarButtonState
    (members (suspend_all junctions_followed true (Some (mkRoot false 500 120))
                [true; false] frame0))
  = Z.lor TBPF_INDETERMINATE TBPF_PAUSED.
Proof.
  apply (paused_flag_stays_on_taskbar junctions_followed true
           (Some (mkRoot false 500 120)) [true; false] frame0).
  - reflexivity.
  - reflexivity.
  - reflexivity.
  - discriminate.
  - discriminate.
Defined.

End ProgressFacts.
